(** * LLM safety gateway: policy chain evaluation

    A shallow embedding of [policies.py] and [backend.py].

    Conventions of the model.
    - A Python [str] is a Rocq [string]; each character stands for a code
      point below 256, so the Unicode tables Python consults ([str.lower],
      [str.strip], the classes [\w], [\s], [\d] of [re]) are written out for
      that range.
    - A compiled [re.Pattern] is a pair of its source text and a regular
      expression tree, run by a backtracking matcher with Python's priorities
      (greedy repetition, ordered alternation, leftmost match).  The fragment
      covers what the patterns of the repository use.
    - Exceptions are values of [except]; functions that write to the logger
      return the records they wrote.
    - Configuration records are typed: every key the policies read holds a
      value of the type the policy expects, or is absent.  The part on
      unchecked attributes lifts this for [mask_token] and
      [disallowed_domains], the two keys a constructor stores without using
      them: there they hold [None], a boolean, an integer, a string or a
      list of such values. *)

From Stdlib Require Import Ascii String NArith Lia Bool.
From stdpp Require Import gmap strings list.

Local Open Scope N_scope.

(* ================================================================== *)
(** * Text primitives *)

Module Text.

Definition code (c : ascii) : N := N_of_ascii c.

Definition between (lo hi : N) (c : ascii) : bool :=
  (lo <=? code c) && (code c <=? hi).

Definition is_upper_az (c : ascii) : bool := between 65 90 c.
Definition is_lower_az (c : ascii) : bool := between 97 122 c.
(** [[a-zA-Z]] *)
Definition is_alpha_az (c : ascii) : bool := is_upper_az c || is_lower_az c.
(** [[0-9]], which is also [\d] below 256 *)
Definition is_digit (c : ascii) : bool := between 48 57 c.

(** [str.isspace] on one character, which is also [\s]:
    TAB..CR, FS..US, SPACE, NEL and NBSP. *)
Definition is_space (c : ascii) : bool :=
  between 9 13 c || between 28 32 c || (code c =? 133) || (code c =? 160).

(** [str.isalnum] on one character: the letters, digits and numeric
    characters below 256. *)
Definition is_alnum (c : ascii) : bool :=
  is_alpha_az c || is_digit c
  || (code c =? 170) || (code c =? 178) || (code c =? 179)
  || (code c =? 181) || between 185 186 c || between 188 190 c
  || between 192 214 c || between 216 246 c || between 248 255 c.

(** [\w] *)
Definition is_word (c : ascii) : bool := is_alnum c || (code c =? 95).

(** [str.lower] on one character. *)
Definition lower_char (c : ascii) : ascii :=
  if is_upper_az c || (between 192 222 c && negb (code c =? 215))
  then ascii_of_N (code c + 32) else c.

(** [str.lower] *)
Fixpoint lower (s : string) : string :=
  match s with
  | EmptyString => EmptyString
  | String c s' => String (lower_char c) (lower s')
  end.

Fixpoint lstrip (s : string) : string :=
  match s with
  | EmptyString => EmptyString
  | String c s' => if is_space c then lstrip s' else s
  end.

(** [rstrip] keeps a character when it is not a space or when something
    is kept after it. *)
Fixpoint rstrip (s : string) : string :=
  match s with
  | EmptyString => EmptyString
  | String c s' =>
      match rstrip s' with
      | EmptyString => if is_space c then EmptyString else String c EmptyString
      | t => String c t
      end
  end.

(** [str.strip] with no argument *)
Definition strip (s : string) : string := rstrip (lstrip s).

(** Truth value of a [str]: non-empty. *)
Definition truthy (s : string) : bool :=
  match s with EmptyString => false | _ => true end.

(** [kw in t] for two strings *)
Fixpoint str_in (kw t : string) : bool :=
  if String.prefix kw t then true
  else match t with
       | EmptyString => false
       | String _ t' => str_in kw t'
       end.

End Text.

(* ================================================================== *)
(** * The [re] module *)

Module Re.
Import Text.

(** Regular expression trees.  [Alt] is ordered and [Star] is greedy. *)
Inductive regex : Type :=
| Empty
| Char (f : ascii -> bool)
| Cat (r1 r2 : regex)
| Alt (r1 r2 : regex)
| Star (r : regex)
| Bound.

(** ** Pattern syntax *)

Definition eq_char (c x : ascii) : bool := code x =? code c.
(** a literal under [re.I] *)
Definition eq_char_i (c x : ascii) : bool :=
  code (lower_char x) =? code (lower_char c).

Definition Lit (c : ascii) : regex := Char (eq_char c).
Definition Opt (r : regex) : regex := Alt r Empty.
Definition Plus (r : regex) : regex := Cat r (Star r).

Fixpoint Rep (n : nat) (r : regex) : regex :=
  match n with
  | O => Empty
  | S n' => Cat r (Rep n' r)
  end.

(** [r{0,n}], greedy *)
Fixpoint UpTo (n : nat) (r : regex) : regex :=
  match n with
  | O => Empty
  | S n' => Opt (Cat r (UpTo n' r))
  end.

(** [r{lo,hi}] *)
Definition Range (lo hi : nat) (r : regex) : regex :=
  Cat (Rep lo r) (UpTo (hi - lo) r).
(** [r{lo,}] *)
Definition AtLeast (lo : nat) (r : regex) : regex := Cat (Rep lo r) (Star r).

Fixpoint Seq (rs : list regex) : regex :=
  match rs with
  | [] => Empty
  | [r] => r
  | r :: rs' => Cat r (Seq rs')
  end.

Fixpoint Alts (rs : list regex) : regex :=
  match rs with
  | [] => Char (fun _ => false)
  | [r] => r
  | r :: rs' => Alt r (Alts rs')
  end.

(** a literal string, and a literal string under [re.I] *)
Fixpoint Str (s : string) : regex :=
  match s with
  | EmptyString => Empty
  | String c EmptyString => Lit c
  | String c s' => Cat (Lit c) (Str s')
  end.

Fixpoint StrI (s : string) : regex :=
  match s with
  | EmptyString => Empty
  | String c EmptyString => Char (eq_char_i c)
  | String c s' => Cat (Char (eq_char_i c)) (StrI s')
  end.

Definition AltsI (ws : list string) : regex := Alts (map StrI ws).

(** ** The matcher *)

Definition is_word_at (o : option ascii) : bool :=
  match o with Some c => is_word c | None => false end.

(** [k] receives the last character consumed so far and what is left. *)
Definition cont : Type := option ascii -> list ascii -> option (list ascii).

(** Greedy repetition of [body].  An iteration has to consume something,
    so [fuel], the length of the text at the start, outlasts the text. *)
Fixpoint star_loop (body : option ascii -> list ascii -> cont -> option (list ascii))
    (fuel : nat) (prev : option ascii) (s : list ascii) (k : cont)
    : option (list ascii) :=
  match fuel with
  | O => k prev s
  | S fuel' =>
      match body prev s
              (fun p' s' =>
                 if (length s' <? length s)%nat
                 then star_loop body fuel' p' s' k else None) with
      | Some x => Some x
      | None => k prev s
      end
  end.

(** [match_re r prev s k]: match [r] at the head of [s], the character
    before it being [prev], trying the alternatives in Python's order
    until [k] accepts. *)
Fixpoint match_re (r : regex) (prev : option ascii) (s : list ascii) (k : cont)
    : option (list ascii) :=
  match r with
  | Empty => k prev s
  | Char f =>
      match s with
      | c :: s' => if f c then k (Some c) s' else None
      | [] => None
      end
  | Cat r1 r2 => match_re r1 prev s (fun p' s' => match_re r2 p' s' k)
  | Alt r1 r2 =>
      match match_re r1 prev s k with
      | Some x => Some x
      | None => match_re r2 prev s k
      end
  | Star r1 => star_loop (match_re r1) (length s) prev s k
  | Bound =>
      if xorb (is_word_at prev) (is_word_at (head s)) then k prev s else None
  end.

(** The end of the pattern.  With [must_advance] a match that ends where
    the attempt started is refused. *)
Definition accept (must_advance : bool) (s0 : list ascii) : cont :=
  fun _ s' =>
    if must_advance && (length s' =? length s0)%nat then None else Some s'.

(** One attempt at the head of [s]: what is left after the match. *)
Definition match_here (r : regex) (must_advance : bool)
    (prev : option ascii) (s : list ascii) : option (list ascii) :=
  match_re r prev s (accept must_advance s).

(** [re.search]: attempts at each position from the left. *)
Fixpoint search_from (r : regex) (prev : option ascii) (s : list ascii) : bool :=
  match match_here r false prev s with
  | Some _ => true
  | None =>
      match s with
      | [] => false
      | c :: s' => search_from r (Some c) s'
      end
  end.

(** ** Replacement templates *)

Inductive titem : Type :=
| TLit (c : ascii)
| TWhole.

Definition is_octal (c : ascii) : bool := between 48 55 c.
Definition digit_val (c : ascii) : N := code c - 48.
Definition bslash : ascii := "\"%char.

(** The name of [\g<name>] up to the closing bracket. *)
Fixpoint until_gt (s : list ascii) : option (list ascii * list ascii) :=
  match s with
  | [] => None
  | c :: s' =>
      if eq_char ">" c then Some ([], s')
      else match until_gt s' with
           | Some (n, rest) => Some (c :: n, rest)
           | None => None
           end
  end.

Definition simple_escape (c : ascii) : option ascii :=
  if eq_char "a" c then Some (ascii_of_N 7)
  else if eq_char "b" c then Some (ascii_of_N 8)
  else if eq_char "f" c then Some (ascii_of_N 12)
  else if eq_char "n" c then Some (ascii_of_N 10)
  else if eq_char "r" c then Some (ascii_of_N 13)
  else if eq_char "t" c then Some (ascii_of_N 9)
  else if eq_char "v" c then Some (ascii_of_N 11)
  else if eq_char bslash c then Some bslash
  else None.

(** What stops [parse_template]: [re.error], or [IndexError] for a group
    named by an identifier, which no pattern here defines. *)
Inductive failure : Type :=
| BadEscape
| UnknownGroupName (name : list ascii).

(** [str.isidentifier] *)
Definition is_id_start (c : ascii) : bool :=
  is_alpha_az c || eq_char "_" c
  || (code c =? 170) || (code c =? 181) || (code c =? 186)
  || between 192 214 c || between 216 246 c || between 248 255 c.

Definition is_id_continue (c : ascii) : bool :=
  is_id_start c || is_digit c || (code c =? 183).

Definition is_identifier (n : list ascii) : bool :=
  match n with
  | [] => false
  | c :: n' => is_id_start c && forallb is_id_continue n'
  end.

(** The white space [int] skips at both ends of its argument. *)
Definition is_int_space (c : ascii) : bool :=
  between 9 13 c || (code c =? 32) || (code c =? 133) || (code c =? 160).

Fixpoint drop_int_space (n : list ascii) : list ascii :=
  match n with
  | [] => []
  | c :: n' => if is_int_space c then drop_int_space n' else n
  end.

Definition drop_sign (n : list ascii) : list ascii :=
  match n with
  | [] => []
  | c :: n' => if eq_char "+" c || eq_char "-" c then n' else n
  end.

(** Zeros with single underscores between them; [after_zero] says that
    the character before was a zero. *)
Fixpoint zeros (after_zero : bool) (n : list ascii) : bool :=
  match n with
  | [] => after_zero
  | c :: n' =>
      if eq_char "0" c then zeros true n'
      else if eq_char "_" c then after_zero && zeros false n'
      else false
  end.

(** [int(name) == 0]: white space around, one sign, zeros with single
    underscores between them; [int] refuses more than 4300 digits. *)
Definition int_is_zero (n : list ascii) : bool :=
  let body := drop_sign (rev (drop_int_space (rev (drop_int_space n)))) in
  zeros false body && (length (List.filter (eq_char "0") body) <=? 4300)%nat.

(** The tokenizer reads one token ahead, and a backslash that ends the
    template is an error as soon as it is read. *)
Definition lone_bslash (rest : list ascii) : bool :=
  match rest with
  | [c] => eq_char bslash c
  | _ => false
  end.

(** One escape, the backslash already read: the items it stands for and
    the number of characters it takes after the backslash.  The pattern
    has no capture group, so the only group a template may name is 0. *)
Definition parse_escape (s : list ascii) : failure + (list titem * nat) :=
  match s with
  | [] => inl BadEscape
  | c :: s' =>
      if eq_char "g" c then
        match s' with
        | lt :: s'' =>
            if eq_char "<" lt then
              match until_gt s'' with
              | Some (n, rest) =>
                  if lone_bslash rest then inl BadEscape
                  else if is_identifier n then inl (UnknownGroupName n)
                  else if int_is_zero n
                  then inr ([TWhole], (3 + length n)%nat) else inl BadEscape
              | None => inl BadEscape
              end
            else inl BadEscape
        | [] => inl BadEscape
        end
      else if eq_char "0" c then
        match s' with
        | d1 :: d2 :: _ =>
            if is_octal d1 && is_octal d2
            then inr ([TLit (ascii_of_N ((digit_val d1 * 8 + digit_val d2) mod 256))], 3%nat)
            else if is_octal d1
            then inr ([TLit (ascii_of_N (digit_val d1))], 2%nat)
            else inr ([TLit (ascii_of_N 0)], 1%nat)
        | [d1] =>
            if is_octal d1
            then inr ([TLit (ascii_of_N (digit_val d1))], 2%nat)
            else inr ([TLit (ascii_of_N 0)], 1%nat)
        | [] => inr ([TLit (ascii_of_N 0)], 1%nat)
        end
      else if is_digit c then
        match s' with
        | d1 :: d2 :: _ =>
            if is_octal c && is_octal d1 && is_octal d2
               && (digit_val c * 64 + digit_val d1 * 8 + digit_val d2 <=? 255)
            then inr ([TLit (ascii_of_N (digit_val c * 64 + digit_val d1 * 8 + digit_val d2))], 3%nat)
            else inl BadEscape
        | _ => inl BadEscape
        end
      else
        match simple_escape c with
        | Some x => inr ([TLit x], 1%nat)
        | None =>
            if is_alpha_az c then inl BadEscape
            else inr ([TLit bslash; TLit c], 1%nat)
        end
  end.

(** [parse_template]; the first [skip] characters belong to an escape
    already read. *)
Fixpoint parse_template_go (skip : nat) (s : list ascii) : failure + list titem :=
  match s with
  | [] => inr []
  | c :: s' =>
      match skip with
      | S k => parse_template_go k s'
      | O =>
          if eq_char bslash c then
            match parse_escape s' with
            | inr (items, n) =>
                match parse_template_go n s' with
                | inr t => inr (items ++ t)
                | inl f => inl f
                end
            | inl f => inl f
            end
          else
            match parse_template_go O s' with
            | inr t => inr (TLit c :: t)
            | inl f => inl f
            end
      end
  end.

Definition parse_template (repl : list ascii) : failure + list titem :=
  parse_template_go O repl.

Fixpoint expand (t : list titem) (matched : list ascii) : list ascii :=
  match t with
  | [] => []
  | TLit c :: t' => c :: expand t' matched
  | TWhole :: t' => matched ++ expand t' matched
  end.

(** ** Substitution *)

(** [sub_go r t s prev skip adv]: the output for the text [s] that is
    left, where the next [skip] characters belong to a match already
    replaced, and [adv] says that the previous match was empty and ended
    here. *)
Fixpoint sub_go (r : regex) (t : list titem) (s : list ascii)
    (prev : option ascii) (skip : nat) (adv : bool) : list ascii :=
  let next (k : nat) :=
    match s with
    | [] => []
    | c :: s' => sub_go r t s' (Some c) k false
    end in
  let copy :=
    match s with
    | [] => []
    | c :: s' => c :: sub_go r t s' (Some c) O false
    end in
  match skip with
  | S k => next k
  | O =>
      match match_here r adv prev s with
      | None => copy
      | Some rest =>
          let len := (length s - length rest)%nat in
          match len with
          | S k => expand t (take len s) ++ next k
          | O =>
              expand t [] ++
              match match_here r true prev s with
              | None => copy
              | Some rest2 =>
                  let len2 := (length s - length rest2)%nat in
                  expand t (take len2 s) ++ next (len2 - 1)%nat
              end
          end
      end
  end.

(** What [sub] raises: [re.error] for the template [repl], or
    [IndexError] for the group name in it. *)
Inductive error : Type :=
| BadTemplate (repl : string)
| UnknownGroup (name : string).

(** a compiled pattern object *)
Record Pattern : Type := { pattern : string; tree : regex }.

(** [p.search(text)] as a truth value *)
Definition search (p : Pattern) (text : string) : bool :=
  search_from (tree p) None (list_ascii_of_string text).

(** [re.sub] for a string [repl]; the template is parsed before any
    matching is done. *)
Definition sub_tree (r : regex) (repl text : string) : error + string :=
  match parse_template (list_ascii_of_string repl) with
  | inl BadEscape => inl (BadTemplate repl)
  | inl (UnknownGroupName n) => inl (UnknownGroup (string_of_list_ascii n))
  | inr t =>
      inr (string_of_list_ascii
             (sub_go r t (list_ascii_of_string text) None O false))
  end.

(** [p.sub(repl, text)] *)
Definition sub (p : Pattern) (repl text : string) : error + string :=
  sub_tree (tree p) repl text.

(** A pattern string of the configuration together with what the parser
    of [re] makes of it: [None] when it is not a valid pattern. *)
Record source : Type := { src_text : string; src_tree : option regex }.

(** [re.compile] *)
Definition compile (s : source) : option Pattern :=
  match src_tree s with
  | Some r => Some {| pattern := src_text s; tree := r |}
  | None => None
  end.

End Re.

(* ================================================================== *)
(** * Exceptions and logging *)

Inductive exn : Type :=
| ValueError (msg : string)
| ReError (msg : string)
| IndexError (msg : string)
| TypeError (msg : string).

Inductive except (A : Type) : Type :=
| Ok (a : A)
| Raise (e : exn).
Arguments Ok {A} a.
Arguments Raise {A} e.

#[global] Instance except_ret : MRet except := fun A a => Ok a.
#[global] Instance except_bind : MBind except := fun A B f m =>
  match m with
  | Ok a => f a
  | Raise e => Raise e
  end.
#[global] Instance except_fmap : FMap except := fun A B f m =>
  match m with
  | Ok a => Ok (f a)
  | Raise e => Raise e
  end.

Definition of_re {A : Type} (r : Re.error + A) : except A :=
  match r with
  | inr a => Ok a
  | inl (Re.BadTemplate repl) => Raise (ReError ("bad template " +:+ repl))
  | inl (Re.UnknownGroup n) => Raise (IndexError ("unknown group name '" +:+ n +:+ "'"))
  end.

Inductive level : Type := INFO | WARNING | ERROR.
Definition log_record : Type := (level * string)%type.

(* ================================================================== *)
(** * policies.py *)

(** The dictionary a policy returns: the keys the gateway reads. *)
Record PolicyResult : Type := {
  res_status : option string;
  res_details : option string;
  res_processed_prompt : option string
}.

Definition verdict (status details : string) : PolicyResult :=
  {| res_status := Some status; res_details := Some details;
     res_processed_prompt := None |}.

Definition verdict_with (status details processed : string) : PolicyResult :=
  {| res_status := Some status; res_details := Some details;
     res_processed_prompt := Some processed |}.

(** The abstract base class. *)
Class PromptPolicy (P : Type) : Type := {
  name : P -> string;
  evaluate_prompt : P -> string -> except PolicyResult
}.

(** The [policy_config] dictionary of one entry. *)
Record policy_config : Type := {
  cfg_mask_token : option string;
  cfg_keywords : option (list string);
  cfg_phone_pattern : option Re.source;
  cfg_email_pattern : option Re.source;
  cfg_disallowed_domains : option (list string)
}.

(** [{}] *)
Definition empty_config : policy_config :=
  {| cfg_mask_token := None; cfg_keywords := None; cfg_phone_pattern := None;
     cfg_email_pattern := None; cfg_disallowed_domains := None |}.

Import Re Text.

(** ** Character classes of the patterns *)

(** [[a-zA-Z0-9._%+-]] *)
Definition email_local (c : ascii) : bool :=
  is_alpha_az c || is_digit c || eq_char "." c || eq_char "_" c
  || eq_char "%" c || eq_char "+" c || eq_char "-" c.

(** [[a-zA-Z0-9.-]] *)
Definition email_domain (c : ascii) : bool :=
  is_alpha_az c || is_digit c || eq_char "." c || eq_char "-" c.

(** [[-.\s]] *)
Definition phone_sep (c : ascii) : bool :=
  eq_char "-" c || eq_char "." c || is_space c.

(** [.] without [re.S] *)
Definition any_char (c : ascii) : bool := negb (code c =? 10).

(** [[^\s]] *)
Definition non_space (c : ascii) : bool := negb (is_space c).

Definition email_tree : regex :=
  Seq [Plus (Char email_local); Lit "@"; Plus (Char email_domain); Lit ".";
       AtLeast 2 (Char is_alpha_az)].

Definition email_source : source :=
  {| src_text := "[a-zA-Z0-9._%+-]+@[a-zA-Z0-9.-]+\.[a-zA-Z]{2,}";
     src_tree := Some email_tree |}.

Definition phone_tree : regex :=
  Seq [Opt (Alt (Seq [Opt (Lit "+"); Range 1 3 (Char is_digit);
                      Opt (Char phone_sep)])
                (Seq [Lit "("; Opt (Lit "0"); Rep 3 (Char is_digit); Lit ")";
                      Opt (Char phone_sep)]));
       Rep 3 (Char is_digit); Opt (Char phone_sep); Rep 4 (Char is_digit);
       Opt (Seq [Opt (Char phone_sep); Rep 3 (Char is_digit)])].

Definition phone_source : source :=
  {| src_text := "(?:(?:\+?\d{1,3}[-.\s]?)|\(0?\d{3}\)[-.\s]?)?\d{3}[-.\s]?\d{4}(?:[-.\s]?\d{3})?";
     src_tree := Some phone_tree |}.

(** ** PII_Scrubber *)

Record PII_Scrubber : Type := {
  pii_email_regex : Pattern;
  pii_mask_token : string
}.

Definition PII_Scrubber_init (cfg : policy_config) : except PII_Scrubber :=
  Ok {| pii_email_regex :=
          {| pattern := src_text email_source; tree := email_tree |};
        pii_mask_token := default "[EMAIL_MASKED]" (cfg_mask_token cfg) |}.

Definition PII_Scrubber_evaluate_prompt (self : PII_Scrubber) (text : string)
    : except PolicyResult :=
  masked ← of_re (sub (pii_email_regex self) (pii_mask_token self) text);
  if negb (String.eqb masked text)
  then Ok (verdict_with "MASK" "PII (email) masked." masked)
  else Ok (verdict "PASS" "No PII found.").

#[global] Instance PII_Scrubber_policy : PromptPolicy PII_Scrubber := {
  name _ := "PII_Scrubber";
  evaluate_prompt := PII_Scrubber_evaluate_prompt
}.

(** ** Jailbreak_Detector *)

Record Jailbreak_Detector : Type := { jb_keywords : list string }.

Definition jailbreak_defaults : list string :=
  ["ignore previous rules"; "dan mode"; "jailbreak"; "bypass safety";
   "act as if you are not an ai"].

Definition Jailbreak_Detector_init (cfg : policy_config) : except Jailbreak_Detector :=
  Ok {| jb_keywords := map lower (default jailbreak_defaults (cfg_keywords cfg)) |}.

Fixpoint first_keyword (keywords : list string) (low : string) : option string :=
  match keywords with
  | [] => None
  | kw :: rest => if str_in kw low then Some kw else first_keyword rest low
  end.

Definition Jailbreak_Detector_evaluate_prompt (self : Jailbreak_Detector)
    (text : string) : except PolicyResult :=
  let low := lower text in
  match first_keyword (jb_keywords self) low with
  | Some kw => Ok (verdict "BLOCK" ("Jailbreak detected: '" +:+ kw +:+ "'"))
  | None => Ok (verdict "PASS" "No jailbreak detected.")
  end.

#[global] Instance Jailbreak_Detector_policy : PromptPolicy Jailbreak_Detector := {
  name _ := "Jailbreak_Detector";
  evaluate_prompt := Jailbreak_Detector_evaluate_prompt
}.

(** ** Semantic_Threat_Detector *)

Record Semantic_Threat_Detector : Type := {
  block_patterns : list Pattern;
  rewrite_patterns : list Pattern;
  rewrite_template : string
}.

Definition ws : regex := Char is_space.
Definition creation_verbs : list string := ["make"; "build"; "create"; "manufacture"].

Definition default_block_patterns : list Pattern :=
  [ {| pattern := "\b(make|build|create|manufacture)\s+(a|the)?\s*bomb\b";
       tree := Seq [Bound; AltsI creation_verbs; Plus ws; Opt (AltsI ["a"; "the"]);
                    Star ws; StrI "bomb"; Bound] |};
    {| pattern := "\bhow to (make|build|create|manufacture)\s+(a|the)?\s*bomb\b";
       tree := Seq [Bound; StrI "how to "; AltsI creation_verbs; Plus ws;
                    Opt (AltsI ["a"; "the"]); Star ws; StrI "bomb"; Bound] |};
    {| pattern := "\bbomb\s*recipe\b";
       tree := Seq [Bound; StrI "bomb"; Star ws; StrI "recipe"; Bound] |};
    {| pattern := "\bexplosive\s+device\b";
       tree := Seq [Bound; StrI "explosive"; Plus ws; StrI "device"; Bound] |};
    {| pattern := "\bpipe\s*bomb\b";
       tree := Seq [Bound; StrI "pipe"; Star ws; StrI "bomb"; Bound] |};
    {| pattern := "\bied\b"; tree := Seq [Bound; StrI "ied"; Bound] |};
    {| pattern := "\bhow to hack a bank\b";
       tree := Seq [Bound; StrI "how to hack a bank"; Bound] |};
    {| pattern := "\bhow to (kill|poison)\b";
       tree := Seq [Bound; StrI "how to "; AltsI ["kill"; "poison"]; Bound] |} ].

Definition default_rewrite_patterns : list Pattern :=
  [ {| pattern := "\b(hack|bypass)\b.*\b(firewall|router|wifi|system)\b";
       tree := Seq [Bound; AltsI ["hack"; "bypass"]; Bound; Star (Char any_char);
                    Bound; AltsI ["firewall"; "router"; "wifi"; "system"]; Bound] |} ].

Definition Semantic_Threat_Detector_init (cfg : policy_config)
    : except Semantic_Threat_Detector :=
  Ok {| block_patterns := default_block_patterns;
        rewrite_patterns := default_rewrite_patterns;
        rewrite_template :=
          "This query was rewritten to focus only on defensive cybersecurity. "
          +:+ "Explain best practices without attack steps: " |}.

(** [\bbomb\b] and [(make|build|create|manufacture)], both under [re.I] *)
Definition bomb_word : Pattern :=
  {| pattern := "\bbomb\b"; tree := Seq [Bound; StrI "bomb"; Bound] |}.
Definition creation_verb : Pattern :=
  {| pattern := "(make|build|create|manufacture)"; tree := AltsI creation_verbs |}.

Fixpoint first_match (pats : list Pattern) (text : string) : option Pattern :=
  match pats with
  | [] => None
  | pat :: rest => if search pat text then Some pat else first_match rest text
  end.

Definition Semantic_Threat_Detector_evaluate_prompt
    (self : Semantic_Threat_Detector) (text : string) : except PolicyResult :=
  if search bomb_word text && search creation_verb text
  then Ok (verdict "BLOCK" "Dangerous bomb-making intent detected.")
  else
    match first_match (block_patterns self) text with
    | Some pat =>
        Ok (verdict "BLOCK"
              ("Semantic threat detected (pattern: '" +:+ pattern pat +:+ "')"))
    | None =>
        match first_match (rewrite_patterns self) text with
        | Some _ =>
            let new := rewrite_template self +:+ text in
            Ok (verdict_with "REWRITE"
                  "Potentially unsafe → rewritten to defensive intent." new)
        | None => Ok (verdict "PASS" "No semantic threat detected.")
        end
    end.

#[global] Instance Semantic_Threat_Detector_policy
    : PromptPolicy Semantic_Threat_Detector := {
  name _ := "Semantic_Threat_Detector";
  evaluate_prompt := Semantic_Threat_Detector_evaluate_prompt
}.

(** ** Output_Sanitizer *)

Record Output_Sanitizer : Type := {
  os_phone_regex : Pattern;
  os_email_regex : Pattern;
  os_mask_token : string;
  os_disallowed : list string
}.

Definition compile_or_raise (s : source) : except Pattern :=
  match compile s with
  | Some p => Ok p
  | None => Raise (ReError ("cannot compile " +:+ src_text s))
  end.

Definition Output_Sanitizer_init (cfg : policy_config) : except Output_Sanitizer :=
  let phone := default phone_source (cfg_phone_pattern cfg) in
  let email := default email_source (cfg_email_pattern cfg) in
  phone_regex ← compile_or_raise phone;
  email_regex ← compile_or_raise email;
  Ok {| os_phone_regex := phone_regex;
        os_email_regex := email_regex;
        os_mask_token := default "[REDACTED]" (cfg_mask_token cfg);
        os_disallowed :=
          default ["pastebin.com"; "anonfiles.com"] (cfg_disallowed_domains cfg) |}.

(** [https?://{re.escape(dom)}[^\s]*] under [re.I] *)
Definition link_tree (dom : string) : regex :=
  Seq [StrI "http"; Opt (Char (eq_char_i "s")); StrI "://"; StrI dom;
       Star (Char non_space)].

Fixpoint mask_links (doms : list string) (mask_token processed : string)
    : except string :=
  match doms with
  | [] => Ok processed
  | dom :: rest =>
      processed' ← of_re (sub_tree (link_tree dom) mask_token processed);
      mask_links rest mask_token processed'
  end.

Definition Output_Sanitizer_evaluate_prompt (self : Output_Sanitizer)
    (text : string) : except PolicyResult :=
  let original := text in
  let processed := text in
  processed ← of_re (sub (os_phone_regex self) (os_mask_token self) processed);
  processed ← of_re (sub (os_email_regex self) (os_mask_token self) processed);
  processed ← mask_links (os_disallowed self) (os_mask_token self) processed;
  if negb (String.eqb processed original)
  then Ok (verdict_with "MASK" "Output sanitized (PII or unsafe links)." processed)
  else Ok (verdict "PASS" "Output clean.").

#[global] Instance Output_Sanitizer_policy : PromptPolicy Output_Sanitizer := {
  name _ := "Output_Sanitizer";
  evaluate_prompt := Output_Sanitizer_evaluate_prompt
}.

(** ** POLICY_MAP *)

(** An instance of one of the registered classes. *)
Inductive policy : Type :=
| PII (p : PII_Scrubber)
| Jailbreak (p : Jailbreak_Detector)
| Semantic (p : Semantic_Threat_Detector)
| Sanitizer (p : Output_Sanitizer).

#[global] Instance policy_policy : PromptPolicy policy := {
  name p :=
    match p with
    | PII q => name q
    | Jailbreak q => name q
    | Semantic q => name q
    | Sanitizer q => name q
    end;
  evaluate_prompt p :=
    match p with
    | PII q => evaluate_prompt q
    | Jailbreak q => evaluate_prompt q
    | Semantic q => evaluate_prompt q
    | Sanitizer q => evaluate_prompt q
    end
}.

Definition policy_cls : Type := policy_config -> except policy.

Definition POLICY_MAP : gmap string policy_cls :=
  {[ "PII_Scrubber" := (fun cfg => PII <$> PII_Scrubber_init cfg);
     "Jailbreak_Detector" := (fun cfg => Jailbreak <$> Jailbreak_Detector_init cfg);
     "Semantic_Threat_Detector" :=
       (fun cfg => Semantic <$> Semantic_Threat_Detector_init cfg);
     "Output_Sanitizer" := (fun cfg => Sanitizer <$> Output_Sanitizer_init cfg) ]}.

(* ================================================================== *)
(** * backend.py *)

(** One item of a policy set: [item.get("type")] and the [config] key. *)
Record entry : Type := {
  entry_type : option string;
  entry_config : option policy_config
}.

(** [POLICY_MAP.get(policy_type)]; no key of the map is [None]. *)
Definition lookup_cls (policy_type : option string) : option policy_cls :=
  match policy_type with
  | Some tag => POLICY_MAP !! tag
  | None => None
  end.

(** [%s] applied to the type tag *)
Definition show_type (policy_type : option string) : string :=
  default "None" policy_type.

Definition unknown_warning (policy_type : option string) : log_record :=
  (WARNING, "Unknown policy type '" +:+ show_type policy_type +:+ "' skipped.").

Definition loaded_info (instance : policy) : log_record :=
  (INFO, "Loaded policy: " +:+ name instance).

(** The [for item in config_list] loop of [_load_policies], with the chain
    and the log built so far. *)
Fixpoint load_loop (config_list : list entry) (policy_chain : list policy)
    (log : list log_record) : list log_record * except (list policy) :=
  match config_list with
  | [] => (log, Ok policy_chain)
  | item :: rest =>
      let policy_type := entry_type item in
      let policy_config := default empty_config (entry_config item) in
      match lookup_cls policy_type with
      | None => load_loop rest policy_chain (log ++ [unknown_warning policy_type])
      | Some policy_cls =>
          match policy_cls policy_config with
          | Raise e => (log, Raise e)
          | Ok instance =>
              load_loop rest (policy_chain ++ [instance])
                (log ++ [loaded_info instance])
          end
      end
  end.

Definition not_found (policy_name : string) : exn :=
  ValueError ("Policy set '" +:+ policy_name +:+ "' not found in configuration.").

Definition no_valid_policies (policy_name : string) : exn :=
  ValueError ("No valid policies loaded for policy set '" +:+ policy_name +:+ "'.").

Definition _load_policies (policy_name : string)
    (policy_config_data : gmap string (list entry))
    : list log_record * except (list policy) :=
  match policy_config_data !! policy_name with
  | None | Some [] => ([], Raise (not_found policy_name))
  | Some config_list =>
      match load_loop config_list [] [] with
      | (log, Ok []) => (log, Raise (no_valid_policies policy_name))
      | (log, r) => (log, r)
      end
  end.

Record LLM_Safety_Gateway : Type := {
  policy_name : string;
  policy_chain : list policy
}.

(** [LLM_Safety_Gateway.__init__] *)
Definition LLM_Safety_Gateway_init (policy_name : string)
    (policy_config_data : gmap string (list entry))
    : list log_record * except LLM_Safety_Gateway :=
  match _load_policies policy_name policy_config_data with
  | (log, r) =>
      (log, chain ← r; Ok {| policy_name := policy_name; policy_chain := chain |})
  end.

Record AuditEntry : Type := {
  audit_policy : string;
  audit_status : string;
  audit_details : string
}.

(** The dictionary [process_prompt] returns.  The two timing keys the
    endpoints add afterwards are perf_counter readings and are left out. *)
Record GatewayResult : Type := {
  status : string;
  original_text : string;
  processed_text : option string;
  audit_log : list AuditEntry;
  final_reason : string
}.

(** The local variables of [process_prompt] that the loop updates. *)
Record loop_state : Type := {
  current_text : string;
  log_so_far : list AuditEntry;
  final_status : string
}.

Inductive flow : Type :=
| Continue (st : loop_state)
| Return (r : GatewayResult)
| Raised (e : exn).

(** Truth value of [result.get("processed_prompt")]. *)
Definition truthy_opt (o : option string) : bool :=
  match o with Some s => truthy s | None => false end.

Section Gateway.
Context {P : Type} `{PromptPolicy P}.

(** One iteration of the loop of [process_prompt]. *)
Definition loop_body (text : string) (st : loop_state) (p : P) : flow :=
  match evaluate_prompt p (current_text st) with
  | Raise e => Raised e
  | Ok result =>
      let status := default "PASS" (res_status result) in
      let details := default "" (res_details result) in
      let audit_log :=
        log_so_far st ++
        [{| audit_policy := name p; audit_status := status;
            audit_details := details |}] in
      if String.eqb status "BLOCK" then
        Return {| status := "BLOCK"; original_text := text;
                  processed_text := None; audit_log := audit_log;
                  final_reason := details |}
      else if String.eqb status "MASK" || String.eqb status "REWRITE" then
        let processed := res_processed_prompt result in
        let current_text :=
          if truthy_opt processed then default "" processed
          else current_text st in
        Continue {| current_text := current_text; log_so_far := audit_log;
                    final_status := status |}
      else
        Continue {| current_text := current_text st; log_so_far := audit_log;
                    final_status := final_status st |}
  end.

Fixpoint run_chain (text : string) (chain : list P) (st : loop_state)
    : except GatewayResult :=
  match chain with
  | [] =>
      Ok {| status := final_status st; original_text := text;
            processed_text := Some (current_text st);
            audit_log := log_so_far st;
            final_reason := "Policy chain executed successfully." |}
  | p :: rest =>
      match loop_body text st p with
      | Continue st' => run_chain text rest st'
      | Return r => Ok r
      | Raised e => Raise e
      end
  end.

Definition initial_state (text : string) : loop_state :=
  {| current_text := text; log_so_far := []; final_status := "PASS" |}.

(** [process_prompt] over the chain of a gateway. *)
Definition process_chain (chain : list P) (text : string) : except GatewayResult :=
  run_chain text chain (initial_state text).

End Gateway.

Definition process_prompt (self : LLM_Safety_Gateway) (text : string)
    : except GatewayResult :=
  process_chain (policy_chain self) text.

(** ** Custom keyword firewall *)

Record Keyword_Blocker : Type := {
  kb_name : string;
  kb_keywords : list string
}.

Definition Keyword_Blocker_init (keywords : list string) : Keyword_Blocker :=
  let k := map (fun x => lower (strip x))
               (filter (fun x => truthy (strip x) = true) keywords) in
  {| kb_name := "Keyword_Blocker"; kb_keywords := k |}.

Definition Keyword_Blocker_evaluate_prompt (self : Keyword_Blocker) (text : string)
    : string * string :=
  let t := lower text in
  match first_keyword (kb_keywords self) t with
  | Some kw => ("BLOCK", "Matched custom keyword: '" +:+ kw +:+ "'")
  | None => ("PASS", "No keyword match.")
  end.

Record CustomPolicyRequest : Type := {
  req_text : string;
  req_keywords : list string
}.

Definition process_text_custom (request : CustomPolicyRequest) : GatewayResult :=
  let blocker := Keyword_Blocker_init (req_keywords request) in
  let result := Keyword_Blocker_evaluate_prompt blocker (req_text request) in
  let blocked := String.eqb (fst result) "BLOCK" in
  let processed := if blocked then None else Some (req_text request) in
  {| status := fst result;
     original_text := req_text request;
     processed_text := processed;
     audit_log := [{| audit_policy := "Keyword_Blocker";
                      audit_status := fst result;
                      audit_details := snd result |}];
     final_reason := snd result |}.

(** ** The [/process_text] endpoint *)

(** [GatewayRequest], after pydantic has filled in the default name. *)
Record GatewayRequest : Type := {
  request_text : string;
  request_policy_name : string
}.

Definition GatewayRequest_of (text : string) (policy_name : option string)
    : GatewayRequest :=
  {| request_text := text;
     request_policy_name := default "Enterprise_input" policy_name |}.

(** [str(e)] for the exceptions of the model. *)
Definition exn_str (e : exn) : string :=
  match e with
  | ValueError msg => msg
  | ReError msg => msg
  | IndexError msg => msg
  | TypeError msg => msg
  end.

(** What a call of the endpoint ends in: the response model built from the
    result (without the timing keys), an [HTTPException], or an exception
    nothing catches. *)
Inductive outcome : Type :=
| Responded (r : GatewayResult)
| HTTPException (status_code : nat) (detail : string)
| Unhandled (e : exn).

Definition process_text_endpoint (policy_config_data : gmap string (list entry))
    (request : GatewayRequest) : outcome :=
  match policy_config_data !! request_policy_name request with
  | None =>
      HTTPException 400
        ("Policy set '" +:+ request_policy_name request +:+ "' not found.")
  | Some _ =>
      match snd (LLM_Safety_Gateway_init (request_policy_name request)
                   policy_config_data) with
      | Raise e => HTTPException 500 ("Policy initialization error: " +:+ exn_str e)
      | Ok gateway =>
          match process_prompt gateway (request_text request) with
          | Ok result => Responded result
          | Raise e => Unhandled e
          end
      end
  end.

(* ================================================================== *)
(** * Attributes the constructors do not check *)

(** [PII_Scrubber] and [Output_Sanitizer] keep [mask_token] and
    [disallowed_domains] as [policy_config.get] returns them;
    [evaluate_prompt] is the first to use them.  Here the two classes are
    modelled with these attributes holding any value the configuration may
    give: [None], a boolean, an integer, a string, or a list of such
    values.  The records of the typed part are the objects in which both
    attributes have the type [evaluate_prompt] expects. *)
#[warnings="-register-all"]
Inductive value : Type :=
| VNone
| VBool (b : bool)
| VInt (n : Z)
| VStr (s : string)
| VList (items : list value).

(** [type(v).__name__] *)
Definition type_name (v : value) : string :=
  match v with
  | VNone => "NoneType"
  | VBool _ => "bool"
  | VInt _ => "int"
  | VStr _ => "str"
  | VList _ => "list"
  end.

(** The message of the [TypeError] for a value that is neither a string
    nor bytes where [re] needs one. *)
Definition not_bytes_like (v : value) : string :=
  "decoding to str: need a bytes-like object, " +:+ type_name v +:+ " found".

Module Unchecked.

Record policy_config : Type := {
  cfg_mask_token : option value;
  cfg_keywords : option (list string);
  cfg_phone_pattern : option Re.source;
  cfg_email_pattern : option Re.source;
  cfg_disallowed_domains : option value
}.

(** [re.sub] with the template [repl]: a string is parsed as a template;
    for any other value [re] raises before it looks at the text. *)
Definition sub_with (r : regex) (repl : value) (text : string) : except string :=
  match repl with
  | VStr tok => of_re (sub_tree r tok text)
  | VList _ => Raise (TypeError "unhashable type: 'list'")
  | VNone | VBool _ | VInt _ => Raise (TypeError (not_bytes_like repl))
  end.

(** ** PII_Scrubber *)

Record PII_Scrubber : Type := {
  pii_email_regex : Pattern;
  pii_mask_token : value
}.

Definition PII_Scrubber_init (cfg : policy_config) : except PII_Scrubber :=
  Ok {| pii_email_regex :=
          {| pattern := src_text email_source; tree := email_tree |};
        pii_mask_token := default (VStr "[EMAIL_MASKED]") (cfg_mask_token cfg) |}.

Definition PII_Scrubber_evaluate_prompt (self : PII_Scrubber) (text : string)
    : except PolicyResult :=
  masked ← sub_with (tree (pii_email_regex self)) (pii_mask_token self) text;
  if negb (String.eqb masked text)
  then Ok (verdict_with "MASK" "PII (email) masked." masked)
  else Ok (verdict "PASS" "No PII found.").

#[global] Instance PII_Scrubber_policy : PromptPolicy PII_Scrubber := {
  name _ := "PII_Scrubber";
  evaluate_prompt := PII_Scrubber_evaluate_prompt
}.

(** ** Output_Sanitizer *)

Record Output_Sanitizer : Type := {
  os_phone_regex : Pattern;
  os_email_regex : Pattern;
  os_mask_token : value;
  os_disallowed : value
}.

Definition Output_Sanitizer_init (cfg : policy_config) : except Output_Sanitizer :=
  let phone := default phone_source (cfg_phone_pattern cfg) in
  let email := default email_source (cfg_email_pattern cfg) in
  phone_regex ← compile_or_raise phone;
  email_regex ← compile_or_raise email;
  Ok {| os_phone_regex := phone_regex;
        os_email_regex := email_regex;
        os_mask_token := default (VStr "[REDACTED]") (cfg_mask_token cfg);
        os_disallowed :=
          default (VList [VStr "pastebin.com"; VStr "anonfiles.com"])
                  (cfg_disallowed_domains cfg) |}.

(** [for dom in self.disallowed]: a list gives its items and a string
    its characters; nothing else here can be iterated. *)
Definition iterate (v : value) : except (list value) :=
  match v with
  | VList items => Ok items
  | VStr s => Ok (map (fun c => VStr (String c EmptyString)) (list_ascii_of_string s))
  | VNone | VBool _ | VInt _ =>
      Raise (TypeError ("'" +:+ type_name v +:+ "' object is not iterable"))
  end.

(** The body of the loop: [re.escape(dom)] raises for what is not a
    string, before [re.sub] is called. *)
Fixpoint mask_links (doms : list value) (mask_token : value) (processed : string)
    : except string :=
  match doms with
  | [] => Ok processed
  | VStr dom :: rest =>
      processed' ← sub_with (link_tree dom) mask_token processed;
      mask_links rest mask_token processed'
  | (VNone | VBool _ | VInt _ | VList _) as dom :: _ =>
      Raise (TypeError (not_bytes_like dom))
  end.

Definition Output_Sanitizer_evaluate_prompt (self : Output_Sanitizer)
    (text : string) : except PolicyResult :=
  let original := text in
  let processed := text in
  processed ← sub_with (tree (os_phone_regex self)) (os_mask_token self) processed;
  processed ← sub_with (tree (os_email_regex self)) (os_mask_token self) processed;
  doms ← iterate (os_disallowed self);
  processed ← mask_links doms (os_mask_token self) processed;
  if negb (String.eqb processed original)
  then Ok (verdict_with "MASK" "Output sanitized (PII or unsafe links)." processed)
  else Ok (verdict "PASS" "Output clean.").

#[global] Instance Output_Sanitizer_policy : PromptPolicy Output_Sanitizer := {
  name _ := "Output_Sanitizer";
  evaluate_prompt := Output_Sanitizer_evaluate_prompt
}.

(** ** The four classes *)

Inductive policy : Type :=
| PII (p : PII_Scrubber)
| Jailbreak (p : Jailbreak_Detector)
| Semantic (p : Semantic_Threat_Detector)
| Sanitizer (p : Output_Sanitizer).

#[global] Instance policy_policy : PromptPolicy policy := {
  name p :=
    match p with
    | PII q => name q
    | Jailbreak q => name q
    | Semantic q => name q
    | Sanitizer q => name q
    end;
  evaluate_prompt p :=
    match p with
    | PII q => evaluate_prompt q
    | Jailbreak q => evaluate_prompt q
    | Semantic q => evaluate_prompt q
    | Sanitizer q => evaluate_prompt q
    end
}.

End Unchecked.

(** A typed object seen as one with unchecked attributes. *)
Definition unchecked (p : policy) : Unchecked.policy :=
  match p with
  | PII q =>
      Unchecked.PII {| Unchecked.pii_email_regex := pii_email_regex q;
                       Unchecked.pii_mask_token := VStr (pii_mask_token q) |}
  | Jailbreak q => Unchecked.Jailbreak q
  | Semantic q => Unchecked.Semantic q
  | Sanitizer q =>
      Unchecked.Sanitizer
        {| Unchecked.os_phone_regex := os_phone_regex q;
           Unchecked.os_email_regex := os_email_regex q;
           Unchecked.os_mask_token := VStr (os_mask_token q);
           Unchecked.os_disallowed := VList (map VStr (os_disallowed q)) |}
  end.

(* ================================================================== *)
(** * Notions used to state the properties *)

Local Close Scope N_scope.

(** The status [process_prompt] would report for an audit log read on its
    own: the status of the last entry that is MASK or REWRITE, PASS when
    there is none. *)
Definition is_mask_or_rewrite (s : string) : bool :=
  String.eqb s "MASK" || String.eqb s "REWRITE".

Definition last_mask_or_rewrite (log : list AuditEntry) : string :=
  fold_left
    (fun acc e => if is_mask_or_rewrite (audit_status e) then audit_status e else acc)
    log "PASS".

Definition non_block (e : AuditEntry) : Prop := audit_status e <> "BLOCK".


(** The audit entry the gateway writes for a result of policy [p]. *)
Definition entry_of {P : Type} `{PromptPolicy P} (p : P) (res : PolicyResult)
    : AuditEntry :=
  {| audit_policy := name p;
     audit_status := default "PASS" (res_status res);
     audit_details := default "" (res_details res) |}.

(** The entry [e] is the one written for some result of policy [p]. *)
Definition written_by {P : Type} `{PromptPolicy P} (e : AuditEntry) (p : P) : Prop :=
  exists t res, evaluate_prompt p t = Ok res /\ e = entry_of p res.

(** What the chain builder makes of one configured item: nothing when the
    type tag is not registered, otherwise the outcome of the constructor. *)
Definition known (item : entry) : bool :=
  match lookup_cls (entry_type item) with Some _ => true | None => false end.

Definition resolve (item : entry) : option (except policy) :=
  match lookup_cls (entry_type item) with
  | Some policy_cls => Some (policy_cls (default empty_config (entry_config item)))
  | None => None
  end.

(** The outcomes for the items whose type is registered, in order. *)
Fixpoint resolve_all (config_list : list entry) : list (except policy) :=
  match config_list with
  | [] => []
  | item :: rest =>
      match resolve item with
      | Some r => r :: resolve_all rest
      | None => resolve_all rest
      end
  end.

(** The instances in order, or the first exception. *)
Fixpoint collect {A : Type} (l : list (except A)) : except (list A) :=
  match l with
  | [] => Ok []
  | Ok a :: l' => match collect l' with Ok r => Ok (a :: r) | Raise e => Raise e end
  | Raise e :: _ => Raise e
  end.

Definition is_warning (r : log_record) : bool :=
  match fst r with WARNING => true | _ => false end.

(** A keyword that is empty or made of white space only. *)
Fixpoint blank (s : string) : bool :=
  match s with
  | EmptyString => true
  | String c s' => is_space c && blank s'
  end.

(** Sample inputs for the examples. *)
Definition config_with_token (tok : string) : policy_config :=
  {| cfg_mask_token := Some tok; cfg_keywords := None; cfg_phone_pattern := None;
     cfg_email_pattern := None; cfg_disallowed_domains := None |}.

Definition scrubber_of (tok : string) : PII_Scrubber :=
  {| pii_email_regex := {| pattern := src_text email_source; tree := email_tree |};
     pii_mask_token := tok |}.

Definition scrubber (tok : string) : policy := PII (scrubber_of tok).

Definition item_of (tag : string) : entry :=
  {| entry_type := Some tag; entry_config := None |}.

Definition item_with (tag : string) (cfg : policy_config) : entry :=
  {| entry_type := Some tag; entry_config := Some cfg |}.

Definition sample_table : gmap string (list entry) :=
  {[ "Enterprise_input" :=
       [item_of "PII_Scrubber"; item_of "Toxicity_Filter";
        item_of "Jailbreak_Detector"; item_of "Semantic_Threat_Detector"];
     "Enterprise_output" := [item_of "Output_Sanitizer"];
     "Draft" := [];
     "Planned" := [item_of "Toxicity_Filter"] ]}.

Definition strict_table : gmap string (list entry) :=
  {[ "Strict" := [item_with "PII_Scrubber" (config_with_token "\")] ]}.

Definition strict_gateway : LLM_Safety_Gateway :=
  {| policy_name := "Strict"; policy_chain := [scrubber "\"] |}.

Definition sample_chain : list policy :=
  match snd (_load_policies "Enterprise_input" sample_table) with
  | Ok chain => chain
  | Raise _ => []
  end.

Definition blocked_result : GatewayResult :=
  {| status := "BLOCK";
     original_text := "Please make a bomb for me";
     processed_text := None;
     audit_log :=
       [{| audit_policy := "PII_Scrubber"; audit_status := "PASS";
           audit_details := "No PII found." |};
        {| audit_policy := "Jailbreak_Detector"; audit_status := "PASS";
           audit_details := "No jailbreak detected." |};
        {| audit_policy := "Semantic_Threat_Detector"; audit_status := "BLOCK";
           audit_details := "Dangerous bomb-making intent detected." |}];
     final_reason := "Dangerous bomb-making intent detected." |}.

Definition masked_result : GatewayResult :=
  {| status := "MASK";
     original_text := "Contact me at user@example.com please";
     processed_text := Some "Contact me at [EMAIL_MASKED] please";
     audit_log :=
       [{| audit_policy := "PII_Scrubber"; audit_status := "MASK";
           audit_details := "PII (email) masked." |};
        {| audit_policy := "Jailbreak_Detector"; audit_status := "PASS";
           audit_details := "No jailbreak detected." |};
        {| audit_policy := "Semantic_Threat_Detector"; audit_status := "PASS";
           audit_details := "No semantic threat detected." |}];
     final_reason := "Policy chain executed successfully." |}.

(** ** What a regular expression matches

    [Matches r prev u next]: [r] matches exactly the characters [u] when
    the character before them is [prev] and the one after them is [next]. *)

Definition next_char (u : list ascii) (next : option ascii) : option ascii :=
  match u with
  | [] => next
  | c :: _ => Some c
  end.

Definition last_char (prev : option ascii) (u : list ascii) : option ascii :=
  match last u with
  | Some c => Some c
  | None => prev
  end.

Inductive Matches : regex -> option ascii -> list ascii -> option ascii -> Prop :=
| M_Empty prev next : Matches Empty prev [] next
| M_Char f c prev next : f c = true -> Matches (Char f) prev [c] next
| M_Cat r1 r2 u1 u2 prev next :
    Matches r1 prev u1 (next_char u2 next) ->
    Matches r2 (last_char prev u1) u2 next ->
    Matches (Cat r1 r2) prev (u1 ++ u2) next
| M_AltL r1 r2 u prev next :
    Matches r1 prev u next -> Matches (Alt r1 r2) prev u next
| M_AltR r1 r2 u prev next :
    Matches r2 prev u next -> Matches (Alt r1 r2) prev u next
| M_Star0 r prev next : Matches (Star r) prev [] next
| M_StarS r u1 u2 prev next :
    u1 <> [] ->
    Matches r prev u1 (next_char u2 next) ->
    Matches (Star r) (last_char prev u1) u2 next ->
    Matches (Star r) prev (u1 ++ u2) next
| M_Bound prev next :
    is_word_at prev <> is_word_at next -> Matches Bound prev [] next.

(** The matcher finds every match: whenever [r] matches a prefix after
    which [k] accepts, [match_re] returns. *)
Definition complete_for (r : regex) : Prop :=
  forall prev u next, Matches r prev u next ->
  forall rest (k : cont) x,
    next = head rest -> k (last_char prev u) rest = Some x ->
    exists y, match_re r prev (u ++ rest) k = Some y.

(** What the matcher returns comes from a match that [k] accepted. *)
Definition sound_for (r : regex) : Prop :=
  forall prev s (k : cont) x,
    match_re r prev s k = Some x ->
    exists u rest,
      s = u ++ rest /\ Matches r prev u (head rest)
      /\ k (last_char prev u) rest = Some x.

(** Every character class of [r] lies inside [S]. *)
Fixpoint classes_within (S : ascii -> bool) (r : regex) : Prop :=
  match r with
  | Empty | Bound => True
  | Char f => forall c, f c = true -> S c = true
  | Cat r1 r2 | Alt r1 r2 => classes_within S r1 /\ classes_within S r2
  | Star r1 => classes_within S r1
  end.

(** [r] has no word-boundary assertion. *)
Fixpoint bound_free (r : regex) : Prop :=
  match r with
  | Empty | Char _ => True
  | Bound => False
  | Cat r1 r2 | Alt r1 r2 => bound_free r1 /\ bound_free r2
  | Star r1 => bound_free r1
  end.

(** ** The words of the compound rule *)

Definition chars (s : string) : list ascii := list_ascii_of_string s.

(** The text contains "bomb", in any case, with no word character on
    either side. *)
Definition has_standalone_bomb (text : string) : Prop :=
  exists a w b,
    text = a +:+ w +:+ b /\ lower w = "bomb"
    /\ is_word_at (last (chars a)) = false
    /\ is_word_at (head (chars b)) = false.

(** The text contains one of the creation verbs, in any case, anywhere. *)
Definition has_creation_verb (text : string) : Prop :=
  exists a v b, text = a +:+ v +:+ b /\ lower v ∈ creation_verbs.

(** ** The scrubber's substitution *)

(** The first line of [PII_Scrubber.evaluate_prompt]. *)
Definition redact (self : PII_Scrubber) (text : string) : Re.error + string :=
  sub (pii_email_regex self) (pii_mask_token self) text.

(** The characters an address can be made of. *)
Definition email_char (c : ascii) : bool := email_local c || eq_char "@" c.

Definition plain_char (c : ascii) : bool :=
  negb (eq_char "@" c) && negb (eq_char bslash c).

(** A mask token that cannot become part of an address: it is not empty,
    its first and its last character cannot occur in an address, and it has
    no [@] and no backslash. *)
Definition inert_token (tok : string) : bool :=
  match chars tok with
  | [] => false
  | x :: _ => negb (email_char x)
  end
  && match last (chars tok) with
     | Some z => negb (email_char z)
     | None => false
     end
  && forallb plain_char (chars tok).

(** Some part of [out] is an address. *)
Definition has_address (out : list ascii) : Prop :=
  exists a u b, out = a ++ u ++ b /\ Matches email_tree None u None.

(** ** Attributes with which [evaluate_prompt] returns *)

(** A replacement template that [re] accepts. *)
Definition accepted_template (tok : string) : Prop :=
  exists t, parse_template (chars tok) = inr t.

(** A list of strings, or a string. *)
Definition string_items (v : value) : Prop :=
  (exists doms : list string, v = VList (map VStr doms)) \/ (exists s, v = VStr s).

(** The mask token is a string that is an accepted template, and the
    disallowed domains are a list of strings or a string. *)
Definition attributes_ok (p : Unchecked.policy) : Prop :=
  match p with
  | Unchecked.PII q =>
      exists tok, Unchecked.pii_mask_token q = VStr tok /\ accepted_template tok
  | Unchecked.Sanitizer q =>
      (exists tok, Unchecked.os_mask_token q = VStr tok /\ accepted_template tok)
      /\ string_items (Unchecked.os_disallowed q)
  | Unchecked.Jailbreak _ | Unchecked.Semantic _ => True
  end.

(** The configuration in which the key [disallowed_domains] is written
    with nothing after the colon, and the object constructed from it. *)
Definition no_domains_config : Unchecked.policy_config :=
  {| Unchecked.cfg_mask_token := None; Unchecked.cfg_keywords := None;
     Unchecked.cfg_phone_pattern := None; Unchecked.cfg_email_pattern := None;
     Unchecked.cfg_disallowed_domains := Some VNone |}.

Definition no_domains_sanitizer : Unchecked.Output_Sanitizer :=
  {| Unchecked.os_phone_regex :=
       {| pattern := src_text phone_source; tree := phone_tree |};
     Unchecked.os_email_regex :=
       {| pattern := src_text email_source; tree := email_tree |};
     Unchecked.os_mask_token := VStr "[REDACTED]";
     Unchecked.os_disallowed := VNone |}.

Definition statuses : list string := ["PASS"; "MASK"; "REWRITE"; "BLOCK"].

(** Case analysis over the 256 characters. *)
Ltac by_char c :=
  destruct c as [[] [] [] [] [] [] [] []]; vm_compute;
  let H := fresh in intros H; try reflexivity; discriminate H.

(** ** Further notions *)

(** [kw] occurs in [t] as a substring. *)
Definition occurs_in (kw t : string) : Prop := exists a b, t = a +:+ kw +:+ b.

(** The log record [_load_policies] writes for an item that does not make
    it raise. *)
Definition record_of (item : entry) : log_record :=
  match entry_type item with
  | Some tag => if known item then (INFO, "Loaded policy: " +:+ tag)
                else unknown_warning (Some tag)
  | None => unknown_warning None
  end.

(** An [Output_Sanitizer] item one of whose patterns does not compile. *)
Definition bad_pattern_item (item : entry) : Prop :=
  entry_type item = Some "Output_Sanitizer"
  /\ let cfg := default empty_config (entry_config item) in
     compile (default phone_source (cfg_phone_pattern cfg)) = None
     \/ compile (default email_source (cfg_email_pattern cfg)) = None.

(** Policies after which a text without addresses has none: a scrubber or
    a sanitizer that looks for addresses with the built-in pattern and
    masks with an inert token, a detector with the built-in rewrite
    template, and any jailbreak detector. *)
Definition default_template : string :=
  "This query was rewritten to focus only on defensive cybersecurity. "
  +:+ "Explain best practices without attack steps: ".

Definition address_safe (p : policy) : Prop :=
  match p with
  | PII q => tree (pii_email_regex q) = email_tree
             /\ inert_token (pii_mask_token q) = true
  | Jailbreak _ => True
  | Semantic q => rewrite_template q = default_template
  | Sanitizer q => tree (os_email_regex q) = email_tree
                   /\ inert_token (os_mask_token q) = true
  end.

(** A policy that removes the addresses there are. *)
Definition removes_addresses (p : policy) : Prop :=
  match p with
  | PII _ | Sanitizer _ => True
  | Jailbreak _ | Semantic _ => False
  end.

Definition sanitizer_with (patterns : option source) : entry :=
  item_with "Output_Sanitizer"
    {| cfg_mask_token := None; cfg_keywords := None;
       cfg_phone_pattern := patterns; cfg_email_pattern := None;
       cfg_disallowed_domains := None |}.

(** Results used in the examples. *)
Definition passed_result : GatewayResult :=
  {| status := "PASS";
     original_text := "What's the weather today?";
     processed_text := Some "What's the weather today?";
     audit_log :=
       [{| audit_policy := "PII_Scrubber"; audit_status := "PASS";
           audit_details := "No PII found." |};
        {| audit_policy := "Jailbreak_Detector"; audit_status := "PASS";
           audit_details := "No jailbreak detected." |};
        {| audit_policy := "Semantic_Threat_Detector"; audit_status := "PASS";
           audit_details := "No semantic threat detected." |}];
     final_reason := "Policy chain executed successfully." |}.

Definition scrubbed_result : GatewayResult :=
  {| status := "MASK";
     original_text := "Contact me at user@example.com please";
     processed_text := Some "Contact me at [EMAIL_MASKED] please";
     audit_log :=
       [{| audit_policy := "PII_Scrubber"; audit_status := "MASK";
           audit_details := "PII (email) masked." |}];
     final_reason := "Policy chain executed successfully." |}.

Definition config_with_keywords (keywords : list string) : policy_config :=
  {| cfg_mask_token := None; cfg_keywords := Some keywords;
     cfg_phone_pattern := None; cfg_email_pattern := None;
     cfg_disallowed_domains := None |}.

(** [Woven tok s out]: [out] is [s] with some stretches replaced by [tok]
    and, possibly, further copies of [tok] put in. *)
Inductive Woven (tok : list ascii) : list ascii -> list ascii -> Prop :=
| W_nil : Woven tok [] []
| W_copy c s out : Woven tok s out -> Woven tok (c :: s) (c :: out)
| W_token dropped s out :
    Woven tok s out -> Woven tok (dropped ++ s) (tok ++ out).

(** The text the gateway goes on with after a policy returned [res] on
    the text [t]. *)
Definition next_text (res : PolicyResult) (t : string) : string :=
  if is_mask_or_rewrite (default "PASS" (res_status res))
     && truthy_opt (res_processed_prompt res)
  then default "" (res_processed_prompt res) else t.

(** The source of the second block pattern of the detector. *)
Definition how_to_bomb_source : string :=
  "\bhow to (make|build|create|manufacture)\s+(a|the)?\s*bomb\b".

(** What the detector writes as details when a block pattern is found. *)
Definition threat_details (source : string) : string :=
  "Semantic threat detected (pattern: '" +:+ source +:+ "')".

(* ================================================================== *)
(** * Properties of the gateway loop *)

Section GatewayFacts.
Context {P : Type} `{PromptPolicy P}.

Lemma loop_body_cases (text : string) (st : loop_state) (p : P) :
  match loop_body text st p with
  | Raised e => evaluate_prompt p (current_text st) = Raise e
  | Return r =>
      exists res, evaluate_prompt p (current_text st) = Ok res
        /\ audit_status (entry_of p res) = "BLOCK"
        /\ r = {| status := "BLOCK"; original_text := text;
                  processed_text := None;
                  audit_log := log_so_far st ++ [entry_of p res];
                  final_reason := audit_details (entry_of p res) |}
  | Continue st' =>
      exists res, evaluate_prompt p (current_text st) = Ok res
        /\ audit_status (entry_of p res) <> "BLOCK"
        /\ log_so_far st' = log_so_far st ++ [entry_of p res]
        /\ final_status st' =
             (if is_mask_or_rewrite (audit_status (entry_of p res))
              then audit_status (entry_of p res) else final_status st)
        /\ current_text st' =
             (if is_mask_or_rewrite (audit_status (entry_of p res))
                 && truthy_opt (res_processed_prompt res)
              then default "" (res_processed_prompt res) else current_text st)
  end.
Proof.
  unfold loop_body.
  destruct (evaluate_prompt p (current_text st)) as [res|e]; [|reflexivity].
  destruct (String.eqb (default "PASS" (res_status res)) "BLOCK") eqn:Hb.
  - apply String.eqb_eq in Hb. exists res. unfold entry_of. simpl. rewrite Hb. auto.
  - apply String.eqb_neq in Hb. unfold entry_of. cbn [audit_status audit_details].
    fold (is_mask_or_rewrite (default "PASS" (res_status res))).
    destruct (is_mask_or_rewrite (default "PASS" (res_status res))) eqn:Hm;
      exists res; simpl; rewrite ?Hm; auto.
Qed.

Lemma mask_or_rewrite_not_block (s : string) :
  is_mask_or_rewrite s = true -> s <> "BLOCK".
Proof.
  unfold is_mask_or_rewrite. intros Hs ->. discriminate Hs.
Qed.

(** The recorded status is never BLOCK while the loop is running. *)
Lemma continue_not_block (text : string) (st st' : loop_state) (p : P) :
  loop_body text st p = Continue st' ->
  final_status st <> "BLOCK" -> final_status st' <> "BLOCK".
Proof.
  intros Hl Hst. pose proof (loop_body_cases text st p) as Hc.
  rewrite Hl in Hc. destruct Hc as (res & _ & Hnb & _ & Hf & _).
  rewrite Hf. destruct (is_mask_or_rewrite _); assumption.
Qed.

Lemma run_chain_block_iff (text : string) (chain : list P) :
  forall st r,
    run_chain text chain st = Ok r ->
    final_status st <> "BLOCK" ->
    (processed_text r = None <-> status r = "BLOCK").
Proof.
  induction chain as [|p rest IH]; intros st r Hr Hst; simpl in Hr.
  - inversion Hr; subst; simpl. split; [discriminate | contradiction].
  - pose proof (loop_body_cases text st p) as Hc.
    destruct (loop_body text st p) as [st'|r'|e] eqn:Hl.
    + apply (IH st' r Hr). eapply continue_not_block; eauto.
    + inversion Hr; subst r'. destruct Hc as (res & _ & _ & ->). simpl. tauto.
    + discriminate.
Qed.

(** C2. For every chain and every text, the result the gateway returns
    has no processed text exactly when its status is BLOCK; on every other
    outcome a processed text is present. *)
Theorem processed_text_none_iff_block (chain : list P) (text : string)
    (r : GatewayResult) :
  process_chain chain text = Ok r ->
  (processed_text r = None <-> status r = "BLOCK")
  /\ (status r <> "BLOCK" -> exists t, processed_text r = Some t).
Proof.
  intros Hr.
  assert (Hiff : processed_text r = None <-> status r = "BLOCK").
  { apply (run_chain_block_iff text chain (initial_state text) r Hr).
    simpl. discriminate. }
  split; [exact Hiff|].
  intros Hnb. destruct (processed_text r) as [t|] eqn:Ht; [eauto|].
  exfalso. apply Hnb, Hiff. reflexivity.
Qed.


(** C1, amended.  When a policy returns MASK or REWRITE, the gateway
    records that status whatever the processed text is; the processed text
    becomes the current text when it is non-empty, and the current text is
    kept when it is absent or empty.  When a policy returns PASS, the
    recorded status and the current text are both left as they were. *)
Theorem mask_or_rewrite_step (text : string) (st : loop_state) (p : P)
    (res : PolicyResult) :
  evaluate_prompt p (current_text st) = Ok res ->
  let s := default "PASS" (res_status res) in
  (s = "MASK" \/ s = "REWRITE" ->
     exists st', loop_body text st p = Continue st'
       /\ final_status st' = s
       /\ (forall t, res_processed_prompt res = Some t -> t <> "" ->
              current_text st' = t)
       /\ (res_processed_prompt res = None \/ res_processed_prompt res = Some "" ->
              current_text st' = current_text st))
  /\ (s = "PASS" ->
       exists st', loop_body text st p = Continue st'
         /\ final_status st' = final_status st
         /\ current_text st' = current_text st).
Proof.
  intros He s. pose proof (loop_body_cases text st p) as Hc.
  assert (Hs : audit_status (entry_of p res) = s) by reflexivity.
  split.
  - intros Hmr.
    assert (Hm : is_mask_or_rewrite s = true) by (destruct Hmr as [-> | ->]; reflexivity).
    destruct (loop_body text st p) as [st'|r|e].
    + destruct Hc as (res' & He' & _ & _ & Hf & Ht).
      rewrite He in He'. inversion He'; subst res'. rewrite Hs, Hm in Hf, Ht.
      exists st'. split; [reflexivity|]. split; [exact Hf|]. split.
      * intros t Hp Hne. rewrite Ht, Hp. destruct t; [contradiction|reflexivity].
      * intros [Hp | Hp]; rewrite Ht, Hp; reflexivity.
    + destruct Hc as (res' & He' & Hb & _).
      rewrite He in He'. inversion He'; subst res'. rewrite Hs in Hb.
      subst s. destruct Hmr as [Hmr | Hmr]; rewrite Hb in Hmr; discriminate.
    + rewrite He in Hc. discriminate.
  - intros Hp.
    destruct (loop_body text st p) as [st'|r|e].
    + destruct Hc as (res' & He' & _ & _ & Hf & Ht).
      rewrite He in He'. inversion He'; subst res'. rewrite Hs, Hp in Hf, Ht.
      exists st'. auto.
    + destruct Hc as (res' & He' & Hb & _).
      rewrite He in He'. inversion He'; subst res'. rewrite Hs, Hp in Hb.
      discriminate.
    + rewrite He in Hc. discriminate.
Qed.

Lemma run_chain_audit (text : string) (chain : list P) :
  forall st r,
    run_chain text chain st = Ok r ->
    final_status st <> "BLOCK" ->
    exists new,
      audit_log r = log_so_far st ++ new
      /\ Forall2 written_by new (take (length new) chain)
      /\ (forall i e, new !! i = Some e -> S i < length new -> non_block e)
      /\ (status r = "BLOCK" ->
            (exists e, new !! (length new - 1) = Some e /\ audit_status e = "BLOCK")
            /\ 1 <= length new
            /\ forall rest,
                 run_chain text (take (length new) chain ++ rest) st = Ok r)
      /\ (status r <> "BLOCK" ->
            length new = length chain /\ Forall non_block new).
Proof.
  induction chain as [|p rest IH]; intros st r Hr Hst; simpl in Hr.
  - inversion Hr; subst; simpl. exists []. rewrite app_nil_r.
    repeat split; auto; try contradiction.
    intros i e Hi. discriminate Hi.
  - pose proof (loop_body_cases text st p) as Hc.
    destruct (loop_body text st p) as [st'|r'|e] eqn:Hl; [| |discriminate].
    + destruct Hc as (res & Hres & Hnb & Hlog & _).
      destruct (IH st' r Hr) as (new & Ha & Hn & Hi & Hblock & Hpass).
      { eapply continue_not_block; eauto. }
      exists (entry_of p res :: new). simpl.
      split; [rewrite Ha, Hlog, <- app_assoc; reflexivity|].
      split; [constructor; [exists (current_text st), res; auto|exact Hn]|].
      split.
      { intros [|i] e0 Hlk Hlt; simpl in Hlk.
        - inversion Hlk; subst e0. exact Hnb.
        - apply (Hi i e0 Hlk). lia. }
      split.
      { intros Hb. destruct (Hblock Hb) as ((e0 & Hlk & He0) & Hlen & Hrest).
        split; [|split; [lia|]].
        - exists e0. split; [|exact He0].
          rewrite Nat.sub_0_r. destruct (length new) as [|n] eqn:Hln; [lia|].
          simpl in *. rewrite Nat.sub_0_r in Hlk. exact Hlk.
        - intros rest'. rewrite Hl. apply Hrest. }
      { intros Hnb'. destruct (Hpass Hnb') as (Hlen & Hall).
        split; [lia|]. constructor; assumption. }
    + inversion Hr; subst r'. destruct Hc as (res & Hres & Hb & ->).
      exists [entry_of p res]. simpl.
      split; [reflexivity|].
      split; [repeat constructor; exists (current_text st), res; auto|].
      split; [intros i e0 _ Hlt; lia|].
      split.
      { intros _. split; [eauto|]. split; [lia|].
        intros rest'. rewrite Hl. reflexivity. }
      { intros Hnb. contradiction. }
Qed.

Lemma written_by_names (log : list AuditEntry) (ps : list P) :
  Forall2 written_by log ps -> map audit_policy log = map name ps.
Proof.
  induction 1 as [|e p log ps (t & res & _ & ->) _ IH]; simpl;
    [reflexivity|rewrite IH; reflexivity].
Qed.

(** C3.  The audit log has one entry for each policy that was evaluated,
    in chain order: with [k] its length, entry [i] was written from what
    policy [i] of the chain returned, for the first [k] policies.  No entry
    before the last is BLOCK.  When the status of the result is BLOCK the
    last entry is the BLOCK, [k] is its position counted from 1, and the
    policies after position [k] are not consulted: replacing them by any
    others gives the same result.  When the status is not BLOCK no entry is
    BLOCK and [k] is the length of the chain. *)
Theorem audit_log_follows_chain (chain : list P) (text : string)
    (r : GatewayResult) :
  process_chain chain text = Ok r ->
  let k := length (audit_log r) in
  Forall2 written_by (audit_log r) (take k chain)
  /\ map audit_policy (audit_log r) = map name (take k chain)
  /\ (forall i e, audit_log r !! i = Some e -> S i < k -> audit_status e <> "BLOCK")
  /\ (status r = "BLOCK" ->
        (exists e, audit_log r !! (k - 1) = Some e /\ audit_status e = "BLOCK")
        /\ 1 <= k <= length chain
        /\ forall rest, process_chain (take k chain ++ rest) text = Ok r)
  /\ (status r <> "BLOCK" ->
        k = length chain
        /\ Forall (fun e => audit_status e <> "BLOCK") (audit_log r)).
Proof.
  intros Hr k. unfold process_chain in *.
  destruct (run_chain_audit text chain (initial_state text) r Hr)
    as (new & Ha & Hn & Hi & Hblock & Hpass); [simpl; discriminate|].
  simpl in Ha. subst k. rewrite Ha.
  split; [exact Hn|]. split; [apply written_by_names; exact Hn|].
  split; [exact Hi|]. split; [|exact Hpass].
  intros Hb. destruct (Hblock Hb) as (He & Hlen & Hrest).
  split; [exact He|]. split; [|exact Hrest].
  split; [exact Hlen|].
  apply Forall2_length in Hn. rewrite length_take in Hn. lia.
Qed.

Lemma run_chain_final (text : string) (chain : list P) :
  forall st r,
    run_chain text chain st = Ok r ->
    final_status st = last_mask_or_rewrite (log_so_far st) ->
    Forall non_block (audit_log r) ->
    status r = last_mask_or_rewrite (audit_log r).
Proof.
  induction chain as [|p rest IH]; intros st r Hr Hst Hall; simpl in Hr.
  - inversion Hr; subst; simpl. exact Hst.
  - pose proof (loop_body_cases text st p) as Hc.
    destruct (loop_body text st p) as [st'|r'|e] eqn:Hl; [| |discriminate].
    + destruct Hc as (res & _ & _ & Hlog & Hf & _).
      apply (IH st' r Hr); [|exact Hall].
      rewrite Hf, Hlog. unfold last_mask_or_rewrite.
      rewrite fold_left_app. simpl. rewrite Hst. reflexivity.
    + inversion Hr; subst r'. destruct Hc as (res & _ & Hb & ->).
      simpl in Hall. apply Forall_app in Hall as [_ Hlast].
      inversion Hlast as [|? ? Hnb _]; subst. contradiction.
Qed.

(** C5.  When no entry of the audit log is BLOCK, that is when no policy
    returned BLOCK, the status of the result is the status of the last
    entry that is MASK or REWRITE, and PASS when there is none. *)
Theorem final_status_is_last_mask_or_rewrite (chain : list P) (text : string)
    (r : GatewayResult) :
  process_chain chain text = Ok r ->
  Forall (fun e => audit_status e <> "BLOCK") (audit_log r) ->
  status r = last_mask_or_rewrite (audit_log r).
Proof.
  intros Hr Hall.
  apply (run_chain_final text chain (initial_state text) r Hr); [reflexivity|].
  exact Hall.
Qed.

End GatewayFacts.

(* ================================================================== *)
(** * Chain construction *)

Lemma policy_map_cases (tag : string) (cls : policy_cls) :
  POLICY_MAP !! tag = Some cls ->
  cls = (fun cfg => PII <$> PII_Scrubber_init cfg)
  \/ cls = (fun cfg => Jailbreak <$> Jailbreak_Detector_init cfg)
  \/ cls = (fun cfg => Semantic <$> Semantic_Threat_Detector_init cfg)
  \/ cls = (fun cfg => Sanitizer <$> Output_Sanitizer_init cfg).
Proof.
  unfold POLICY_MAP. intros Hl.
  repeat (apply lookup_insert_Some in Hl as [[_ <-] | [_ Hl]]; [tauto|]).
  apply lookup_singleton_Some in Hl as [_ <-]. tauto.
Qed.

(** Only the compilation of a configured pattern can make a constructor
    raise. *)
Lemma constructor_raises_re_error (tag : option string) (cls : policy_cls)
    (cfg : policy_config) (e : exn) :
  lookup_cls tag = Some cls -> cls cfg = Raise e -> exists msg, e = ReError msg.
Proof.
  destruct tag as [tag|]; [|discriminate]. simpl. intros Hl Hr.
  destruct (policy_map_cases tag cls Hl) as [-> | [-> | [-> | ->]]];
    try discriminate Hr.
  unfold Output_Sanitizer_init, compile_or_raise in Hr. simpl in Hr.
  destruct (compile (default phone_source (cfg_phone_pattern cfg)));
    simpl in Hr; [|inversion Hr; eauto].
  destruct (compile (default email_source (cfg_email_pattern cfg)));
    simpl in Hr; [discriminate|inversion Hr; eauto].
Qed.

Lemma load_loop_result (config_list : list entry) :
  forall acc log,
    snd (load_loop config_list acc log) =
    match collect (resolve_all config_list) with
    | Ok chain => Ok (acc ++ chain)
    | Raise e => Raise e
    end.
Proof.
  induction config_list as [|item rest IH]; intros acc log; simpl.
  - rewrite app_nil_r. reflexivity.
  - unfold resolve at 1.
    destruct (lookup_cls (entry_type item)) as [cls|]; simpl; [|apply IH].
    destruct (cls (default empty_config (entry_config item))) as [inst|e];
      [|reflexivity].
    rewrite IH. destruct (collect (resolve_all rest)); [|reflexivity].
    rewrite <- app_assoc. reflexivity.
Qed.

Lemma load_loop_warnings (config_list : list entry) :
  forall acc log chain,
    snd (load_loop config_list acc log) = Ok chain ->
    List.filter is_warning (fst (load_loop config_list acc log)) =
    List.filter is_warning log ++
    map (fun item => unknown_warning (entry_type item))
        (List.filter (fun item => negb (known item)) config_list).
Proof.
  induction config_list as [|item rest IH]; intros acc log chain Hr; simpl in *.
  - rewrite app_nil_r. reflexivity.
  - unfold known at 1.
    destruct (lookup_cls (entry_type item)) as [cls|]; simpl.
    + destruct (cls (default empty_config (entry_config item))) as [inst|e];
        [|discriminate].
      rewrite (IH _ _ chain Hr), List.filter_app. simpl.
      rewrite app_nil_r. reflexivity.
    + rewrite (IH _ _ chain Hr), List.filter_app. simpl.
      rewrite <- app_assoc. reflexivity.
Qed.

Lemma collect_raise {A : Type} (l : list (except A)) (e : exn) :
  collect l = Raise e -> Raise e ∈ l.
Proof.
  induction l as [|[a|e'] l IH]; simpl; intros Hc; [discriminate| |].
  - destruct (collect l); [discriminate|]. inversion Hc; subst.
    right. apply IH. reflexivity.
  - inversion Hc; subst. left.
Qed.

Lemma collect_nil {A : Type} (l : list (except A)) :
  collect l = Ok [] -> l = [].
Proof.
  destruct l as [|[a|e] l]; simpl; [reflexivity| |discriminate].
  destruct (collect l); discriminate.
Qed.

Lemma resolve_raise_re_error (config_list : list entry) (e : exn) :
  Raise e ∈ resolve_all config_list -> exists msg, e = ReError msg.
Proof.
  induction config_list as [|item rest IH]; simpl; intros Hin; [inversion Hin|].
  unfold resolve in Hin.
  destruct (lookup_cls (entry_type item)) as [cls|] eqn:Hl; [|auto].
  apply elem_of_cons in Hin as [Hc | Hin]; [|auto].
  eapply constructor_raises_re_error; eauto.
Qed.

Lemma resolve_all_nil (config_list : list entry) :
  resolve_all config_list = [] <-> Forall (fun item => known item = false) config_list.
Proof.
  induction config_list as [|item rest IH]; simpl.
  - split; auto.
  - rewrite Forall_cons, <- IH. unfold known, resolve.
    destruct (lookup_cls (entry_type item)); simpl.
    + split; [discriminate|]. intros [Hk _]. discriminate Hk.
    + tauto.
Qed.

Lemma load_policies_some (name : string) (table : gmap string (list entry))
    (item : entry) (rest : list entry) :
  table !! name = Some (item :: rest) ->
  snd (_load_policies name table) =
  match collect (resolve_all (item :: rest)) with
  | Ok [] => Raise (no_valid_policies name)
  | r => r
  end.
Proof.
  intros Ht. unfold _load_policies. rewrite Ht.
  pose proof (load_loop_result (item :: rest) [] []) as Hl.
  destruct (load_loop (item :: rest) [] []) as [log r]. cbn [snd] in Hl. subst r.
  destruct (collect (resolve_all (item :: rest))) as [[|p chain]|e]; reflexivity.
Qed.

(** C4, amended.  Chain construction raises two ValueErrors told apart by
    their message.  The "not found" one is raised exactly when the name is
    absent from the table or names an empty list; the "no valid policies"
    one exactly when the name is present, its list is not empty and no entry
    of it has a registered type.  Both come out of the constructor of the
    gateway, which takes no text. *)
Theorem construction_errors (name : string) (table : gmap string (list entry)) :
  (snd (_load_policies name table) = Raise (not_found name)
   <-> table !! name = None \/ table !! name = Some [])
  /\ (snd (_load_policies name table) = Raise (no_valid_policies name)
      <-> exists config_list,
            table !! name = Some config_list /\ config_list <> []
            /\ Forall (fun item => known item = false) config_list)
  /\ (forall e, snd (LLM_Safety_Gateway_init name table) = Raise e
                <-> snd (_load_policies name table) = Raise e).
Proof.
  assert (Hre : forall item rest e,
             match collect (resolve_all (item :: rest)) with
             | Ok [] => Raise (no_valid_policies name)
             | r => r
             end = Raise (ValueError e) ->
             collect (resolve_all (item :: rest)) = Ok []).
  { intros item rest e Hc.
    destruct (collect (resolve_all (item :: rest))) as [[|p chain]|e'] eqn:Hcol;
      [reflexivity|discriminate|].
    apply collect_raise, resolve_raise_re_error in Hcol as [msg ->].
    discriminate. }
  split; [|split].
  - split.
    + intros Hr. destruct (table !! name) as [[|item rest]|] eqn:Ht; auto.
      rewrite (load_policies_some name table item rest Ht) in Hr.
      pose proof (Hre item rest _ Hr) as Hcol. rewrite Hcol in Hr.
      discriminate.
    + unfold _load_policies. intros [-> | ->]; reflexivity.
  - split.
    + intros Hr. destruct (table !! name) as [[|item rest]|] eqn:Ht.
      * unfold _load_policies in Hr. rewrite Ht in Hr. discriminate.
      * exists (item :: rest). split; [reflexivity|]. split; [discriminate|].
        rewrite (load_policies_some name table item rest Ht) in Hr.
        apply Hre, collect_nil in Hr. apply resolve_all_nil. exact Hr.
      * unfold _load_policies in Hr. rewrite Ht in Hr. discriminate.
    + intros (config_list & Ht & Hne & Hall).
      destruct config_list as [|item rest]; [contradiction|].
      rewrite (load_policies_some name table item rest Ht).
      apply resolve_all_nil in Hall. rewrite Hall. reflexivity.
  - intros e. unfold LLM_Safety_Gateway_init.
    destruct (_load_policies name table) as [log [chain|e']]; simpl.
    + split; discriminate.
    + split; intros Hr; inversion Hr; reflexivity.
Qed.

(** C8.  When at least one entry of the named set has a registered type,
    the entries whose type is not registered do not make construction fail:
    the outcome is that of constructing the registered entries alone, in
    configuration order, so a built chain holds exactly their instances;
    and the warnings logged are one for each unregistered entry, in order. *)
Theorem unknown_types_are_skipped (name : string)
    (table : gmap string (list entry)) (config_list : list entry) :
  table !! name = Some config_list ->
  (exists item, item ∈ config_list /\ known item = true) ->
  snd (_load_policies name table) = collect (resolve_all config_list)
  /\ forall chain,
       snd (_load_policies name table) = Ok chain ->
       chain <> []
       /\ List.filter is_warning (fst (_load_policies name table)) =
          map (fun item => unknown_warning (entry_type item))
              (List.filter (fun item => negb (known item)) config_list).
Proof.
  intros Ht (item & Hin & Hk).
  destruct config_list as [|item0 rest]; [inversion Hin|].
  assert (Hne : collect (resolve_all (item0 :: rest)) <> Ok []).
  { intros Hc. apply collect_nil, resolve_all_nil in Hc.
    rewrite Forall_forall in Hc. rewrite (Hc item Hin) in Hk. discriminate. }
  assert (Hres : snd (_load_policies name table)
                 = collect (resolve_all (item0 :: rest))).
  { rewrite (load_policies_some name table item0 rest Ht).
    destruct (collect (resolve_all (item0 :: rest))) as [[|p chain]|e];
      [contradiction|reflexivity|reflexivity]. }
  split; [exact Hres|].
  intros chain Hok. split.
  - intros ->. rewrite Hres in Hok. contradiction.
  - unfold _load_policies in *. rewrite Ht in *.
    pose proof (load_loop_warnings (item0 :: rest) [] []) as Hw.
    destruct (load_loop (item0 :: rest) [] []) as [log [[|p c]|e]];
      simpl in *; try discriminate.
    apply (Hw (p :: c)). reflexivity.
Qed.

(* ================================================================== *)
(** * The gateway on concrete chains *)

Example sample_chain_names :
  map name sample_chain
  = ["PII_Scrubber"; "Jailbreak_Detector"; "Semantic_Threat_Detector"].
Proof. vm_compute. reflexivity. Qed.

(** C1 as stated fails: a scrubber whose mask token is empty turns a text
    that is one address into the empty string; the gateway keeps the
    current text and still records MASK. *)
Lemma status_recorded_without_text :
  ~ (forall (text : string) (st st' : loop_state) (p : policy) (res : PolicyResult),
       evaluate_prompt p (current_text st) = Ok res ->
       loop_body text st p = Continue st' ->
       final_status st' <> final_status st ->
       truthy_opt (res_processed_prompt res) = true).
Proof.
  intros Hc.
  specialize (Hc "a@b.co" (initial_state "a@b.co")
                {| current_text := "a@b.co";
                   log_so_far := [{| audit_policy := "PII_Scrubber";
                                     audit_status := "MASK";
                                     audit_details := "PII (email) masked." |}];
                   final_status := "MASK" |}
                (scrubber "")
                (verdict_with "MASK" "PII (email) masked." "")).
  assert (He : evaluate_prompt (scrubber "") (current_text (initial_state "a@b.co"))
               = Ok (verdict_with "MASK" "PII (email) masked." ""))
    by (vm_compute; reflexivity).
  specialize (Hc He).
  assert (Hl : loop_body "a@b.co" (initial_state "a@b.co") (scrubber "")
               = Continue {| current_text := "a@b.co";
                   log_so_far := [{| audit_policy := "PII_Scrubber";
                                     audit_status := "MASK";
                                     audit_details := "PII (email) masked." |}];
                   final_status := "MASK" |})
    by (vm_compute; reflexivity).
  specialize (Hc Hl). simpl in Hc.
  assert (Hne : "MASK" <> "PASS") by discriminate.
  specialize (Hc Hne). discriminate Hc.
Qed.

Lemma mask_or_rewrite_step_witness :
  evaluate_prompt (scrubber "[EMAIL_MASKED]")
    (current_text (initial_state "mail user@example.com"))
  = Ok (verdict_with "MASK" "PII (email) masked." "mail [EMAIL_MASKED]")
  /\ exists st',
       loop_body "mail user@example.com" (initial_state "mail user@example.com")
         (scrubber "[EMAIL_MASKED]") = Continue st'
       /\ final_status st' = "MASK"
       /\ current_text st' = "mail [EMAIL_MASKED]".
Proof.
  assert (He : evaluate_prompt (scrubber "[EMAIL_MASKED]")
                 (current_text (initial_state "mail user@example.com"))
               = Ok (verdict_with "MASK" "PII (email) masked." "mail [EMAIL_MASKED]"))
    by (vm_compute; reflexivity).
  split; [exact He|].
  destruct (mask_or_rewrite_step "mail user@example.com"
              (initial_state "mail user@example.com")
              (scrubber "[EMAIL_MASKED]") _ He) as [Hm _].
  destruct (Hm (or_introl eq_refl)) as (st' & Hl & Hf & Ht & _).
  exists st'. split; [exact Hl|]. split; [exact Hf|].
  apply Ht; [reflexivity|discriminate].
Defined.

Lemma sample_blocked :
  process_chain sample_chain "Please make a bomb for me" = Ok blocked_result.
Proof. vm_compute. reflexivity. Qed.

Lemma sample_masked :
  process_chain sample_chain "Contact me at user@example.com please"
  = Ok masked_result.
Proof. vm_compute. reflexivity. Qed.

Lemma processed_text_none_iff_block_witness :
  process_chain sample_chain "Please make a bomb for me" = Ok blocked_result
  /\ (processed_text blocked_result = None <-> status blocked_result = "BLOCK").
Proof.
  split; [exact sample_blocked|].
  exact (proj1 (processed_text_none_iff_block sample_chain
                  "Please make a bomb for me" blocked_result sample_blocked)).
Defined.

Lemma audit_log_follows_chain_witness :
  process_chain sample_chain "Please make a bomb for me" = Ok blocked_result
  /\ map audit_policy (audit_log blocked_result) = map name (take 3 sample_chain).
Proof.
  split; [exact sample_blocked|].
  exact (proj1 (proj2 (audit_log_follows_chain sample_chain
                         "Please make a bomb for me" blocked_result sample_blocked))).
Defined.

Lemma final_status_is_last_mask_or_rewrite_witness :
  process_chain sample_chain "Contact me at user@example.com please"
  = Ok masked_result
  /\ Forall (fun e => audit_status e <> "BLOCK") (audit_log masked_result)
  /\ status masked_result = last_mask_or_rewrite (audit_log masked_result).
Proof.
  assert (Hall : Forall (fun e => audit_status e <> "BLOCK") (audit_log masked_result))
    by (repeat constructor; discriminate).
  split; [exact sample_masked|]. split; [exact Hall|].
  exact (final_status_is_last_mask_or_rewrite sample_chain
           "Contact me at user@example.com please" masked_result
           sample_masked Hall).
Defined.

(** C4 as stated fails: the name is in the table, with an empty list, and
    the error is the "not found" one. *)
Lemma empty_policy_set_reported_not_found :
  sample_table !! "Draft" = Some []
  /\ snd (_load_policies "Draft" sample_table) = Raise (not_found "Draft")
  /\ snd (_load_policies "Draft" sample_table) <> Raise (no_valid_policies "Draft").
Proof.
  split; [vm_compute; reflexivity|].
  split; [vm_compute; reflexivity|].
  vm_compute. discriminate.
Qed.

Lemma construction_errors_witness :
  snd (_load_policies "Planned" sample_table) = Raise (no_valid_policies "Planned").
Proof.
  apply (proj1 (proj2 (construction_errors "Planned" sample_table))).
  exists [item_of "Toxicity_Filter"].
  split; [reflexivity|]. split; [discriminate|].
  repeat constructor.
Defined.

Lemma unknown_types_are_skipped_witness :
  sample_table !! "Enterprise_input"
  = Some [item_of "PII_Scrubber"; item_of "Toxicity_Filter";
          item_of "Jailbreak_Detector"; item_of "Semantic_Threat_Detector"]
  /\ known (item_of "PII_Scrubber") = true
  /\ snd (_load_policies "Enterprise_input" sample_table) = Ok sample_chain
  /\ List.filter is_warning (fst (_load_policies "Enterprise_input" sample_table))
     = [unknown_warning (Some "Toxicity_Filter")].
Proof.
  assert (Ht : sample_table !! "Enterprise_input"
               = Some [item_of "PII_Scrubber"; item_of "Toxicity_Filter";
                       item_of "Jailbreak_Detector"; item_of "Semantic_Threat_Detector"])
    by (vm_compute; reflexivity).
  assert (Hk : known (item_of "PII_Scrubber") = true) by (vm_compute; reflexivity).
  assert (Hok : snd (_load_policies "Enterprise_input" sample_table) = Ok sample_chain)
    by reflexivity.
  split; [exact Ht|]. split; [exact Hk|]. split; [exact Hok|].
  destruct (unknown_types_are_skipped "Enterprise_input" sample_table _ Ht)
    as [_ Hw].
  { exists (item_of "PII_Scrubber"). split; [left|exact Hk]. }
  destruct (Hw sample_chain Hok) as [_ Hlog]. rewrite Hlog.
  vm_compute. reflexivity.
Defined.

(* ================================================================== *)
(** * The keyword blocker *)

Lemma lstrip_blank (s : string) : blank s = true -> lstrip s = "".
Proof.
  induction s as [|c s IH]; simpl; [reflexivity|].
  intros Hb. apply andb_true_iff in Hb as [Hc Hs]. rewrite Hc. auto.
Qed.

Lemma strip_blank (s : string) : blank s = true -> strip s = "".
Proof. intros Hb. unfold strip. rewrite (lstrip_blank s Hb). reflexivity. Qed.

Lemma blank_keywords_dropped (keywords : list string) :
  Forall (fun kw => blank kw = true) keywords ->
  kb_keywords (Keyword_Blocker_init keywords) = [].
Proof.
  unfold Keyword_Blocker_init. simpl.
  induction 1 as [|kw rest Hkw _ IH]; [reflexivity|].
  rewrite filter_cons_False; [exact IH|].
  rewrite (strip_blank kw Hkw). discriminate.
Qed.

Lemma lower_nonempty (s : string) : truthy s = true -> lower s <> "".
Proof. destruct s; simpl; [discriminate|discriminate]. Qed.

(** The empty string is never one of the keywords of a blocker. *)
Lemma no_empty_keyword (keywords : list string) :
  "" ∉ kb_keywords (Keyword_Blocker_init keywords).
Proof.
  unfold Keyword_Blocker_init. simpl. intros Hin.
  apply list_elem_of_fmap in Hin as (kw & Hkw & Hin).
  apply list_elem_of_filter in Hin as [Ht _].
  apply (lower_nonempty (strip kw) Ht). symmetry. exact Hkw.
Qed.

(** C10.  When every keyword is empty or made of white space only, which
    includes the empty list, the blocker keeps no keyword, and for every
    text the custom endpoint returns PASS with the text itself as processed
    text and a single PASS audit entry. *)
Theorem blank_keywords_pass (keywords : list string) (text : string) :
  Forall (fun kw => blank kw = true) keywords ->
  kb_keywords (Keyword_Blocker_init keywords) = []
  /\ process_text_custom {| req_text := text; req_keywords := keywords |}
     = {| status := "PASS";
          original_text := text;
          processed_text := Some text;
          audit_log := [{| audit_policy := "Keyword_Blocker";
                           audit_status := "PASS";
                           audit_details := "No keyword match." |}];
          final_reason := "No keyword match." |}.
Proof.
  intros Hall. pose proof (blank_keywords_dropped keywords Hall) as Hk.
  split; [exact Hk|].
  unfold process_text_custom, Keyword_Blocker_evaluate_prompt.
  cbn [req_keywords req_text]. rewrite Hk. reflexivity.
Qed.

Lemma blank_keywords_pass_witness :
  Forall (fun kw => blank kw = true) [""; "   "]
  /\ status (process_text_custom
               {| req_text := "anything at all"; req_keywords := [""; "   "] |})
     = "PASS".
Proof.
  assert (Hall : Forall (fun kw => blank kw = true) [""; "   "])
    by (repeat constructor).
  split; [exact Hall|].
  rewrite (proj2 (blank_keywords_pass [""; "   "] "anything at all" Hall)).
  reflexivity.
Defined.

(* ================================================================== *)
(** * The matcher finds what the expression matches *)

Lemma last_char_app (prev : option ascii) (u1 u2 : list ascii) :
  last_char (last_char prev u1) u2 = last_char prev (u1 ++ u2).
Proof.
  unfold last_char. destruct u2 as [|c u2] using rev_ind.
  - rewrite app_nil_r. reflexivity.
  - rewrite app_assoc, !last_snoc. reflexivity.
Qed.

Lemma next_char_head (u rest : list ascii) :
  next_char u (head rest) = head (u ++ rest).
Proof. destruct u; reflexivity. Qed.

Lemma star_loop_fallback body fuel prev s (k : cont) x :
  k prev s = Some x -> exists y, star_loop body fuel prev s k = Some y.
Proof.
  intros Hk. destruct fuel as [|fuel]; simpl; [eauto|].
  destruct (body prev s _); eauto.
Qed.

Lemma star_complete (r : regex) :
  complete_for r ->
  forall sr prev u next, Matches sr prev u next -> sr = Star r ->
  forall rest (k : cont) x fuel,
    next = head rest -> k (last_char prev u) rest = Some x ->
    length (u ++ rest) <= fuel ->
    exists y, star_loop (match_re r) fuel prev (u ++ rest) k = Some y.
Proof.
  intros Hr sr prev u next HM.
  induction HM as [| | | | | r0 prev next | r0 u1 u2 prev next Hne H1 _ H2 IH2 |];
    intros Heq rest k x fuel Hnext Hk Hfuel; try discriminate.
  - eapply star_loop_fallback. exact Hk.
  - inversion Heq; subst r0. clear Heq.
    destruct fuel as [|fuel].
    { destruct u1; [contradiction|]. simpl in Hfuel. lia. }
    cbn [star_loop]. rewrite <- app_assoc.
    rewrite <- last_char_app in Hk.
    destruct (IH2 eq_refl rest k x fuel Hnext Hk) as [y Hy].
    { rewrite <- app_assoc, length_app in Hfuel.
      destruct u1; [contradiction|]. simpl in Hfuel. lia. }
    assert (Hlt : (length (u2 ++ rest) <? length (u1 ++ u2 ++ rest)) = true).
    { apply Nat.ltb_lt. rewrite (length_app u1).
      destruct u1; [contradiction|]. simpl. lia. }
    destruct (Hr prev u1 _ H1 (u2 ++ rest)
                (fun p' s' =>
                   if length s' <? length (u1 ++ u2 ++ rest)
                   then star_loop (match_re r) fuel p' s' k else None) y)
      as [z Hz].
    { subst next. rewrite next_char_head. reflexivity. }
    { cbv beta. rewrite Hlt. exact Hy. }
    rewrite Hz. eauto.
Qed.

Lemma match_complete (r : regex) : complete_for r.
Proof.
  induction r as [|f|r1 IH1 r2 IH2|r1 IH1 r2 IH2|r IH|];
    intros prev u next HM rest k x Hnext Hk.
  - inversion HM; subst. simpl in *. eauto.
  - inversion HM; subst. simpl.
    match goal with Hf : f _ = true |- _ => rewrite Hf end. eauto.
  - inversion HM as [| |? ? u1 u2 ? ? H1 H2| | | | |]; subst.
    simpl. rewrite <- app_assoc. rewrite <- last_char_app in Hk.
    destruct (IH2 _ _ _ H2 rest k x eq_refl Hk) as [y Hy].
    eapply (IH1 _ _ _ H1 (u2 ++ rest)); [apply next_char_head|exact Hy].
  - inversion HM as [| | |? ? ? ? ? H1|? ? ? ? ? H2| | |]; subst; simpl.
    + destruct (IH1 _ _ _ H1 rest k x eq_refl Hk) as [y Hy]. rewrite Hy. eauto.
    + destruct (match_re r1 prev (u ++ rest) k); [eauto|].
      eapply IH2; eauto.
  - simpl. eapply (star_complete r IH (Star r)); eauto.
  - inversion HM as [| | | | | | |? ? Hw]; subst. simpl in *.
    destruct (is_word_at prev), (is_word_at (head rest)); simpl;
      try contradiction; eauto.
Qed.

Lemma match_here_complete (r : regex) (prev : option ascii) (u rest : list ascii) :
  Matches r prev u (head rest) ->
  exists y, match_here r false prev (u ++ rest) = Some y.
Proof.
  intros HM. unfold match_here.
  eapply (match_complete r prev u _ HM rest _ rest); reflexivity.
Qed.

(** [re.search] succeeds when some part of the text matches. *)
Lemma search_from_complete (r : regex) (a u rest : list ascii) :
  forall prev,
    Matches r (last_char prev a) u (head rest) ->
    search_from r prev (a ++ u ++ rest) = true.
Proof.
  induction a as [|c a IH]; intros prev HM.
  - simpl app. destruct (match_here_complete r prev u rest HM) as [y Hy].
    destruct u, rest; simpl in *; rewrite Hy; reflexivity.
  - cbn [app search_from].
    destruct (match_here r false prev (c :: a ++ u ++ rest)); [reflexivity|].
    apply IH. replace (last_char (Some c) a) with (last_char prev (c :: a)); [exact HM|].
    unfold last_char. destruct a as [|c' a] using rev_ind; [reflexivity|].
    rewrite app_comm_cons, !last_snoc. reflexivity.
Qed.

(* ================================================================== *)
(** * The compound rule of the semantic-threat detector *)

Lemma chars_app (a b : string) : chars (a +:+ b) = chars a ++ chars b.
Proof.
  unfold chars. induction a as [|c a IH]; [reflexivity|].
  change (String c a +:+ b) with (String c (a +:+ b)). simpl. rewrite IH.
  reflexivity.
Qed.

Lemma eq_char_i_lower (c x : ascii) :
  lower_char x = lower_char c -> eq_char_i c x = true.
Proof. intros Hl. unfold eq_char_i. rewrite Hl. apply N.eqb_refl. Qed.

(** A literal under [re.I] matches every respelling of it in another case. *)
Lemma StrI_matches (s : string) :
  forall w prev next,
    lower w = lower s -> Matches (StrI s) prev (chars w) next.
Proof.
  induction s as [|c s IH]; intros w prev next Hl.
  - destruct w; [constructor|discriminate].
  - destruct w as [|x w]; [discriminate|].
    simpl in Hl. inversion Hl as [[Hx Hw]].
    destruct s as [|c' s].
    + destruct w; [|discriminate]. simpl. constructor.
      apply eq_char_i_lower. exact Hx.
    + change (StrI (String c (String c' s)))
        with (Cat (Char (eq_char_i c)) (StrI (String c' s))).
      change (chars (String x w)) with ([x] ++ chars w).
      constructor.
      * constructor. apply eq_char_i_lower. exact Hx.
      * apply IH. exact Hw.
Qed.

Lemma lower_b_is_word (x : ascii) : lower_char x = "b"%char -> is_word x = true.
Proof.
  destruct x as [[] [] [] [] [] [] [] []]; vm_compute; intros Hx;
    try reflexivity; discriminate Hx.
Qed.

Lemma search_bomb_word (text : string) :
  has_standalone_bomb text -> search bomb_word text = true.
Proof.
  intros (a & w & b & -> & Hw & Ha & Hb).
  unfold search. fold (chars (a +:+ w +:+ b)). rewrite !chars_app.
  apply search_from_complete.
  assert (Hprev : is_word_at (last_char None (chars a)) = false).
  { unfold last_char. destruct (last (chars a)); [exact Ha|reflexivity]. }
  destruct w as [|c1 [|c2 [|c3 [|c4 [|c5 w]]]]]; try discriminate Hw.
  simpl in Hw. injection Hw as H1 H2 H3 H4.
  assert (Hw : lower (String c1 (String c2 (String c3 (String c4 "")))) = "bomb")
    by (simpl; rewrite H1, H2, H3, H4; reflexivity).
  pose proof (StrI_matches "bomb" (String c1 (String c2 (String c3 (String c4 ""))))) as HS.
  assert (Hl : lower (String c1 (String c2 (String c3 (String c4 "")))) = lower "bomb").
  { exact Hw. }
  change (tree bomb_word) with (Cat Bound (Cat (StrI "bomb") Bound)).
  change (chars (String c1 (String c2 (String c3 (String c4 "")))))
    with ([] ++ ([c1; c2; c3; c4] ++ [])).
  constructor.
  - constructor. simpl. rewrite Hprev, (lower_b_is_word c1 H1). discriminate.
  - constructor.
    + apply (HS _ _ Hl).
    + constructor. simpl. rewrite Hb, (lower_b_is_word c4 H4). discriminate.
Qed.

Lemma search_creation_verb (text : string) :
  has_creation_verb text -> search creation_verb text = true.
Proof.
  intros (a & v & b & -> & Hv).
  unfold search. fold (chars (a +:+ v +:+ b)). rewrite !chars_app.
  apply search_from_complete.
  change (tree creation_verb)
    with (Alt (StrI "make") (Alt (StrI "build") (Alt (StrI "create") (StrI "manufacture")))).
  unfold creation_verbs in Hv.
  repeat (apply elem_of_cons in Hv as [Hv | Hv]).
  - apply M_AltL. apply StrI_matches. exact Hv.
  - apply M_AltR, M_AltL. apply StrI_matches. exact Hv.
  - apply M_AltR, M_AltR, M_AltL. apply StrI_matches. exact Hv.
  - apply M_AltR, M_AltR, M_AltR. apply StrI_matches. exact Hv.
  - inversion Hv.
Qed.

(** C6.  For every text that contains the standalone word "bomb" in any
    case and, anywhere, one of the verbs make, build, create, manufacture in
    any case, the detector returns BLOCK with the bomb-making reason,
    whatever its block patterns and rewrite patterns are: the compound rule
    is decided before either list is looked at. *)
Theorem compound_rule_blocks (self : Semantic_Threat_Detector) (text : string) :
  has_standalone_bomb text ->
  has_creation_verb text ->
  evaluate_prompt self text
  = Ok (verdict "BLOCK" "Dangerous bomb-making intent detected.").
Proof.
  intros Hb Hv. simpl. unfold Semantic_Threat_Detector_evaluate_prompt.
  rewrite (search_bomb_word text Hb), (search_creation_verb text Hv).
  reflexivity.
Qed.

Lemma compound_rule_blocks_witness :
  has_standalone_bomb "a BOMB? who would Build that"
  /\ has_creation_verb "a BOMB? who would Build that"
  /\ evaluate_prompt
       {| block_patterns := []; rewrite_patterns := default_rewrite_patterns;
          rewrite_template := "" |}
       "a BOMB? who would Build that"
     = Ok (verdict "BLOCK" "Dangerous bomb-making intent detected.").
Proof.
  assert (Hb : has_standalone_bomb "a BOMB? who would Build that").
  { exists "a ", "BOMB", "? who would Build that". repeat split. }
  assert (Hv : has_creation_verb "a BOMB? who would Build that").
  { exists "a BOMB? who would ", "Build", " that". split; [reflexivity|].
    right. left. }
  split; [exact Hb|]. split; [exact Hv|].
  exact (compound_rule_blocks _ _ Hb Hv).
Defined.

(* ================================================================== *)
(** * What the matcher finds is a match *)

Lemma star_sound (r : regex) :
  sound_for r ->
  forall fuel prev s (k : cont) x,
    star_loop (match_re r) fuel prev s k = Some x ->
    exists u rest,
      s = u ++ rest /\ Matches (Star r) prev u (head rest)
      /\ k (last_char prev u) rest = Some x.
Proof.
  intros Hr. induction fuel as [|fuel IH]; intros prev s k x Hs.
  - exists [], s. repeat split; [constructor|exact Hs].
  - cbn [star_loop] in Hs.
    destruct (match_re r prev s _) as [y|] eqn:Hb.
    + inversion Hs; subst y. clear Hs.
      apply Hr in Hb as (u1 & rest1 & -> & H1 & Hk).
      cbv beta in Hk.
      destruct (length rest1 <? length (u1 ++ rest1)) eqn:Hlt; [|discriminate].
      apply IH in Hk as (u2 & rest & -> & H2 & Hk).
      exists (u1 ++ u2), rest. rewrite <- app_assoc.
      split; [reflexivity|]. split.
      * constructor; [| rewrite next_char_head; exact H1 | exact H2].
        intros ->. apply Nat.ltb_lt in Hlt. simpl in Hlt. lia.
      * rewrite <- last_char_app. exact Hk.
    + exists [], s. repeat split; [constructor|exact Hs].
Qed.

Lemma match_sound (r : regex) : sound_for r.
Proof.
  induction r as [|f|r1 IH1 r2 IH2|r1 IH1 r2 IH2|r IH|];
    intros prev s k x Hm; simpl in Hm.
  - exists [], s. repeat split; [constructor|exact Hm].
  - destruct s as [|c s]; [discriminate|].
    destruct (f c) eqn:Hf; [|discriminate].
    exists [c], s. repeat split; [constructor; exact Hf|exact Hm].
  - apply IH1 in Hm as (u1 & rest1 & -> & H1 & Hm).
    apply IH2 in Hm as (u2 & rest & -> & H2 & Hk).
    exists (u1 ++ u2), rest. rewrite <- app_assoc.
    split; [reflexivity|]. split.
    + constructor; [rewrite next_char_head; exact H1|exact H2].
    + rewrite <- last_char_app. exact Hk.
  - destruct (match_re r1 prev s k) as [y|] eqn:H1.
    + inversion Hm; subst y.
      apply IH1 in H1 as (u & rest & -> & HM & Hk).
      exists u, rest. repeat split; [apply M_AltL; exact HM|exact Hk].
    + apply IH2 in Hm as (u & rest & -> & HM & Hk).
      exists u, rest. repeat split; [apply M_AltR; exact HM|exact Hk].
  - eapply star_sound; eauto.
  - destruct (xorb (is_word_at prev) (is_word_at (head s))) eqn:Hx; [|discriminate].
    exists [], s. repeat split; [|exact Hm].
    constructor. intros Heq. rewrite Heq, xorb_nilpotent in Hx. discriminate.
Qed.

Lemma matches_within (S : ascii -> bool) (r : regex) prev u next :
  Matches r prev u next -> classes_within S r ->
  Forall (fun c => S c = true) u.
Proof.
  induction 1 as [| f c prev next Hf | r1 r2 u1 u2 prev next _ IH1 _ IH2
                  | r1 r2 u prev next _ IH | r1 r2 u prev next _ IH |
                  | r u1 u2 prev next _ _ IH1 _ IH2 |]; simpl; intros Hc.
  - constructor.
  - constructor; [auto|constructor].
  - apply Forall_app. split; [apply IH1|apply IH2]; tauto.
  - apply IH; tauto.
  - apply IH; tauto.
  - constructor.
  - apply Forall_app. split; [apply IH1|apply IH2]; assumption.
  - constructor.
Qed.

(** Without a word-boundary assertion a match does not depend on what
    surrounds it. *)
Lemma matches_anywhere (r : regex) prev u next :
  Matches r prev u next -> bound_free r ->
  forall prev' next', Matches r prev' u next'.
Proof.
  induction 1 as [| f c prev next Hf | r1 r2 u1 u2 prev next _ IH1 _ IH2
                  | r1 r2 u prev next _ IH | r1 r2 u prev next _ IH |
                  | r u1 u2 prev next Hne _ IH1 _ IH2 |]; simpl; intros Hb prev' next'.
  - constructor.
  - constructor. exact Hf.
  - constructor; [apply IH1|apply IH2]; tauto.
  - apply M_AltL. apply IH. tauto.
  - apply M_AltR. apply IH. tauto.
  - constructor.
  - constructor; [exact Hne|apply IH1|apply IH2]; assumption.
  - contradiction.
Qed.

(* ================================================================== *)
(** * The PII scrubber *)

Lemma local_is_email_char c : email_local c = true -> email_char c = true.
Proof. by_char c. Qed.
Lemma domain_is_email_char c : email_domain c = true -> email_char c = true.
Proof. by_char c. Qed.
Lemma alpha_is_email_char c : is_alpha_az c = true -> email_char c = true.
Proof. by_char c. Qed.
Lemma at_is_email_char c : eq_char "@" c = true -> email_char c = true.
Proof. by_char c. Qed.
Lemma dot_is_email_char c : eq_char "." c = true -> email_char c = true.
Proof. by_char c. Qed.

Lemma eq_char_true (c x : ascii) : eq_char c x = true -> x = c.
Proof.
  unfold eq_char, code. intros Hc. apply N.eqb_eq in Hc.
  rewrite <- (ascii_N_embedding x), <- (ascii_N_embedding c), Hc. reflexivity.
Qed.

Lemma email_classes : classes_within email_char email_tree.
Proof.
  simpl.
  repeat split;
    auto using local_is_email_char, domain_is_email_char, alpha_is_email_char,
               at_is_email_char, dot_is_email_char.
Qed.

Lemma email_bound_free : bound_free email_tree.
Proof. simpl. tauto. Qed.

Lemma email_has_at prev u next :
  Matches email_tree prev u next -> "@"%char ∈ u.
Proof.
  change email_tree
    with (Cat (Plus (Char email_local))
              (Cat (Lit "@")
                   (Seq [Plus (Char email_domain); Lit "."; AtLeast 2 (Char is_alpha_az)]))).
  intros HM.
  inversion HM as [| |? ? u1 u2 ? ? _ H2| | | | |]; subst.
  inversion H2 as [| |? ? u3 u4 ? ? H3 _| | | | |]; subst.
  inversion H3 as [|? c ? ? Hc| | | | | |]; subst.
  apply eq_char_true in Hc. subst c.
  apply elem_of_app. right. apply elem_of_app. left. left.
Qed.

Lemma email_match_facts prev u next :
  Matches email_tree prev u next ->
  u <> [] /\ Forall (fun c => email_char c = true) u /\ ("@"%char ∈ u)
  /\ Matches email_tree None u None.
Proof.
  intros HM. pose proof (email_has_at _ _ _ HM) as Hat.
  split; [intros ->; inversion Hat|].
  split; [eapply matches_within; [exact HM|exact email_classes]|].
  split; [exact Hat|].
  eapply matches_anywhere; [exact HM|exact email_bound_free].
Qed.

(** An attempt succeeds exactly where an address starts. *)
Lemma email_hit adv prev s rest :
  match_here email_tree adv prev s = Some rest ->
  exists u, s = u ++ rest /\ u <> [] /\ Matches email_tree None u None.
Proof.
  unfold match_here. intros Hm.
  apply match_sound in Hm as (u & rest' & -> & HM & Hk).
  unfold accept in Hk.
  destruct (adv && (length rest' =? length (u ++ rest'))); [discriminate|].
  inversion Hk; subst rest'.
  apply email_match_facts in HM as (Hne & _ & _ & HM). eauto.
Qed.

Lemma email_miss adv prev u rest :
  Matches email_tree None u None ->
  match_here email_tree adv prev (u ++ rest) <> None.
Proof.
  intros HM. pose proof (email_match_facts _ _ _ HM) as (Hne & _).
  assert (HM' : Matches email_tree prev u (head rest))
    by (eapply matches_anywhere; [exact HM|exact email_bound_free]).
  unfold match_here.
  destruct (match_complete email_tree prev u _ HM' rest
              (accept adv (u ++ rest)) rest eq_refl) as [y Hy].
  - unfold accept.
    assert (Hlen : (length rest =? length (u ++ rest)) = false).
    { apply Nat.eqb_neq. rewrite length_app. destruct u; [contradiction|].
      simpl. lia. }
    rewrite Hlen, andb_false_r. reflexivity.
  - rewrite Hy. discriminate.
Qed.

Lemma expand_literal (tok matched : list ascii) :
  expand (map TLit tok) matched = tok.
Proof. induction tok as [|c tok IH]; simpl; [|rewrite IH]; reflexivity. Qed.

Section Scrub.
Variable tok : list ascii.
Lemma sub_go_skip c s prev k adv :
  sub_go email_tree (map TLit tok) (c :: s) prev (S k) adv
  = sub_go email_tree (map TLit tok) s (Some c) k false.
Proof. reflexivity. Qed.

Lemma sub_go_nil prev skip adv : sub_go email_tree (map TLit tok) [] prev skip adv = [].
Proof.
  destruct skip; [|reflexivity].
  cbn [sub_go].
  destruct (match_here email_tree adv prev []) as [rest|] eqn:Hm; [|reflexivity].
  apply email_hit in Hm as (u & Hs & Hne & _).
  destruct u; [contradiction|discriminate].
Qed.

Lemma sub_go_copy c s prev adv :
  match_here email_tree adv prev (c :: s) = None ->
  sub_go email_tree (map TLit tok) (c :: s) prev 0 adv
  = c :: sub_go email_tree (map TLit tok) s (Some c) 0 false.
Proof. intros Hm. cbn [sub_go]. rewrite Hm. reflexivity. Qed.

Lemma sub_go_replace c s prev adv rest :
  match_here email_tree adv prev (c :: s) = Some rest ->
  exists k,
    sub_go email_tree (map TLit tok) (c :: s) prev 0 adv
    = tok ++ sub_go email_tree (map TLit tok) s (Some c) k false.
Proof.
  intros Hm. pose proof (email_hit _ _ _ _ Hm) as (u & Hs & Hne & _).
  assert (Hlen : exists k, length (c :: s) - length rest = S k).
  { rewrite Hs, length_app. destruct u; [contradiction|]. simpl.
    exists (length u). lia. }
  destruct Hlen as [k Hk]. exists k.
  cbn [sub_go]. rewrite Hm, Hk. rewrite expand_literal.
  reflexivity.
Qed.

Hypothesis tok_first :
  match tok with [] => False | x :: _ => email_char x = false end.
Hypothesis tok_last :
  match last tok with Some z => email_char z = false | None => False end.
Hypothesis tok_no_at : "@"%char ∉ tok.

(** What the output starts with, as far as it could belong to an
    address, was copied from the text. *)
Lemma sub_go_prefix s :
  forall prev adv u b,
    sub_go email_tree (map TLit tok) s prev 0 adv = u ++ b ->
    Forall (fun c => email_char c = true) u ->
    exists b', s = u ++ b'.
Proof.
  induction s as [|c s IH]; intros prev adv u b Hout Hu.
  - rewrite sub_go_nil in Hout. symmetry in Hout.
    apply app_eq_nil in Hout as [-> _]. exists []. reflexivity.
  - destruct (match_here email_tree adv prev (c :: s)) as [rest|] eqn:Hm.
    + destruct (sub_go_replace c s prev adv rest Hm) as [k Hk].
      rewrite Hk in Hout. destruct u as [|y u]; [eauto|].
      destruct tok as [|x tok']; [contradiction|].
      simpl in Hout. inversion Hout; subst y.
      inversion Hu as [|? ? Hy _]; subst. rewrite tok_first in Hy. discriminate.
    + rewrite (sub_go_copy c s prev adv Hm) in Hout.
      destruct u as [|y u]; [eauto|].
      simpl in Hout. inversion Hout as [[Hy Hrest]]. subst y.
      inversion Hu as [|? ? _ Hu']; subst.
      destruct (IH _ _ _ _ Hrest Hu') as [b' ->]. eauto.
Qed.

Lemma factor_split {A : Type} (l1 : list A) (z : A) (l2 : list A) :
  forall a u b,
    a ++ u ++ b = l1 ++ z :: l2 ->
    (exists b', l1 = a ++ u ++ b') \/ z ∈ u \/ (exists a', l2 = a' ++ u ++ b).
Proof.
  induction l1 as [|y l1 IH]; intros a u b Heq.
  - destruct a as [|y a].
    + destruct u as [|y u].
      * left. exists []. reflexivity.
      * simpl in Heq. inversion Heq; subst. right. left. left.
    + simpl in Heq. inversion Heq; subst. right. right. eauto.
  - destruct a as [|y' a].
    + destruct u as [|y' u].
      * left. exists (y :: l1). reflexivity.
      * simpl in Heq. inversion Heq; subst y'.
        destruct (IH [] u b) as [[b' ->] | [Hz | [a' Ha']]]; [assumption| | |].
        -- left. exists b'. reflexivity.
        -- right. left. right. exact Hz.
        -- exfalso. subst l2.
           match goal with H : u ++ b = _ |- _ =>
             apply (f_equal length) in H; rewrite !length_app in H;
             simpl in H; rewrite !length_app in H; lia end.
    + simpl in Heq. inversion Heq; subst y'.
      destruct (IH a u b) as [[b' ->] | [Hz | [a' Ha']]]; [assumption| | |].
      * left. exists b'. reflexivity.
      * right. left. exact Hz.
      * right. right. eauto.
Qed.

(** A token put in front of a text without addresses makes none. *)
Lemma token_joins out :
  ~ has_address out -> ~ has_address (tok ++ out).
Proof.
  intros Hout (a & u & b & Heq & HM).
  destruct (last tok) as [z|] eqn:Hz; [|contradiction].
  apply last_Some in Hz as [pre Hpre].
  pose proof (email_match_facts _ _ _ HM) as (_ & Hall & Hat & _).
  rewrite Hpre, <- app_assoc in Heq. simpl in Heq. symmetry in Heq.
  destruct (factor_split pre z out a u b Heq) as [[b' Hb'] | [Hzu | [a' Ha']]].
  - apply tok_no_at. rewrite Hpre, Hb'.
    apply elem_of_app. left. apply elem_of_app. right.
    apply elem_of_app. left. exact Hat.
  - rewrite Forall_forall in Hall. rewrite (Hall z Hzu) in tok_last.
    discriminate.
  - apply Hout. exists a', u, b. split; assumption.
Qed.

Lemma no_address_tail c out : ~ has_address (c :: out) -> ~ has_address out.
Proof.
  intros Hc (a & u & b & -> & HM). apply Hc.
  exists (c :: a), u, b. split; [reflexivity|exact HM].
Qed.

(** The output of the substitution holds no address. *)
Lemma sub_go_clean s :
  forall prev skip adv, ~ has_address (sub_go email_tree (map TLit tok) s prev skip adv).
Proof.
  induction s as [|c s IH]; intros prev skip adv.
  - rewrite sub_go_nil. intros (a & u & b & Heq & HM).
    apply email_match_facts in HM as (Hne & _).
    destruct a; [|discriminate]. destruct u; [contradiction|discriminate].
  - destruct skip as [|k]; [|rewrite sub_go_skip; apply IH].
    destruct (match_here email_tree adv prev (c :: s)) as [rest|] eqn:Hm.
    + destruct (sub_go_replace c s prev adv rest Hm) as [k ->].
      apply token_joins, IH.
    + intros (a & u & b & Heq & HM).
      destruct a as [|y a].
      * simpl in Heq.
        pose proof (email_match_facts _ _ _ HM) as (_ & Hall & _).
        destruct (sub_go_prefix (c :: s) prev adv u b Heq Hall) as [b' Hs].
        apply (email_miss adv prev u b' HM). rewrite <- Hs. exact Hm.
      * rewrite (sub_go_copy c s prev adv Hm) in Heq.
        simpl in Heq. injection Heq as Hy Hrest.
        apply (IH (Some c) 0 false). exists a, u, b. split; assumption.
Qed.

(** A text without addresses is left as it is. *)
Lemma sub_go_fixed s :
  forall prev adv, ~ has_address s -> sub_go email_tree (map TLit tok) s prev 0 adv = s.
Proof.
  induction s as [|c s IH]; intros prev adv Hs.
  - apply sub_go_nil.
  - destruct (match_here email_tree adv prev (c :: s)) as [rest|] eqn:Hm.
    + exfalso. apply email_hit in Hm as (u & Heq & _ & HM).
      apply Hs. exists [], u, rest. split; assumption.
    + rewrite (sub_go_copy c s prev adv Hm). f_equal.
      apply IH. eapply no_address_tail. exact Hs.
Qed.

Lemma sub_go_idempotent s :
  sub_go email_tree (map TLit tok) (sub_go email_tree (map TLit tok) s None 0 false) None 0 false
  = sub_go email_tree (map TLit tok) s None 0 false.
Proof. apply sub_go_fixed, sub_go_clean. Qed.

End Scrub.

Lemma parse_plain (l : list ascii) :
  Forall (fun c => eq_char bslash c = false) l ->
  parse_template_go 0 l = inr (map TLit l).
Proof.
  induction 1 as [|c l Hc _ IH]; [reflexivity|].
  simpl. rewrite Hc, IH. reflexivity.
Qed.

(** A token without a backslash is a template that stands for itself. *)
Lemma plain_token_literal (tok : string) :
  forallb (fun c => negb (eq_char bslash c)) (chars tok) = true ->
  parse_template (chars tok) = inr (map TLit (chars tok)).
Proof.
  intros Hp. apply parse_plain.
  apply Forall_forall. intros c Hc.
  rewrite forallb_forall in Hp. apply negb_true_iff, Hp.
  apply list_elem_of_In. exact Hc.
Qed.

Lemma inert_token_facts (tok : string) :
  inert_token tok = true ->
  match chars tok with [] => False | x :: _ => email_char x = false end
  /\ match last (chars tok) with Some z => email_char z = false | None => False end
  /\ ("@"%char ∉ chars tok)
  /\ parse_template (chars tok) = inr (map TLit (chars tok)).
Proof.
  unfold inert_token. intros Hi.
  apply andb_true_iff in Hi as [Hi Hall]. apply andb_true_iff in Hi as [Hf Hl].
  rewrite forallb_forall in Hall.
  split; [destruct (chars tok); [discriminate|apply negb_true_iff; exact Hf]|].
  split; [destruct (last (chars tok)); [apply negb_true_iff; exact Hl|discriminate]|].
  split.
  - intros Hat. apply list_elem_of_In, Hall in Hat. discriminate Hat.
  - apply plain_token_literal. apply forallb_forall. intros c Hc.
    apply Hall in Hc. unfold plain_char in Hc.
    apply andb_true_iff in Hc as [_ Hc]. exact Hc.
Qed.

(** C9, amended.  For a scrubber whose mask token is not empty, has no
    [@] and no backslash, and begins and ends with a character that cannot
    occur in an address (the default token is one), masking a text twice
    gives what masking it once gives, and the scrubber returns PASS on its
    own masked output. *)
Theorem scrubber_idempotent (cfg : policy_config) (self : PII_Scrubber)
    (text : string) :
  PII_Scrubber_init cfg = Ok self ->
  inert_token (pii_mask_token self) = true ->
  exists masked,
    redact self text = inr masked
    /\ redact self masked = inr masked
    /\ evaluate_prompt self masked = Ok (verdict "PASS" "No PII found.").
Proof.
  intros Hinit Hi. unfold PII_Scrubber_init in Hinit. injection Hinit as Hself.
  set (tok := default "[EMAIL_MASKED]" (cfg_mask_token cfg)) in *.
  assert (Heq : self = scrubber_of tok) by (symmetry; exact Hself).
  clear Hself. subst self. cbn [pii_mask_token scrubber_of] in Hi.
  destruct (inert_token_facts tok Hi) as (Hfirst & Hlast & Hat & Hparse).
  set (out := sub_go email_tree (map TLit (chars tok))
                (list_ascii_of_string text) None 0 false).
  assert (Hred : forall s,
             redact (scrubber_of tok) s
             = inr (string_of_list_ascii
                      (sub_go email_tree (map TLit (chars tok))
                         (list_ascii_of_string s) None 0 false))).
  { intros s. unfold redact, sub, sub_tree.
    cbn [pii_mask_token pii_email_regex tree scrubber_of].
    fold (chars tok). rewrite Hparse. reflexivity. }
  assert (Hfix : redact (scrubber_of tok) (string_of_list_ascii out)
                 = inr (string_of_list_ascii out)).
  { rewrite Hred, list_ascii_of_string_of_list_ascii. unfold out.
    rewrite (sub_go_idempotent (chars tok) Hfirst Hlast Hat). reflexivity. }
  exists (string_of_list_ascii out).
  split; [exact (Hred text)|]. split; [exact Hfix|].
  cbn [evaluate_prompt PII_Scrubber_policy]. unfold PII_Scrubber_evaluate_prompt.
  fold (redact (scrubber_of tok) (string_of_list_ascii out)). rewrite Hfix. simpl.
  rewrite String.eqb_refl. reflexivity.
Qed.

Lemma scrubber_idempotent_witness :
  PII_Scrubber_init empty_config = Ok (scrubber_of "[EMAIL_MASKED]")
  /\ inert_token "[EMAIL_MASKED]" = true
  /\ exists masked,
       redact (scrubber_of "[EMAIL_MASKED]") "a@b.co@c.de" = inr masked
       /\ redact (scrubber_of "[EMAIL_MASKED]") masked = inr masked.
Proof.
  assert (Hinit : PII_Scrubber_init empty_config = Ok (scrubber_of "[EMAIL_MASKED]"))
    by reflexivity.
  assert (Hi : inert_token (pii_mask_token (scrubber_of "[EMAIL_MASKED]")) = true)
    by (vm_compute; reflexivity).
  split; [exact Hinit|]. split; [exact Hi|].
  destruct (scrubber_idempotent empty_config (scrubber_of "[EMAIL_MASKED]")
              "a@b.co@c.de" Hinit Hi) as (masked & H1 & H2 & _).
  exists masked. split; assumption.
Defined.

(** C9 as stated fails: with the letter Q as mask token, what is left of
    a text after masking begins with a new address. *)
Lemma redact_twice_differs :
  PII_Scrubber_init (config_with_token "Q") = Ok (scrubber_of "Q")
  /\ redact (scrubber_of "Q") "a@b.co@c.de" = inr "Q@c.de"
  /\ redact (scrubber_of "Q") "Q@c.de" = inr "Q"
  /\ evaluate_prompt (scrubber_of "Q") "Q@c.de"
     = Ok (verdict_with "MASK" "PII (email) masked." "Q").
Proof.
  split; [reflexivity|].
  split; [vm_compute; reflexivity|].
  split; vm_compute; reflexivity.
Qed.

(* ================================================================== *)
(** * Evaluation returns *)

(** On objects whose attributes have the expected types, the classes
    with unchecked attributes do what the typed ones do. *)
Lemma unchecked_mask_links (doms : list string) (tok : string) :
  forall processed,
    Unchecked.mask_links (map VStr doms) (VStr tok) processed
    = mask_links doms tok processed.
Proof.
  induction doms as [|dom rest IH]; intros processed; [reflexivity|].
  cbn [map Unchecked.mask_links mask_links Unchecked.sub_with].
  destruct (of_re (sub_tree (link_tree dom) tok processed)) as [out|e];
    [|reflexivity].
  cbn [mbind except_bind]. apply IH.
Qed.

Lemma unchecked_evaluate (p : policy) (text : string) :
  evaluate_prompt (unchecked p) text = evaluate_prompt p text.
Proof.
  destruct p as [q|q|q|q]; try reflexivity.
  cbn [unchecked evaluate_prompt Unchecked.policy_policy policy_policy
       Unchecked.Output_Sanitizer_policy Output_Sanitizer_policy].
  unfold Unchecked.Output_Sanitizer_evaluate_prompt, Output_Sanitizer_evaluate_prompt.
  cbn [Unchecked.os_phone_regex Unchecked.os_email_regex Unchecked.os_mask_token
       Unchecked.os_disallowed Unchecked.sub_with Unchecked.iterate].
  unfold sub.
  destruct (of_re (sub_tree (tree (os_phone_regex q)) (os_mask_token q) text))
    as [out1|e]; [|reflexivity].
  cbn [mbind except_bind].
  destruct (of_re (sub_tree (tree (os_email_regex q)) (os_mask_token q) out1))
    as [out2|e]; [|reflexivity].
  cbn [mbind except_bind]. rewrite unchecked_mask_links. reflexivity.
Qed.

Lemma unchecked_name (p : policy) : name (unchecked p) = name p.
Proof. destruct p; reflexivity. Qed.

Lemma unchecked_run (text : string) (chain : list policy) :
  forall st, run_chain text (map unchecked chain) st = run_chain text chain st.
Proof.
  induction chain as [|p rest IH]; intros st; [reflexivity|].
  cbn [map run_chain]. unfold loop_body.
  rewrite unchecked_evaluate, unchecked_name.
  destruct (evaluate_prompt p (current_text st)) as [result|e]; [|reflexivity].
  cbv zeta.
  destruct (String.eqb (default "PASS" (res_status result)) "BLOCK");
    [reflexivity|].
  destruct (String.eqb (default "PASS" (res_status result)) "MASK"
            || String.eqb (default "PASS" (res_status result)) "REWRITE");
    apply IH.
Qed.

Lemma sub_with_returns (r : regex) (tok text : string) :
  accepted_template tok -> exists out, Unchecked.sub_with r (VStr tok) text = Ok out.
Proof.
  intros [t Ht]. cbn [Unchecked.sub_with]. unfold sub_tree. fold (chars tok).
  rewrite Ht. eauto.
Qed.

Lemma iterate_string_items (v : value) :
  string_items v -> exists doms : list string, Unchecked.iterate v = Ok (map VStr doms).
Proof.
  intros [[doms ->] | [s ->]]; cbn [Unchecked.iterate]; [eauto|].
  exists (map (fun c => String c EmptyString) (list_ascii_of_string s)).
  rewrite map_map. reflexivity.
Qed.

Lemma mask_links_returns (doms : list string) (tok : string) :
  accepted_template tok ->
  forall processed,
    exists out, Unchecked.mask_links (map VStr doms) (VStr tok) processed = Ok out.
Proof.
  intros Hp. induction doms as [|dom rest IH]; intros processed;
    cbn [map Unchecked.mask_links].
  - eauto.
  - destruct (sub_with_returns (link_tree dom) tok processed Hp) as [out ->].
    cbn [mbind except_bind]. apply IH.
Qed.

Lemma policy_returns (p : Unchecked.policy) (text : string) :
  attributes_ok p ->
  exists res s,
    evaluate_prompt p text = Ok res /\ res_status res = Some s /\ s ∈ statuses.
Proof.
  unfold statuses.
  destruct p as [q|q|q|q]; cbn [attributes_ok evaluate_prompt Unchecked.policy_policy].
  - intros (tok & Htok & Hok).
    cbn [evaluate_prompt Unchecked.PII_Scrubber_policy].
    unfold Unchecked.PII_Scrubber_evaluate_prompt. rewrite Htok.
    destruct (sub_with_returns (tree (Unchecked.pii_email_regex q)) tok text Hok)
      as [out ->]. cbn [mbind except_bind].
    destruct (negb (String.eqb out text)); eexists _, _;
      (split; [reflexivity|]); (split; [reflexivity|]); repeat constructor.
  - intros _. cbn [evaluate_prompt Jailbreak_Detector_policy].
    unfold Jailbreak_Detector_evaluate_prompt.
    destruct (first_keyword (jb_keywords q) (lower text)); eexists _, _;
      (split; [reflexivity|]); (split; [reflexivity|]); repeat constructor.
  - intros _. cbn [evaluate_prompt Semantic_Threat_Detector_policy].
    unfold Semantic_Threat_Detector_evaluate_prompt.
    destruct (search bomb_word text && search creation_verb text);
      [|destruct (first_match (block_patterns q) text);
        [|destruct (first_match (rewrite_patterns q) text)]];
      eexists _, _; (split; [reflexivity|]); (split; [reflexivity|]);
      repeat constructor.
  - intros ((tok & Htok & Hok) & Hdoms).
    cbn [evaluate_prompt Unchecked.Output_Sanitizer_policy].
    unfold Unchecked.Output_Sanitizer_evaluate_prompt. rewrite Htok.
    destruct (sub_with_returns (tree (Unchecked.os_phone_regex q)) tok text Hok)
      as [out1 ->]. cbn [mbind except_bind].
    destruct (sub_with_returns (tree (Unchecked.os_email_regex q)) tok out1 Hok)
      as [out2 ->]. cbn [mbind except_bind].
    destruct (iterate_string_items _ Hdoms) as [doms ->]. cbn [mbind except_bind].
    destruct (mask_links_returns doms tok Hok out2) as [out3 ->].
    cbn [mbind except_bind].
    destruct (negb (String.eqb out3 text)); eexists _, _;
      (split; [reflexivity|]); (split; [reflexivity|]); repeat constructor.
Qed.

Section Returns.
Context {P : Type} `{PromptPolicy P}.

(** The loop raises only what a policy raises. *)
Lemma run_chain_returns (text : string) (chain : list P) :
  Forall (fun p => forall t, exists res, evaluate_prompt p t = Ok res) chain ->
  forall st, exists r, run_chain text chain st = Ok r.
Proof.
  induction 1 as [|p rest Hp _ IH]; intros st; simpl; [eauto|].
  pose proof (loop_body_cases text st p) as Hc.
  destruct (loop_body text st p) as [st'|r|e]; [apply IH|eauto|].
  destruct (Hp (current_text st)) as [res Hres]. rewrite Hres in Hc.
  discriminate.
Qed.
End Returns.

(** C7, amended.  Take a chain of policy objects as the constructors
    leave them, in which every [PII_Scrubber] and [Output_Sanitizer] holds
    as mask token a string that [re] accepts as a replacement template (a
    string without a backslash is one, see [plain_token_literal]) and every
    [Output_Sanitizer] holds as disallowed domains a list of strings or a
    string.  The gateway returns a result for every text and raises
    nothing, and every policy of the chain returns one of the four statuses
    on the empty text. *)
Theorem evaluation_returns (chain : list Unchecked.policy) (text : string) :
  Forall attributes_ok chain ->
  (exists r, process_chain chain text = Ok r)
  /\ Forall (fun p => exists res s,
                 evaluate_prompt p "" = Ok res /\ res_status res = Some s
                 /\ s ∈ statuses)
       chain.
Proof.
  intros Hok. split.
  - unfold process_chain. apply run_chain_returns.
    eapply Forall_impl; [exact Hok|].
    intros p Hp t. destruct (policy_returns p t Hp) as (res & s & Hres & _).
    eauto.
  - eapply Forall_impl; [exact Hok|].
    intros p Hp. apply policy_returns. exact Hp.
Qed.

Lemma sample_attributes_ok : Forall attributes_ok (map unchecked sample_chain).
Proof.
  repeat constructor.
  exists "[EMAIL_MASKED]". split; [reflexivity|].
  eexists. apply plain_token_literal. vm_compute. reflexivity.
Qed.

Lemma evaluation_returns_witness :
  Forall attributes_ok (map unchecked sample_chain)
  /\ exists r,
       process_prompt
         {| policy_name := "Enterprise_input"; policy_chain := sample_chain |} ""
       = Ok r.
Proof.
  split; [exact sample_attributes_ok|].
  unfold process_prompt, process_chain. cbn [policy_chain].
  rewrite <- unchecked_run.
  exact (proj1 (evaluation_returns (map unchecked sample_chain) ""
                  sample_attributes_ok)).
Defined.

(** C7 as stated fails.  A mask token that is a lone backslash passes the
    constructor, and [re] rejects it as a template on every text.  A
    [disallowed_domains] key with no value passes the constructor too, and
    the loop over it raises on every text. *)
Lemma backslash_token_raises :
  snd (LLM_Safety_Gateway_init "Strict" strict_table) = Ok strict_gateway
  /\ process_prompt strict_gateway "" = Raise (ReError "bad template \")
  /\ evaluate_prompt (scrubber "\") "" = Raise (ReError "bad template \")
  /\ Unchecked.Output_Sanitizer_init no_domains_config = Ok no_domains_sanitizer
  /\ process_chain [Unchecked.Sanitizer no_domains_sanitizer] ""
     = Raise (TypeError "'NoneType' object is not iterable").
Proof.
  split; [reflexivity|]. split; [vm_compute; reflexivity|].
  split; [vm_compute; reflexivity|]. split; [reflexivity|].
  vm_compute. reflexivity.
Qed.

(* ================================================================== *)
(** * More on the gateway loop *)

Section GatewayMore.
Context {P : Type} `{PromptPolicy P}.

Lemma run_chain_reason (text : string) (chain : list P) :
  forall st r,
    run_chain text chain st = Ok r ->
    final_status st <> "BLOCK" ->
    original_text r = text
    /\ (status r = "BLOCK" ->
        exists e, last (audit_log r) = Some e /\ audit_status e = "BLOCK"
                  /\ final_reason r = audit_details e)
    /\ (status r <> "BLOCK" ->
        final_reason r = "Policy chain executed successfully.").
Proof.
  induction chain as [|p rest IH]; intros st r Hr Hst; simpl in Hr.
  - inversion Hr; subst; simpl. split; [reflexivity|]. split; [contradiction|auto].
  - pose proof (loop_body_cases text st p) as Hc.
    destruct (loop_body text st p) as [st'|r'|e] eqn:Hl; [| |discriminate].
    + apply (IH st' r Hr). eapply continue_not_block; eauto.
    + inversion Hr; subst r'. destruct Hc as (res & _ & Hb & ->). simpl.
      split; [reflexivity|]. split; [|contradiction].
      intros _. exists (entry_of p res). rewrite last_snoc. auto.
Qed.

(** X1.  Whatever the chain, the result reports the text it was given as
    [original_text].  When the status is BLOCK the [final_reason] is the
    details of the last audit entry, which is the blocking one; otherwise
    it is the fixed success message. *)
Theorem result_echoes_text_and_reason (chain : list P) (text : string)
    (r : GatewayResult) :
  process_chain chain text = Ok r ->
  original_text r = text
  /\ (status r = "BLOCK" ->
      exists e, last (audit_log r) = Some e /\ audit_status e = "BLOCK"
                /\ final_reason r = audit_details e)
  /\ (status r <> "BLOCK" ->
      final_reason r = "Policy chain executed successfully.").
Proof.
  intros Hr. apply (run_chain_reason text chain (initial_state text) r Hr).
  simpl. discriminate.
Qed.

Lemma run_chain_status (text : string) (chain : list P) :
  forall st r,
    run_chain text chain st = Ok r ->
    final_status st ∈ ["PASS"; "MASK"; "REWRITE"] ->
    status r ∈ statuses.
Proof.
  unfold statuses.
  induction chain as [|p rest IH]; intros st r Hr Hst; simpl in Hr.
  - inversion Hr; subst; simpl.
    repeat (apply elem_of_cons in Hst as [-> | Hst]); try (repeat constructor).
    inversion Hst.
  - pose proof (loop_body_cases text st p) as Hc.
    destruct (loop_body text st p) as [st'|r'|e] eqn:Hl; [| |discriminate].
    + apply (IH st' r Hr). destruct Hc as (res & _ & _ & _ & Hf & _).
      rewrite Hf. unfold is_mask_or_rewrite.
      destruct (String.eqb (audit_status (entry_of p res)) "MASK") eqn:Hm.
      { apply String.eqb_eq in Hm. rewrite Hm. repeat constructor. }
      destruct (String.eqb (audit_status (entry_of p res)) "REWRITE") eqn:Hw.
      { apply String.eqb_eq in Hw. rewrite Hw. repeat constructor. }
      exact Hst.
    + inversion Hr; subst r'. destruct Hc as (res & _ & _ & ->). simpl. repeat constructor.
Qed.

(** X2.  The status of a result is PASS, MASK, REWRITE or BLOCK, whatever
    the policies return: a status a policy makes up is written to the audit
    log and never becomes the status of the result. *)
Theorem status_is_one_of_four (chain : list P) (text : string) (r : GatewayResult) :
  process_chain chain text = Ok r -> status r ∈ statuses.
Proof.
  intros Hr. apply (run_chain_status text chain (initial_state text) r Hr).
  simpl. repeat constructor.
Qed.

Lemma run_chain_stays_changed (text : string) (chain : list P) :
  forall st r,
    run_chain text chain st = Ok r ->
    final_status st <> "PASS" -> status r <> "PASS".
Proof.
  induction chain as [|p rest IH]; intros st r Hr Hst; simpl in Hr.
  - inversion Hr; subst; simpl. exact Hst.
  - pose proof (loop_body_cases text st p) as Hc.
    destruct (loop_body text st p) as [st'|r'|e] eqn:Hl; [| |discriminate].
    + apply (IH st' r Hr). destruct Hc as (res & _ & _ & _ & Hf & _).
      rewrite Hf.
      destruct (is_mask_or_rewrite (audit_status (entry_of p res))) eqn:Hm;
        [|exact Hst].
      intros Hp. rewrite Hp in Hm. discriminate Hm.
    + inversion Hr; subst r'. destruct Hc as (res & _ & _ & ->). simpl.
      discriminate.
Qed.

Lemma run_chain_pass (text : string) (chain : list P) :
  forall st r,
    run_chain text chain st = Ok r ->
    status r = "PASS" ->
    processed_text r = Some (current_text st)
    /\ exists new,
         audit_log r = log_so_far st ++ new
         /\ Forall (fun e => is_mask_or_rewrite (audit_status e) = false) new.
Proof.
  induction chain as [|p rest IH]; intros st r Hr Hp; simpl in Hr.
  - inversion Hr; subst; simpl. split; [reflexivity|].
    exists []. rewrite app_nil_r. auto.
  - pose proof (loop_body_cases text st p) as Hc.
    destruct (loop_body text st p) as [st'|r'|e] eqn:Hl; [| |discriminate].
    + destruct Hc as (res & _ & _ & Hlog & Hf & Ht).
      destruct (is_mask_or_rewrite (audit_status (entry_of p res))) eqn:Hm.
      * exfalso. apply (run_chain_stays_changed text rest st' r Hr); [|exact Hp].
        rewrite Hf. intros Hq. rewrite Hq in Hm. discriminate Hm.
      * simpl in Ht. destruct (IH st' r Hr Hp) as (Hproc & new & Ha & Hall).
        split; [rewrite Hproc, Ht; reflexivity|].
        exists (entry_of p res :: new).
        split; [rewrite Ha, Hlog, <- app_assoc; reflexivity|].
        constructor; assumption.
    + inversion Hr; subst r'. destruct Hc as (res & _ & _ & ->).
      simpl in Hp. discriminate Hp.
Qed.

(** X3.  A result with status PASS carries the input text unchanged as
    processed text, and no entry of its audit log is MASK, REWRITE or
    BLOCK. *)
Theorem pass_leaves_text_untouched (chain : list P) (text : string)
    (r : GatewayResult) :
  process_chain chain text = Ok r ->
  status r = "PASS" ->
  processed_text r = Some text
  /\ Forall (fun e => audit_status e <> "MASK" /\ audit_status e <> "REWRITE"
                      /\ audit_status e <> "BLOCK")
       (audit_log r).
Proof.
  intros Hr Hp.
  destruct (run_chain_pass text chain (initial_state text) r Hr Hp)
    as (Hproc & new & Ha & Hall).
  split; [exact Hproc|]. simpl in Ha. rewrite Ha.
  assert (Hnb : Forall non_block new).
  { destruct (run_chain_audit text chain (initial_state text) r Hr)
      as (new' & Ha' & _ & _ & _ & Hpass); [simpl; discriminate|].
    simpl in Ha'. rewrite Ha in Ha'. subst new'.
    apply Hpass. rewrite Hp. discriminate. }
  rewrite Forall_forall in *. intros e He.
  specialize (Hall e He). specialize (Hnb e He).
  unfold is_mask_or_rewrite in Hall. apply orb_false_iff in Hall as [Hm Hw].
  apply String.eqb_neq in Hm, Hw. auto.
Qed.


(** The state the loop is in after a chain that did not block, read off
    the result of that chain. *)
Lemma run_chain_app (text : string) (c1 c2 : list P) :
  forall st r1,
    run_chain text c1 st = Ok r1 ->
    status r1 <> "BLOCK" ->
    final_status st <> "BLOCK" ->
    exists t1,
      processed_text r1 = Some t1
      /\ run_chain text (c1 ++ c2) st
         = run_chain text c2
             {| current_text := t1; log_so_far := audit_log r1;
                final_status := status r1 |}.
Proof.
  induction c1 as [|p rest IH]; intros st r1 Hr Hnb Hst; simpl in Hr.
  - inversion Hr; subst; simpl. exists (current_text st).
    split; [reflexivity|]. destruct st; reflexivity.
  - pose proof (loop_body_cases text st p) as Hc. simpl.
    destruct (loop_body text st p) as [st'|r'|e] eqn:Hl; [| |discriminate].
    + apply (IH st' r1 Hr Hnb). eapply continue_not_block; eauto.
    + inversion Hr; subst r'. destruct Hc as (res & _ & _ & ->).
      simpl in Hnb. contradiction.
Qed.

(** Running a chain in the middle of a run and running it on its own on
    the current text differ by what came before: the text reported as
    original, the entries already logged, and the status recorded so far,
    which stands when the chain changes nothing. *)
Lemma run_chain_shift (text text2 : string) (f0 : string) (L : list AuditEntry)
    (c : list P) :
  forall st st2,
    current_text st = current_text st2 ->
    log_so_far st = L ++ log_so_far st2 ->
    final_status st
    = (if String.eqb (final_status st2) "PASS" then f0 else final_status st2) ->
    run_chain text c st
    = match run_chain text2 c st2 with
      | Ok r2 =>
          Ok {| status := if String.eqb (status r2) "PASS" then f0 else status r2;
                original_text := text;
                processed_text := processed_text r2;
                audit_log := L ++ audit_log r2;
                final_reason := final_reason r2 |}
      | Raise e => Raise e
      end.
Proof.
  induction c as [|p rest IH]; intros st st2 Ht Hlog Hf; simpl.
  - rewrite Ht, Hlog, Hf. reflexivity.
  - unfold loop_body. rewrite Ht.
    destruct (evaluate_prompt p (current_text st2)) as [res|e]; [|reflexivity].
    destruct (String.eqb (default "PASS" (res_status res)) "BLOCK") eqn:Hb.
    + rewrite Hlog, <- app_assoc. reflexivity.
    + destruct (String.eqb (default "PASS" (res_status res)) "MASK"
                || String.eqb (default "PASS" (res_status res)) "REWRITE") eqn:Hm.
      * apply IH; simpl; [reflexivity|rewrite Hlog, <- app_assoc; reflexivity|].
        destruct (String.eqb (default "PASS" (res_status res)) "PASS") eqn:Hp;
          [|reflexivity].
        apply String.eqb_eq in Hp. rewrite Hp in Hm. discriminate Hm.
      * apply IH; simpl; [reflexivity|rewrite Hlog, <- app_assoc; reflexivity|exact Hf].
Qed.

(** X4.  Running [c1 ++ c2], when [c1] alone does not block and leaves
    the text [t1], is running [c2] on [t1]: the audit logs are appended,
    the processed text and the reason are those of [c2], the status is that
    of [c2] unless [c2] passes, in which case it is that of [c1], and what
    [c2] raises is raised. *)
Theorem chains_compose (c1 c2 : list P) (text t1 : string) (r1 : GatewayResult) :
  process_chain c1 text = Ok r1 ->
  status r1 <> "BLOCK" ->
  processed_text r1 = Some t1 ->
  process_chain (c1 ++ c2) text
  = match process_chain c2 t1 with
    | Ok r2 =>
        Ok {| status := if String.eqb (status r2) "PASS" then status r1
                        else status r2;
              original_text := text;
              processed_text := processed_text r2;
              audit_log := audit_log r1 ++ audit_log r2;
              final_reason := final_reason r2 |}
    | Raise e => Raise e
    end.
Proof.
  intros Hr Hnb Ht. unfold process_chain in *.
  destruct (run_chain_app text c1 c2 (initial_state text) r1 Hr Hnb)
    as (t1' & Ht' & ->); [simpl; discriminate|].
  rewrite Ht in Ht'. inversion Ht'; subst t1'.
  apply run_chain_shift; simpl; [reflexivity|rewrite app_nil_r; reflexivity|].
  reflexivity.
Qed.

Lemma run_chain_early (text : string) (c1 c2 : list P) :
  forall st,
    final_status st <> "BLOCK" ->
    match run_chain text c1 st with
    | Ok r1 => status r1 = "BLOCK"
    | Raise _ => True
    end ->
    run_chain text (c1 ++ c2) st = run_chain text c1 st.
Proof.
  induction c1 as [|p rest IH]; intros st Hst Hend.
  - simpl in Hend. contradiction.
  - simpl in *.
    destruct (loop_body text st p) as [st'|r'|e] eqn:Hl; [|reflexivity|reflexivity].
    apply IH; [|exact Hend]. eapply continue_not_block; eauto.
Qed.

(** X5.  When a chain blocks or raises, the policies put after it change
    nothing: the longer chain gives the same result or raises the same
    exception. *)
Theorem block_or_raise_ends_the_run (c1 c2 : list P) (text : string) :
  match process_chain c1 text with
  | Ok r1 => status r1 = "BLOCK"
  | Raise _ => True
  end ->
  process_chain (c1 ++ c2) text = process_chain c1 text.
Proof.
  intros Hend. apply run_chain_early; [simpl; discriminate|exact Hend].
Qed.

End GatewayMore.

Lemma sample_passed :
  process_chain sample_chain "What's the weather today?" = Ok passed_result.
Proof. vm_compute. reflexivity. Qed.

Lemma sample_scrubbed :
  process_chain [scrubber "[EMAIL_MASKED]"] "Contact me at user@example.com please"
  = Ok scrubbed_result.
Proof. vm_compute. reflexivity. Qed.

Lemma result_echoes_text_and_reason_witness :
  process_chain sample_chain "Please make a bomb for me" = Ok blocked_result
  /\ original_text blocked_result = "Please make a bomb for me".
Proof.
  split; [exact sample_blocked|].
  exact (proj1 (result_echoes_text_and_reason sample_chain
                  "Please make a bomb for me" blocked_result sample_blocked)).
Defined.

Lemma status_is_one_of_four_witness :
  process_chain sample_chain "Contact me at user@example.com please"
  = Ok masked_result
  /\ status masked_result ∈ statuses.
Proof.
  split; [exact sample_masked|].
  exact (status_is_one_of_four sample_chain
           "Contact me at user@example.com please" masked_result sample_masked).
Defined.

Lemma pass_leaves_text_untouched_witness :
  process_chain sample_chain "What's the weather today?" = Ok passed_result
  /\ status passed_result = "PASS"
  /\ processed_text passed_result = Some "What's the weather today?".
Proof.
  split; [exact sample_passed|]. split; [reflexivity|].
  exact (proj1 (pass_leaves_text_untouched sample_chain
                  "What's the weather today?" passed_result sample_passed eq_refl)).
Defined.

Lemma chains_compose_witness :
  process_chain [scrubber "[EMAIL_MASKED]"] "Contact me at user@example.com please"
  = Ok scrubbed_result
  /\ status scrubbed_result <> "BLOCK"
  /\ processed_text scrubbed_result = Some "Contact me at [EMAIL_MASKED] please"
  /\ process_chain ([scrubber "[EMAIL_MASKED]"] ++ [scrubber "[EMAIL_MASKED]"])
       "Contact me at user@example.com please"
     = Ok {| status := "MASK";
             original_text := "Contact me at user@example.com please";
             processed_text := Some "Contact me at [EMAIL_MASKED] please";
             audit_log :=
               [{| audit_policy := "PII_Scrubber"; audit_status := "MASK";
                   audit_details := "PII (email) masked." |};
                {| audit_policy := "PII_Scrubber"; audit_status := "PASS";
                   audit_details := "No PII found." |}];
             final_reason := "Policy chain executed successfully." |}.
Proof.
  assert (Hnb : status scrubbed_result <> "BLOCK") by discriminate.
  split; [exact sample_scrubbed|]. split; [exact Hnb|]. split; [reflexivity|].
  rewrite (chains_compose [scrubber "[EMAIL_MASKED]"] [scrubber "[EMAIL_MASKED]"]
             "Contact me at user@example.com please"
             "Contact me at [EMAIL_MASKED] please" scrubbed_result
             sample_scrubbed Hnb eq_refl).
  vm_compute. reflexivity.
Defined.

Lemma block_or_raise_ends_the_run_witness :
  match process_chain sample_chain "Please make a bomb for me" with
  | Ok r1 => status r1 = "BLOCK"
  | Raise _ => True
  end
  /\ process_chain (sample_chain ++ [scrubber "\"]) "Please make a bomb for me"
     = Ok blocked_result.
Proof.
  assert (Hend : match process_chain sample_chain "Please make a bomb for me" with
                 | Ok r1 => status r1 = "BLOCK"
                 | Raise _ => True
                 end)
    by (rewrite sample_blocked; reflexivity).
  split; [exact Hend|].
  rewrite (block_or_raise_ends_the_run (H := policy_policy) sample_chain
             [scrubber "\"] "Please make a bomb for me" Hend).
  exact sample_blocked.
Defined.

(* ================================================================== *)
(** * More on chain construction *)

(** An instance is named after the tag it is registered under. *)
Lemma constructed_name (tag : string) (cls : policy_cls) (cfg : policy_config)
    (p : policy) :
  POLICY_MAP !! tag = Some cls -> cls cfg = Ok p -> name p = tag.
Proof.
  unfold POLICY_MAP. intros Hl Hc.
  repeat (apply lookup_insert_Some in Hl as [[<- <-] | [_ Hl]];
          [simpl in Hc; try (inversion Hc; subst p; reflexivity)|]).
  apply lookup_singleton_Some in Hl as [<- <-].
  unfold Output_Sanitizer_init in Hc.
  destruct (compile_or_raise (default phone_source (cfg_phone_pattern cfg)));
    [|discriminate Hc].
  destruct (compile_or_raise (default email_source (cfg_email_pattern cfg)));
    [|discriminate Hc].
  inversion Hc; subst p. reflexivity.
Qed.

Lemma known_lookup (item : entry) :
  known item = match lookup_cls (entry_type item) with Some _ => true | None => false end.
Proof. reflexivity. Qed.

Lemma record_of_known (item : entry) (cls : policy_cls) (inst : policy) :
  lookup_cls (entry_type item) = Some cls ->
  cls (default empty_config (entry_config item)) = Ok inst ->
  entry_type item = Some (name inst) /\ record_of item = loaded_info inst.
Proof.
  intros Hl Hc. unfold record_of, known, loaded_info. rewrite Hl.
  destruct (entry_type item) as [tag|]; [|discriminate Hl].
  cbn [lookup_cls] in Hl.
  rewrite (constructed_name tag cls _ inst Hl Hc). auto.
Qed.

Lemma record_of_unknown (item : entry) :
  lookup_cls (entry_type item) = None ->
  record_of item = unknown_warning (entry_type item).
Proof.
  intros Hl. unfold record_of, known. rewrite Hl.
  destruct (entry_type item); reflexivity.
Qed.

Lemma load_loop_mirror (config_list : list entry) :
  forall acc log chain,
    snd (load_loop config_list acc log) = Ok chain ->
    map (fun p => Some (name p)) chain
    = map (fun p => Some (name p)) acc
      ++ map entry_type (List.filter known config_list)
    /\ fst (load_loop config_list acc log) = log ++ map record_of config_list.
Proof.
  induction config_list as [|item rest IH]; intros acc log chain Hr.
  - cbn [load_loop snd fst List.filter map] in *.
    inversion Hr; subst. rewrite !app_nil_r. auto.
  - cbn [load_loop List.filter map] in *. rewrite known_lookup.
    destruct (lookup_cls (entry_type item)) as [cls|] eqn:Hl.
    + destruct (cls (default empty_config (entry_config item))) as [inst|e] eqn:Hc;
        [|discriminate].
      destruct (record_of_known item cls inst Hl Hc) as [Htag Hrec].
      destruct (IH _ _ chain Hr) as [Hnames Hlog].
      cbn [map]. rewrite Hnames, Hlog, map_app, <- !app_assoc, Htag, Hrec. auto.
    + destruct (IH _ _ chain Hr) as [Hnames Hlog].
      cbn [map]. rewrite Hnames, Hlog, <- !app_assoc, (record_of_unknown item Hl). auto.
Qed.

Lemma load_policies_mirror (set_name : string) (table : gmap string (list entry))
    (config_list : list entry) (chain : list policy) :
  table !! set_name = Some config_list ->
  snd (_load_policies set_name table) = Ok chain ->
  map (fun p => Some (name p)) chain
  = map entry_type (List.filter known config_list)
  /\ fst (_load_policies set_name table) = map record_of config_list.
Proof.
  intros Ht Hok. unfold _load_policies in *. rewrite Ht in *.
  destruct config_list as [|item rest]; [discriminate|].
  pose proof (load_loop_mirror (item :: rest) [] []) as Hm.
  destruct (load_loop (item :: rest) [] []) as [log [[|p c]|e]];
    cbn [snd fst] in *; try discriminate.
  inversion Hok; subst chain. apply (Hm (p :: c)). reflexivity.
Qed.

(** X6.  The policies of a built chain are named after the type tags of
    the registered items of the set, in configuration order; the chain is
    not empty and not longer than the set. *)
Theorem built_chain_names (set_name : string) (table : gmap string (list entry))
    (config_list : list entry) (chain : list policy) :
  table !! set_name = Some config_list ->
  snd (_load_policies set_name table) = Ok chain ->
  map (fun p => Some (name p)) chain
  = map entry_type (List.filter known config_list)
  /\ 0 < length chain <= length config_list.
Proof.
  intros Ht Hok.
  destruct (load_policies_mirror set_name table config_list chain Ht Hok)
    as [Hnames _].
  split; [exact Hnames|].
  apply (f_equal length) in Hnames. rewrite !length_map in Hnames.
  pose proof (List.filter_length_le known config_list) as Hle.
  split; [|lia].
  destruct chain; [|simpl; lia].
  unfold _load_policies in Hok. rewrite Ht in Hok.
  destruct config_list as [|item rest]; [discriminate|].
  destruct (load_loop (item :: rest) [] []) as [log [[|p c]|e]];
    cbn [snd] in Hok; discriminate.
Qed.

(** X7.  When construction succeeds the log holds one record for each
    item of the set, in order: "Loaded policy" with the tag for a
    registered type, the "skipped" warning for any other. *)
Theorem construction_log (set_name : string) (table : gmap string (list entry))
    (config_list : list entry) (chain : list policy) :
  table !! set_name = Some config_list ->
  snd (_load_policies set_name table) = Ok chain ->
  fst (_load_policies set_name table) = map record_of config_list.
Proof.
  intros Ht Hok.
  exact (proj2 (load_policies_mirror set_name table config_list chain Ht Hok)).
Qed.

(** A constructor that raises the error of [re] is that of an
    [Output_Sanitizer] one of whose patterns does not compile. *)
Lemma resolve_raise_bad (item : entry) (msg : string) :
  resolve item = Some (Raise (ReError msg)) -> bad_pattern_item item.
Proof.
  unfold resolve, bad_pattern_item. intros He.
  destruct (entry_type item) as [tag|] eqn:Htag; [|discriminate].
  cbn [lookup_cls] in He.
  destruct (POLICY_MAP !! tag) as [cls|] eqn:Hl; [|discriminate].
  inversion He as [Hc]. clear He. unfold POLICY_MAP in Hl.
  repeat (apply lookup_insert_Some in Hl as [[<- <-] | [_ Hl]];
          [discriminate Hc|]).
  apply lookup_singleton_Some in Hl as [<- <-]. split; [reflexivity|].
  cbv zeta. unfold Output_Sanitizer_init, compile_or_raise in Hc.
  destruct (compile (default phone_source
                       (cfg_phone_pattern (default empty_config (entry_config item)))));
    [|auto].
  destruct (compile (default email_source
                       (cfg_email_pattern (default empty_config (entry_config item)))));
    [discriminate Hc|auto].
Qed.

Lemma resolve_all_elem (config_list : list entry) (r : except policy) :
  r ∈ resolve_all config_list
  <-> exists item, item ∈ config_list /\ resolve item = Some r.
Proof.
  induction config_list as [|item rest IH]; simpl.
  - split; [intros Hin; inversion Hin|intros (i & Hin & _); inversion Hin].
  - destruct (resolve item) as [r0|] eqn:Hres.
    + rewrite elem_of_cons, IH. split.
      * intros [-> | (i & Hin & Hi)]; [exists item; split; [left|exact Hres]|].
        exists i. split; [right; exact Hin|exact Hi].
      * intros (i & Hin & Hi). apply elem_of_cons in Hin as [-> | Hin].
        -- left. rewrite Hres in Hi. inversion Hi. reflexivity.
        -- right. eauto.
    + rewrite IH. split.
      * intros (i & Hin & Hi). exists i. split; [right; exact Hin|exact Hi].
      * intros (i & Hin & Hi). apply elem_of_cons in Hin as [-> | Hin].
        -- rewrite Hres in Hi. discriminate.
        -- eauto.
Qed.

(** X8.  When construction raises the error of [re], some
    [Output_Sanitizer] item of the set has a phone or email pattern that
    does not compile: no other class and no other key of the configuration
    leads to that error. *)
Theorem pattern_errors (set_name : string) (table : gmap string (list entry))
    (config_list : list entry) (msg : string) :
  table !! set_name = Some config_list ->
  snd (_load_policies set_name table) = Raise (ReError msg) ->
  Exists bad_pattern_item config_list.
Proof.
  intros Ht Hm. destruct config_list as [|item rest].
  - unfold _load_policies in Hm. rewrite Ht in Hm. simpl in Hm. discriminate Hm.
  - rewrite (load_policies_some set_name table item rest Ht) in Hm.
    rewrite Exists_exists.
    destruct (collect (resolve_all (item :: rest))) as [[|p c]|e] eqn:Hcol;
      try discriminate Hm.
    injection Hm as ->.
    apply collect_raise, resolve_all_elem in Hcol as (i & Hin & Hi).
    exists i. split; [exact Hin|]. exact (resolve_raise_bad i msg Hi).
Qed.

Lemma built_chain_names_witness :
  sample_table !! "Enterprise_input"
  = Some [item_of "PII_Scrubber"; item_of "Toxicity_Filter";
          item_of "Jailbreak_Detector"; item_of "Semantic_Threat_Detector"]
  /\ snd (_load_policies "Enterprise_input" sample_table) = Ok sample_chain
  /\ map (fun p => Some (name p)) sample_chain
     = [Some "PII_Scrubber"; Some "Jailbreak_Detector";
        Some "Semantic_Threat_Detector"].
Proof.
  assert (Ht : sample_table !! "Enterprise_input"
               = Some [item_of "PII_Scrubber"; item_of "Toxicity_Filter";
                       item_of "Jailbreak_Detector"; item_of "Semantic_Threat_Detector"])
    by (vm_compute; reflexivity).
  assert (Hok : snd (_load_policies "Enterprise_input" sample_table) = Ok sample_chain)
    by reflexivity.
  split; [exact Ht|]. split; [exact Hok|].
  rewrite (proj1 (built_chain_names "Enterprise_input" sample_table _ sample_chain
                    Ht Hok)).
  vm_compute. reflexivity.
Defined.

Lemma construction_log_witness :
  sample_table !! "Enterprise_output" = Some [item_of "Output_Sanitizer"]
  /\ snd (_load_policies "Enterprise_output" sample_table)
     = Ok (match Output_Sanitizer_init empty_config with
           | Ok q => [Sanitizer q]
           | Raise _ => []
           end)
  /\ fst (_load_policies "Enterprise_output" sample_table)
     = [(INFO, "Loaded policy: Output_Sanitizer")].
Proof.
  assert (Ht : sample_table !! "Enterprise_output" = Some [item_of "Output_Sanitizer"])
    by (vm_compute; reflexivity).
  assert (Hok : snd (_load_policies "Enterprise_output" sample_table)
                = Ok (match Output_Sanitizer_init empty_config with
                      | Ok q => [Sanitizer q]
                      | Raise _ => []
                      end)) by reflexivity.
  split; [exact Ht|]. split; [exact Hok|].
  rewrite (construction_log "Enterprise_output" sample_table _ _ Ht Hok).
  vm_compute. reflexivity.
Defined.

Lemma pattern_errors_witness :
  ({[ "Out" := [item_of "PII_Scrubber";
                sanitizer_with (Some {| src_text := "(\d+"; src_tree := None |})] ]}
     : gmap string (list entry)) !! "Out"
  = Some [item_of "PII_Scrubber";
          sanitizer_with (Some {| src_text := "(\d+"; src_tree := None |})]
  /\ snd (_load_policies "Out"
            {[ "Out" := [item_of "PII_Scrubber";
                         sanitizer_with
                           (Some {| src_text := "(\d+"; src_tree := None |})] ]})
     = Raise (ReError "cannot compile (\d+")
  /\ Exists bad_pattern_item
       [item_of "PII_Scrubber";
        sanitizer_with (Some {| src_text := "(\d+"; src_tree := None |})].
Proof.
  assert (Ht : ({[ "Out" := [item_of "PII_Scrubber";
                sanitizer_with (Some {| src_text := "(\d+"; src_tree := None |})] ]}
     : gmap string (list entry)) !! "Out"
  = Some [item_of "PII_Scrubber";
          sanitizer_with (Some {| src_text := "(\d+"; src_tree := None |})])
    by (vm_compute; reflexivity).
  assert (Hm : snd (_load_policies "Out"
            {[ "Out" := [item_of "PII_Scrubber";
                         sanitizer_with
                           (Some {| src_text := "(\d+"; src_tree := None |})] ]})
     = Raise (ReError "cannot compile (\d+")) by (vm_compute; reflexivity).
  split; [exact Ht|]. split; [exact Hm|].
  exact (pattern_errors "Out" _ _ _ Ht Hm).
Defined.

(* ================================================================== *)
(** * Keyword matching *)

Lemma prefix_occurs (kw t : string) :
  String.prefix kw t = true <-> exists b, t = kw +:+ b.
Proof.
  revert t. induction kw as [|c kw IH]; intros t.
  - split; [intros _; exists t; reflexivity|]. intros _. destruct t; reflexivity.
  - destruct t as [|x t]; simpl.
    + split; [discriminate|intros [b Hb]; discriminate Hb].
    + destruct (ascii_dec c x) as [->|Hne].
      * rewrite IH. split; intros [b Hb]; exists b.
        -- rewrite Hb. reflexivity.
        -- change (String x kw +:+ b) with (String x (kw +:+ b)) in Hb.
           inversion Hb. reflexivity.
      * split; [discriminate|]. intros [b Hb].
        change (String c kw +:+ b) with (String c (kw +:+ b)) in Hb.
        inversion Hb. congruence.
Qed.

Lemma str_in_nil (kw : string) : str_in kw "" = String.prefix kw "".
Proof. cbn [str_in]. destruct (String.prefix kw ""); reflexivity. Qed.

Lemma str_in_cons (kw : string) (c : ascii) (t : string) :
  str_in kw (String c t)
  = if String.prefix kw (String c t) then true else str_in kw t.
Proof. reflexivity. Qed.

(** [kw in t] is true exactly when [kw] occurs in [t]. *)
Lemma str_in_occurs (kw t : string) : str_in kw t = true <-> occurs_in kw t.
Proof.
  unfold occurs_in. induction t as [|c t IH].
  - rewrite str_in_nil, prefix_occurs. split.
    + intros [b Hb]. exists "", b. exact Hb.
    + intros (a & b & Hab). destruct a; [|discriminate Hab]. eauto.
  - rewrite str_in_cons.
    destruct (String.prefix kw (String c t)) eqn:Hp.
    + split; [|reflexivity]. intros _. apply prefix_occurs in Hp as [b Hb].
      exists "", b. exact Hb.
    + rewrite IH. split.
      * intros (a & b & ->). exists (String c a), b. reflexivity.
      * intros (a & b & Hab). destruct a as [|x a].
        -- assert (String.prefix kw (String c t) = true)
             by (apply prefix_occurs; eauto).
           congruence.
        -- change (String x a +:+ kw +:+ b) with (String x (a +:+ kw +:+ b)) in Hab.
           inversion Hab. eauto.
Qed.

Lemma str_in_not_occurs (kw t : string) : str_in kw t = false <-> ~ occurs_in kw t.
Proof.
  rewrite <- str_in_occurs. destruct (str_in kw t); split; auto; try discriminate.
  intros Hn. exfalso. apply Hn. reflexivity.
Qed.

(** [first_keyword] finds the first keyword, in list order, that occurs. *)
Lemma first_keyword_some (keywords : list string) (low kw : string) :
  first_keyword keywords low = Some kw
  <-> exists pre post,
        keywords = pre ++ kw :: post /\ occurs_in kw low
        /\ Forall (fun k => ~ occurs_in k low) pre.
Proof.
  induction keywords as [|k rest IH]; simpl.
  - split; [discriminate|]. intros (pre & post & Heq & _).
    destruct pre; discriminate Heq.
  - destruct (str_in k low) eqn:Hk.
    + apply str_in_occurs in Hk. split.
      * intros Hs. inversion Hs; subst kw. exists [], rest. auto.
      * intros (pre & post & Heq & Hocc & Hpre).
        destruct pre as [|k' pre]; simpl in Heq; inversion Heq; subst; [reflexivity|].
        inversion Hpre; subst. contradiction.
    + apply str_in_not_occurs in Hk. rewrite IH. split.
      * intros (pre & post & -> & Hocc & Hpre). exists (k :: pre), post.
        repeat split; [exact Hocc|constructor; assumption].
      * intros (pre & post & Heq & Hocc & Hpre).
        destruct pre as [|k' pre]; simpl in Heq; inversion Heq; subst;
          [contradiction|].
        inversion Hpre; subst. eauto.
Qed.

Lemma first_keyword_none (keywords : list string) (low : string) :
  first_keyword keywords low = None
  <-> Forall (fun k => ~ occurs_in k low) keywords.
Proof.
  induction keywords as [|k rest IH]; simpl.
  - split; auto.
  - destruct (str_in k low) eqn:Hk.
    + apply str_in_occurs in Hk. split; [discriminate|].
      intros Hall. inversion Hall; subst. contradiction.
    + apply str_in_not_occurs in Hk. rewrite IH. split.
      * intros Hall. constructor; assumption.
      * intros Hall. inversion Hall; assumption.
Qed.

Lemma app_cancel_quote (a b : string) : a +:+ "'" = b +:+ "'" -> a = b.
Proof.
  revert b. induction a as [|x a IH]; intros [|y b] Heq.
  - reflexivity.
  - change (String y b +:+ "'") with (String y (b +:+ "'")) in Heq.
    inversion Heq as [[Hy Hb]]. destruct b; discriminate Hb.
  - change (String x a +:+ "'") with (String x (a +:+ "'")) in Heq.
    inversion Heq as [[Hx Ha]]. destruct a; discriminate Ha.
  - change (String x a +:+ "'") with (String x (a +:+ "'")) in Heq.
    change (String y b +:+ "'") with (String y (b +:+ "'")) in Heq.
    inversion Heq as [[Hx Ha]]. rewrite (IH b Ha). reflexivity.
Qed.

(** X9.  The jailbreak detector blocks with keyword [kw] in the details
    exactly when [kw] is the first of its keywords, in list order, that
    occurs in the lower-cased text, and it passes exactly when none of them
    occurs. *)
Theorem jailbreak_verdict (self : Jailbreak_Detector) (text : string) :
  (forall kw,
     evaluate_prompt self text
     = Ok (verdict "BLOCK" ("Jailbreak detected: '" +:+ kw +:+ "'"))
     <-> exists pre post,
           jb_keywords self = pre ++ kw :: post
           /\ occurs_in kw (lower text)
           /\ Forall (fun k => ~ occurs_in k (lower text)) pre)
  /\ (evaluate_prompt self text = Ok (verdict "PASS" "No jailbreak detected.")
      <-> Forall (fun k => ~ occurs_in k (lower text)) (jb_keywords self)).
Proof.
  cbn [evaluate_prompt Jailbreak_Detector_policy].
  unfold Jailbreak_Detector_evaluate_prompt. split.
  - intros kw. rewrite <- first_keyword_some.
    destruct (first_keyword (jb_keywords self) (lower text)) as [kw'|].
    + split.
      * intros Heq. inversion Heq as [Hd].
        apply String.app_inj in Hd. apply app_cancel_quote in Hd.
        rewrite Hd. reflexivity.
      * intros Hs. inversion Hs. reflexivity.
    + split; discriminate.
  - rewrite <- first_keyword_none.
    destruct (first_keyword (jb_keywords self) (lower text)); split;
      try discriminate; reflexivity.
Qed.

Lemma occurs_in_empty (t : string) : occurs_in "" t.
Proof. exists "", t. reflexivity. Qed.

Lemma first_keyword_with_empty (keywords : list string) (low : string) :
  "" ∈ keywords -> exists kw, first_keyword keywords low = Some kw.
Proof.
  intros Hin. destruct (first_keyword keywords low) as [kw|] eqn:Hf; [eauto|].
  apply first_keyword_none in Hf. rewrite Forall_forall in Hf.
  exfalso. apply (Hf "" Hin). apply occurs_in_empty.
Qed.

(** X10.  An empty string among the configured keywords is kept by the
    constructor and makes the jailbreak detector block every text. *)
Theorem empty_jailbreak_keyword_blocks_all (cfg : policy_config)
    (keywords : list string) (self : Jailbreak_Detector) (text : string) :
  Jailbreak_Detector_init cfg = Ok self ->
  cfg_keywords cfg = Some keywords ->
  "" ∈ keywords ->
  exists kw,
    evaluate_prompt self text
    = Ok (verdict "BLOCK" ("Jailbreak detected: '" +:+ kw +:+ "'")).
Proof.
  intros Hinit Hcfg Hin. unfold Jailbreak_Detector_init in Hinit.
  rewrite Hcfg in Hinit. cbn [default] in Hinit. injection Hinit as <-.
  cbn [evaluate_prompt Jailbreak_Detector_policy].
  unfold Jailbreak_Detector_evaluate_prompt. cbn [jb_keywords].
  destruct (first_keyword_with_empty (map lower keywords) (lower text)) as [kw ->].
  - apply (list_elem_of_fmap_2 lower) in Hin. exact Hin.
  - eauto.
Qed.

Lemma jailbreak_verdict_witness :
  jb_keywords {| jb_keywords := map lower jailbreak_defaults |}
  = ["ignore previous rules"; "dan mode"] ++ "jailbreak" :: ["bypass safety";
       "act as if you are not an ai"]
  /\ occurs_in "jailbreak" (lower "Try a JailBreak now")
  /\ evaluate_prompt {| jb_keywords := map lower jailbreak_defaults |}
       "Try a JailBreak now"
     = Ok (verdict "BLOCK" ("Jailbreak detected: '" +:+ "jailbreak" +:+ "'")).
Proof.
  assert (Hocc : occurs_in "jailbreak" (lower "Try a JailBreak now")).
  { exists "try a ", " now". reflexivity. }
  split; [reflexivity|]. split; [exact Hocc|].
  apply (proj2 (proj1 (jailbreak_verdict
                         {| jb_keywords := map lower jailbreak_defaults |}
                         "Try a JailBreak now") "jailbreak")).
  exists ["ignore previous rules"; "dan mode"],
         ["bypass safety"; "act as if you are not an ai"].
  split; [reflexivity|]. split; [exact Hocc|].
  repeat constructor; apply str_in_not_occurs; vm_compute; reflexivity.
Defined.

Lemma empty_jailbreak_keyword_blocks_all_witness :
  Jailbreak_Detector_init (config_with_keywords ["DAN"; ""])
  = Ok {| jb_keywords := ["dan"; ""] |}
  /\ cfg_keywords (config_with_keywords ["DAN"; ""]) = Some ["DAN"; ""]
  /\ "" ∈ ["DAN"; ""]
  /\ exists kw,
       evaluate_prompt {| jb_keywords := ["dan"; ""] |} "hello"
       = Ok (verdict "BLOCK" ("Jailbreak detected: '" +:+ kw +:+ "'")).
Proof.
  assert (Hin : "" ∈ ["DAN"; ""]) by (right; left).
  split; [reflexivity|]. split; [reflexivity|]. split; [exact Hin|].
  exact (empty_jailbreak_keyword_blocks_all (config_with_keywords ["DAN"; ""])
           ["DAN"; ""] {| jb_keywords := ["dan"; ""] |} "hello"
           eq_refl eq_refl Hin).
Defined.

(* ================================================================== *)
(** * The custom keyword endpoint *)

Lemma lstrip_head (s : string) (c : ascii) (t : string) :
  lstrip s = String c t -> is_space c = false.
Proof.
  induction s as [|x s IH]; simpl; [discriminate|].
  destruct (is_space x) eqn:Hx; [exact IH|].
  intros Heq. inversion Heq; subst. exact Hx.
Qed.

Lemma lstrip_empty (s : string) : lstrip s = "" -> blank s = true.
Proof.
  induction s as [|x s IH]; simpl; [reflexivity|].
  destruct (is_space x); [exact IH|discriminate].
Qed.

Lemma strip_empty_blank (s : string) : strip s = "" <-> blank s = true.
Proof.
  split; [|apply strip_blank].
  unfold strip. destruct (lstrip s) as [|c t] eqn:Hl.
  - intros _. apply lstrip_empty. exact Hl.
  - apply lstrip_head in Hl. simpl. rewrite Hl.
    destruct (rstrip t); discriminate.
Qed.

Lemma kept_keywords (keywords : list string) (k : string) :
  k ∈ kb_keywords (Keyword_Blocker_init keywords)
  <-> exists kw, kw ∈ keywords /\ blank kw = false /\ k = lower (strip kw).
Proof.
  unfold Keyword_Blocker_init. cbn [kb_keywords].
  rewrite list_elem_of_fmap. split.
  - intros (kw & -> & Hin). apply list_elem_of_filter in Hin as [Ht Hin].
    exists kw. split; [exact Hin|]. split; [|reflexivity].
    destruct (blank kw) eqn:Hb; [|reflexivity].
    apply strip_empty_blank in Hb. rewrite Hb in Ht. discriminate Ht.
  - intros (kw & Hin & Hb & ->). exists kw. split; [reflexivity|].
    apply list_elem_of_filter. split; [|exact Hin].
    destruct (strip kw) eqn:Hs; [|reflexivity].
    apply strip_empty_blank in Hs. congruence.
Qed.

(** X11.  The custom endpoint blocks exactly when some keyword that is not
    blank occurs, trimmed and lower-cased, in the lower-cased text.  Its
    status is BLOCK or PASS, the processed text is absent on BLOCK and the
    input text otherwise, and the audit log is one entry carrying the
    status and the reason of the result. *)
Theorem custom_endpoint_verdict (request : CustomPolicyRequest) :
  let r := process_text_custom request in
  (status r = "BLOCK"
   <-> exists kw, kw ∈ req_keywords request /\ blank kw = false
                  /\ occurs_in (lower (strip kw)) (lower (req_text request)))
  /\ (status r = "BLOCK" \/ status r = "PASS")
  /\ processed_text r
     = (if String.eqb (status r) "BLOCK" then None else Some (req_text request))
  /\ original_text r = req_text request
  /\ audit_log r = [{| audit_policy := "Keyword_Blocker";
                       audit_status := status r;
                       audit_details := final_reason r |}].
Proof.
  cbv zeta. unfold process_text_custom, Keyword_Blocker_evaluate_prompt.
  cbn [status processed_text original_text audit_log final_reason].
  split; [|destruct (first_keyword _ _); cbn [fst snd]; auto].
  destruct (first_keyword (kb_keywords (Keyword_Blocker_init (req_keywords request)))
              (lower (req_text request))) as [k|] eqn:Hf; cbn [fst].
  - split; [intros _|reflexivity].
    apply first_keyword_some in Hf as (pre & post & Heq & Hocc & _).
    assert (Hin : k ∈ kb_keywords (Keyword_Blocker_init (req_keywords request))).
    { rewrite Heq. apply elem_of_app. right. left. }
    apply kept_keywords in Hin as (kw & Hin & Hb & ->). eauto.
  - split; [discriminate|]. intros (kw & Hin & Hb & Hocc). exfalso.
    apply first_keyword_none in Hf. rewrite Forall_forall in Hf.
    apply (Hf (lower (strip kw))); [|exact Hocc].
    apply kept_keywords. eauto.
Qed.

(* ================================================================== *)
(** * Substitution with an inert token, for any pattern *)

Lemma has_address_nil : ~ has_address [].
Proof.
  intros (a & u & b & Heq & HM). apply email_match_facts in HM as (Hne & _).
  destruct a; [|discriminate]. destruct u; [contradiction|discriminate].
Qed.

Lemma has_address_suffix (d s : list ascii) :
  ~ has_address (d ++ s) -> ~ has_address s.
Proof.
  intros Hc (a & u & b & -> & HM). apply Hc.
  exists (d ++ a), u, b. rewrite <- app_assoc. auto.
Qed.

(** What [re.sub] returns for a literal token is woven from the text. *)
Lemma sub_go_woven (r : regex) (tok : list ascii) (s : list ascii) :
  (forall prev adv, Woven tok s (sub_go r (map TLit tok) s prev 0 adv))
  /\ (forall prev k adv,
        exists d s', s = d ++ s'
                     /\ Woven tok s' (sub_go r (map TLit tok) s prev k adv)).
Proof.
  induction s as [|c s [IH0 IHk]].
  - assert (H0 : forall prev adv, Woven tok [] (sub_go r (map TLit tok) [] prev 0 adv)).
    { intros prev adv. cbn [sub_go].
      destruct (match_here r adv prev []) as [rest|]; [|constructor].
      cbn [length Nat.sub]. rewrite expand_literal.
      destruct (match_here r true prev []) as [rest2|].
      - cbn [length Nat.sub take]. rewrite expand_literal.
        apply (W_token tok [] []). apply (W_token tok [] []). constructor.
      - apply (W_token tok [] []). constructor. }
    split; [exact H0|]. intros prev [|k] adv.
    + exists [], []. split; [reflexivity|apply H0].
    + exists [], []. split; [reflexivity|constructor].
  - assert (Hnext : forall k, Woven tok (c :: s)
                                (tok ++ sub_go r (map TLit tok) s (Some c) k false)).
    { intros k. destruct (IHk (Some c) k false) as (d & s' & Hs & Hw).
      replace (c :: s) with ((c :: d) ++ s') by (rewrite Hs; reflexivity).
      apply (W_token tok (c :: d) s'). exact Hw. }
    assert (H0 : forall prev adv,
               Woven tok (c :: s) (sub_go r (map TLit tok) (c :: s) prev 0 adv)).
    { intros prev adv. cbn [sub_go].
      destruct (match_here r adv prev (c :: s)) as [rest|];
        [|constructor; apply IH0].
      destruct (length (c :: s) - length rest) as [|k] eqn:Hlen.
      - rewrite expand_literal.
        apply (W_token tok [] (c :: s)).
        destruct (match_here r true prev (c :: s)) as [rest2|].
        + rewrite expand_literal. apply Hnext.
        + constructor. apply IH0.
      - rewrite expand_literal. apply Hnext. }
    split; [exact H0|]. intros prev [|k] adv.
    + exists [], (c :: s). split; [reflexivity|apply H0].
    + destruct (IHk (Some c) k false) as (d & s' & Hs & Hw).
      exists (c :: d), s'. split; [rewrite Hs; reflexivity|exact Hw].
Qed.

Section Woven.
Variable tok : list ascii.

Hypothesis tok_first :
  match tok with [] => False | x :: _ => email_char x = false end.
Hypothesis tok_last :
  match last tok with Some z => email_char z = false | None => False end.
Hypothesis tok_no_at : "@"%char ∉ tok.

Lemma woven_prefix (s out : list ascii) :
  Woven tok s out ->
  forall u b,
    out = u ++ b -> Forall (fun c => email_char c = true) u ->
    exists b', s = u ++ b'.
Proof.
  induction 1 as [|c s out _ IH|dropped s out _ _]; intros u b Heq Hu.
  - symmetry in Heq. apply app_eq_nil in Heq as [-> _]. exists []. reflexivity.
  - destruct u as [|y u]; [eauto|].
    simpl in Heq. injection Heq as <- Heq. inversion Hu as [|? ? _ Hu']; subst.
    destruct (IH u b eq_refl Hu') as [b' ->]. eauto.
  - destruct u as [|y u]; [eauto|].
    destruct tok as [|x tok']; [contradiction|].
    simpl in Heq. injection Heq as <- _.
    inversion Hu as [|? ? Hx _]; subst. rewrite tok_first in Hx. discriminate.
Qed.

(** Weaving an inert token into a text without addresses makes none. *)
Lemma woven_clean (s out : list ascii) :
  Woven tok s out -> ~ has_address s -> ~ has_address out.
Proof.
  induction 1 as [|c s out Hw IH|dropped s out Hw IH]; intros Hs.
  - exact Hs.
  - intros (a & u & b & Heq & HM). destruct a as [|y a].
    + pose proof (email_match_facts _ _ _ HM) as (_ & Hall & _).
      destruct (woven_prefix (c :: s) (c :: out) (W_copy tok c s out Hw) u b Heq Hall)
        as [b' Hb'].
      apply Hs. exists [], u, b'. auto.
    + simpl in Heq. injection Heq as _ Heq.
      apply IH; [eapply (has_address_suffix [c]); exact Hs|].
      exists a, u, b. auto.
  - apply (token_joins tok tok_last tok_no_at). apply IH.
    eapply has_address_suffix. exact Hs.
Qed.

Lemma woven_nonempty (s out : list ascii) :
  Woven tok s out -> out = [] -> s = [].
Proof.
  destruct 1 as [|c s out _|dropped s out _]; intros Hout;
    [reflexivity|discriminate|].
  destruct tok; [contradiction|discriminate].
Qed.

End Woven.

Lemma chars_nil (s : string) : chars s = [] -> s = "".
Proof. destruct s; [reflexivity|discriminate]. Qed.

Lemma chars_of_list (l : list ascii) : chars (string_of_list_ascii l) = l.
Proof. apply list_ascii_of_string_of_list_ascii. Qed.

(** [re.sub] with an inert token: it returns, and what it returns is
    woven from the text. *)
Lemma inert_sub (r : regex) (tok text : string) :
  inert_token tok = true ->
  exists out,
    sub_tree r tok text = inr out
    /\ Woven (chars tok) (chars text) (chars out)
    /\ (~ has_address (chars text) -> ~ has_address (chars out))
    /\ (out = "" -> text = "").
Proof.
  intros Hi. destruct (inert_token_facts tok Hi) as (Hfirst & Hlast & Hat & Hparse).
  unfold sub_tree. fold (chars tok). rewrite Hparse.
  eexists. split; [reflexivity|]. rewrite chars_of_list. fold (chars text).
  pose proof (proj1 (sub_go_woven r (chars tok) (chars text)) None false) as Hw.
  split; [exact Hw|]. split.
  - apply (woven_clean (chars tok) Hfirst Hlast Hat _ _ Hw).
  - intros Hout. apply chars_nil.
    apply (woven_nonempty (chars tok) Hfirst Hlast Hat _ _ Hw).
    apply (f_equal chars) in Hout. rewrite chars_of_list in Hout. exact Hout.
Qed.

(** With the address pattern, what it returns has no address left. *)
Lemma inert_sub_email (tok text : string) :
  inert_token tok = true ->
  exists out,
    sub_tree email_tree tok text = inr out
    /\ ~ has_address (chars out)
    /\ (~ has_address (chars text) -> out = text)
    /\ (out = "" -> text = "").
Proof.
  intros Hi. destruct (inert_sub email_tree tok text Hi) as (out & Hsub & _ & _ & Hne).
  exists out. split; [exact Hsub|].
  destruct (inert_token_facts tok Hi) as (Hfirst & Hlast & Hat & Hparse).
  unfold sub_tree in Hsub. fold (chars tok) in Hsub. rewrite Hparse in Hsub.
  injection Hsub as <-. rewrite chars_of_list. fold (chars text).
  split; [apply (sub_go_clean (chars tok) Hfirst Hlast Hat)|].
  split; [|exact Hne].
  intros Hclean. rewrite (sub_go_fixed (chars tok) _ None false Hclean).
  apply string_of_list_ascii_of_string.
Qed.

(** X12.  For a scrubber with an inert mask token, the default one
    included: what masking returns contains no part that matches the
    address pattern; the scrubber passes exactly the texts that contain no
    such part; on any other text it returns MASK with the masked text,
    which is not empty. *)
Theorem scrubber_verdict (cfg : policy_config) (self : PII_Scrubber)
    (text : string) :
  PII_Scrubber_init cfg = Ok self ->
  inert_token (pii_mask_token self) = true ->
  exists masked,
    redact self text = inr masked
    /\ ~ has_address (chars masked)
    /\ (evaluate_prompt self text = Ok (verdict "PASS" "No PII found.")
        <-> ~ has_address (chars text))
    /\ (has_address (chars text) ->
        evaluate_prompt self text
        = Ok (verdict_with "MASK" "PII (email) masked." masked)
        /\ masked <> "").
Proof.
  intros Hinit Hi. unfold PII_Scrubber_init in Hinit. injection Hinit as <-.
  cbn [pii_mask_token] in Hi.
  set (tok := default "[EMAIL_MASKED]" (cfg_mask_token cfg)) in *.
  destruct (inert_sub_email tok text Hi) as (masked & Hsub & Hclean & Hfix & Hne).
  exists masked. split; [exact Hsub|]. split; [exact Hclean|].
  cbn [evaluate_prompt PII_Scrubber_policy]. unfold PII_Scrubber_evaluate_prompt, sub.
  cbn [pii_email_regex pii_mask_token tree]. rewrite Hsub. cbn.
  destruct (String.eqb masked text) eqn:He; cbn.
  - apply String.eqb_eq in He. subst masked. split.
    + split; [intros _; exact Hclean|reflexivity].
    + intros Hadd. contradiction.
  - apply String.eqb_neq in He. split.
    + split; [discriminate|]. intros Hc. exfalso. apply He, Hfix, Hc.
    + intros Hadd. split; [reflexivity|].
      intros Hm. apply Hne in Hm. subst text.
      apply has_address_nil. exact Hadd.
Qed.

Lemma scrubber_verdict_witness :
  PII_Scrubber_init empty_config = Ok (scrubber_of "[EMAIL_MASKED]")
  /\ inert_token "[EMAIL_MASKED]" = true
  /\ exists masked,
       redact (scrubber_of "[EMAIL_MASKED]") "mail a@b.co" = inr masked
       /\ ~ has_address (chars masked).
Proof.
  assert (Hi : inert_token (pii_mask_token (scrubber_of "[EMAIL_MASKED]")) = true)
    by (vm_compute; reflexivity).
  split; [reflexivity|]. split; [exact Hi|].
  destruct (scrubber_verdict empty_config (scrubber_of "[EMAIL_MASKED]")
              "mail a@b.co" eq_refl Hi) as (masked & Hr & Hc & _).
  exists masked. auto.
Defined.

(* ================================================================== *)
(** * The output sanitizer *)

Lemma mask_links_inert (doms : list string) (tok : string) :
  inert_token tok = true ->
  forall processed,
    exists out,
      mask_links doms tok processed = Ok out
      /\ (~ has_address (chars processed) -> ~ has_address (chars out))
      /\ (out = "" -> processed = "").
Proof.
  intros Hi. induction doms as [|dom rest IH]; intros processed; cbn [mask_links].
  - exists processed. auto.
  - destruct (inert_sub (link_tree dom) tok processed Hi)
      as (p' & -> & _ & Hclean & Hne). cbn [of_re mbind except_bind].
    destruct (IH p') as (out & Hout & Hclean' & Hne').
    exists out. split; [exact Hout|]. split; auto.
Qed.

(** The three substitutions of the sanitizer, one after the other. *)
Lemma sanitizer_pipeline (self : Output_Sanitizer) (text : string) :
  tree (os_email_regex self) = email_tree ->
  inert_token (os_mask_token self) = true ->
  exists processed,
    evaluate_prompt self text
    = Ok (if negb (String.eqb processed text)
          then verdict_with "MASK" "Output sanitized (PII or unsafe links)." processed
          else verdict "PASS" "Output clean.")
    /\ ~ has_address (chars processed)
    /\ (processed = "" -> text = "").
Proof.
  intros Htree Hi.
  cbn [evaluate_prompt Output_Sanitizer_policy].
  unfold Output_Sanitizer_evaluate_prompt, sub. rewrite Htree.
  destruct (inert_sub (tree (os_phone_regex self)) (os_mask_token self) text Hi)
    as (p1 & -> & _ & _ & Hne1). cbn [of_re mbind except_bind].
  destruct (inert_sub_email (os_mask_token self) p1 Hi)
    as (p2 & -> & Hclean2 & _ & Hne2). cbn [of_re mbind except_bind].
  destruct (mask_links_inert (os_disallowed self) (os_mask_token self) Hi p2)
    as (p3 & -> & Hclean3 & Hne3). cbn [of_re mbind except_bind].
  exists p3. split; [destruct (String.eqb p3 text); reflexivity|].
  split; [exact (Hclean3 Hclean2)|]. auto.
Qed.

(** X13.  For a sanitizer with the built-in address pattern and an inert
    mask token, whatever its phone pattern and its domains: it either passes
    a text that contains no address, or returns MASK with a text that
    differs from the input, is not empty and contains no address. *)
Theorem sanitizer_verdict (self : Output_Sanitizer) (text : string) :
  tree (os_email_regex self) = email_tree ->
  inert_token (os_mask_token self) = true ->
  (evaluate_prompt self text = Ok (verdict "PASS" "Output clean.")
   /\ ~ has_address (chars text))
  \/ exists processed,
       evaluate_prompt self text
       = Ok (verdict_with "MASK" "Output sanitized (PII or unsafe links)." processed)
       /\ processed <> text /\ processed <> ""
       /\ ~ has_address (chars processed).
Proof.
  intros Htree Hi.
  destruct (sanitizer_pipeline self text Htree Hi) as (p3 & -> & Hclean & Hne).
  destruct (String.eqb p3 text) eqn:He; cbn [negb].
  - apply String.eqb_eq in He. subst p3. left. auto.
  - apply String.eqb_neq in He. right. exists p3.
    split; [reflexivity|]. split; [exact He|]. split; [|exact Hclean].
    intros Hp3. apply He. rewrite Hp3. symmetry. auto.
Qed.

Lemma sanitizer_verdict_witness :
  tree (os_email_regex
          {| os_phone_regex := {| pattern := src_text phone_source; tree := phone_tree |};
             os_email_regex := {| pattern := src_text email_source; tree := email_tree |};
             os_mask_token := "[REDACTED]";
             os_disallowed := ["pastebin.com"; "anonfiles.com"] |}) = email_tree
  /\ inert_token "[REDACTED]" = true
  /\ evaluate_prompt
       {| os_phone_regex := {| pattern := src_text phone_source; tree := phone_tree |};
          os_email_regex := {| pattern := src_text email_source; tree := email_tree |};
          os_mask_token := "[REDACTED]";
          os_disallowed := ["pastebin.com"; "anonfiles.com"] |}
       "call 555-1234 or write to a@b.co"
     = Ok (verdict_with "MASK" "Output sanitized (PII or unsafe links)."
             "call [REDACTED] or write to [REDACTED]").
Proof.
  assert (Hi : inert_token "[REDACTED]" = true) by (vm_compute; reflexivity).
  split; [reflexivity|]. split; [exact Hi|].
  destruct (sanitizer_verdict
              {| os_phone_regex := {| pattern := src_text phone_source; tree := phone_tree |};
                 os_email_regex := {| pattern := src_text email_source; tree := email_tree |};
                 os_mask_token := "[REDACTED]";
                 os_disallowed := ["pastebin.com"; "anonfiles.com"] |}
              "call 555-1234 or write to a@b.co" eq_refl Hi)
    as [[Hpass _] | (processed & Hmask & _)].
  - vm_compute in Hpass. discriminate Hpass.
  - vm_compute. reflexivity.
Defined.

(* ================================================================== *)
(** * No address gets past a scrubber *)

Lemma template_joins (t : string) :
  ~ has_address (chars t) -> ~ has_address (chars (default_template +:+ t)).
Proof.
  intros Hc. rewrite chars_app. apply token_joins; [| |exact Hc].
  - vm_compute. reflexivity.
  - intros Hat. apply list_elem_of_In in Hat. vm_compute in Hat.
    repeat (destruct Hat as [Hat | Hat]; [discriminate Hat|]). exact Hat.
Qed.

(** After an address-safe policy a text without addresses has none, and
    after a scrubber or a sanitizer no text has one. *)
Lemma safe_step (p : policy) (t : string) (res : PolicyResult) :
  address_safe p ->
  evaluate_prompt p t = Ok res ->
  ~ has_address (chars t) \/ removes_addresses p ->
  ~ has_address (chars (next_text res t)).
Proof.
  destruct p as [q|q|q|q]; cbn [address_safe removes_addresses evaluate_prompt
                                 policy_policy].
  - intros [Htree Hi] He _.
    cbn [evaluate_prompt PII_Scrubber_policy] in He.
    unfold PII_Scrubber_evaluate_prompt, sub in He. rewrite Htree in He.
    destruct (inert_sub_email (pii_mask_token q) t Hi)
      as (masked & Hsub & Hclean & _ & Hne).
    rewrite Hsub in He. cbn [of_re mbind except_bind] in He.
    destruct (String.eqb masked t) eqn:Heq; cbn [negb] in He;
      injection He as <-; unfold next_text; cbn.
    + apply String.eqb_eq in Heq. subst masked. exact Hclean.
    + destruct masked; [|exact Hclean].
      apply String.eqb_neq in Heq. exfalso. apply Heq. symmetry. auto.
  - intros _ He [Hc | []].
    cbn [evaluate_prompt Jailbreak_Detector_policy] in He.
    unfold Jailbreak_Detector_evaluate_prompt in He.
    destruct (first_keyword _ _); injection He as <-; exact Hc.
  - intros Htpl He [Hc | []].
    cbn [evaluate_prompt Semantic_Threat_Detector_policy] in He.
    unfold Semantic_Threat_Detector_evaluate_prompt in He.
    destruct (search bomb_word t && search creation_verb t);
      [injection He as <-; exact Hc|].
    destruct (first_match (block_patterns q) t); [injection He as <-; exact Hc|].
    destruct (first_match (rewrite_patterns q) t); injection He as <-; [|exact Hc].
    unfold next_text. rewrite Htpl. cbn. apply template_joins. exact Hc.
  - intros [Htree Hi] He _.
    destruct (sanitizer_pipeline q t Htree Hi) as (processed & Hev & Hc & Hne).
    rewrite Hev in He.
    destruct (String.eqb processed t) eqn:Heq; cbn [negb] in He;
      injection He as <-; unfold next_text; cbn.
    + apply String.eqb_eq in Heq. subst processed. exact Hc.
    + destruct processed; [|exact Hc].
      apply String.eqb_neq in Heq. exfalso. apply Heq. symmetry. auto.
Qed.

Lemma run_chain_no_address (text : string) (chain : list policy) :
  Forall address_safe chain ->
  forall st r,
    run_chain text chain st = Ok r ->
    ~ has_address (chars (current_text st)) \/ Exists removes_addresses chain ->
    forall out, processed_text r = Some out -> ~ has_address (chars out).
Proof.
  induction 1 as [|p rest Hp _ IH]; intros st r Hr Hpre out Hout.
  - cbn [run_chain] in Hr. injection Hr as <-. cbn in Hout.
    injection Hout as <-. destruct Hpre as [Hc | Hex]; [exact Hc|inversion Hex].
  - cbn [run_chain] in Hr.
    pose proof (loop_body_cases text st p) as Hc.
    destruct (loop_body text st p) as [st'|r'|e]; [| |discriminate].
    + destruct Hc as (res & Hres & _ & _ & _ & Ht).
      apply (IH st' r Hr); [|exact Hout].
      change (current_text st' = next_text res (current_text st)) in Ht.
      destruct Hpre as [Hclean | Hex].
      * left. rewrite Ht. apply (safe_step p _ res Hp Hres). left. exact Hclean.
      * apply Exists_cons in Hex as [Hrm | Hex]; [|right; exact Hex].
        left. rewrite Ht. apply (safe_step p _ res Hp Hres). right. exact Hrm.
    + injection Hr as <-. destruct Hc as (res & _ & _ & ->).
      cbn in Hout. discriminate Hout.
Qed.

(** X15.  In a chain of address-safe policies that holds a scrubber or a
    sanitizer, the processed text of every result that has one contains no
    part that matches the address pattern. *)
Theorem no_address_gets_past (chain : list policy) (text out : string)
    (r : GatewayResult) :
  Forall address_safe chain ->
  Exists removes_addresses chain ->
  process_chain chain text = Ok r ->
  processed_text r = Some out ->
  ~ has_address (chars out).
Proof.
  intros Hsafe Hex Hr Hout.
  apply (run_chain_no_address text chain Hsafe (initial_state text) r Hr);
    [right; exact Hex|exact Hout].
Qed.

Lemma sample_chain_safe : Forall address_safe sample_chain.
Proof. repeat constructor. Qed.

Lemma no_address_gets_past_witness :
  Forall address_safe sample_chain
  /\ Exists removes_addresses sample_chain
  /\ process_chain sample_chain "Contact me at user@example.com please"
     = Ok masked_result
  /\ ~ has_address (chars "Contact me at [EMAIL_MASKED] please").
Proof.
  assert (Hex : Exists removes_addresses sample_chain)
    by (apply Exists_cons_hd; exact I).
  split; [exact sample_chain_safe|]. split; [exact Hex|].
  split; [exact sample_masked|].
  exact (no_address_gets_past sample_chain
           "Contact me at user@example.com please"
           "Contact me at [EMAIL_MASKED] please" masked_result
           sample_chain_safe Hex sample_masked eq_refl).
Defined.

(* ================================================================== *)
(** * When the compound rule fires *)

Lemma last_char_cons (prev : option ascii) (c : ascii) (a : list ascii) :
  last_char prev (c :: a) = last_char (Some c) a.
Proof.
  unfold last_char. destruct a as [|c' a] using rev_ind; [reflexivity|].
  rewrite app_comm_cons, !last_snoc. reflexivity.
Qed.

(** [re.search] succeeds only when some part of the text matches. *)
Lemma search_from_sound (r : regex) (s : list ascii) :
  forall prev,
    search_from r prev s = true ->
    exists a u rest,
      s = a ++ u ++ rest /\ Matches r (last_char prev a) u (head rest).
Proof.
  induction s as [|c s IH]; intros prev Hs; cbn [search_from] in Hs.
  - destruct (match_here r false prev []) as [rest|] eqn:Hm; [|discriminate].
    unfold match_here in Hm.
    apply match_sound in Hm as (u & rest' & Heq & HM & _).
    exists [], u, rest'. auto.
  - destruct (match_here r false prev (c :: s)) as [rest|] eqn:Hm.
    + unfold match_here in Hm.
      apply match_sound in Hm as (u & rest' & Heq & HM & _).
      exists [], u, rest'. auto.
    + destruct (IH (Some c) Hs) as (a & u & rest & -> & HM).
      exists (c :: a), u, rest. split; [reflexivity|].
      rewrite last_char_cons. exact HM.
Qed.

Lemma eq_char_i_true (c x : ascii) :
  eq_char_i c x = true -> lower_char x = lower_char c.
Proof.
  unfold eq_char_i, code. intros Hc. apply N.eqb_eq in Hc.
  rewrite <- (ascii_N_embedding (lower_char x)),
          <- (ascii_N_embedding (lower_char c)), Hc.
  reflexivity.
Qed.


(** What a literal under [re.I] matches is a respelling of it. *)
Lemma StrI_inv (s : string) :
  forall prev u next,
    Matches (StrI s) prev u next -> lower (string_of_list_ascii u) = lower s.
Proof.
  induction s as [|c s IH]; intros prev u next HM.
  - inversion HM; subst. reflexivity.
  - destruct s as [|c' s].
    + inversion HM as [|? x ? ? Hx| | | | | |]; subst.
      apply eq_char_i_true in Hx. simpl. rewrite Hx. reflexivity.
    + change (StrI (String c (String c' s)))
        with (Cat (Char (eq_char_i c)) (StrI (String c' s))) in HM.
      inversion HM as [| |? ? u1 u2 ? ? H1 H2| | | | |]; subst.
      inversion H1 as [|? x ? ? Hx| | | | | |]; subst.
      apply eq_char_i_true in Hx.
      change ([x] ++ u2) with (x :: u2).
      change (string_of_list_ascii (x :: u2))
        with (String x (string_of_list_ascii u2)).
      change (lower (String x (string_of_list_ascii u2)))
        with (String (lower_char x) (lower (string_of_list_ascii u2))).
      rewrite Hx, (IH _ _ _ H2). reflexivity.
Qed.





(* ================================================================== *)
(** * The [/process_text] endpoint *)

Lemma init_result (set_name : string) (table : gmap string (list entry)) :
  snd (LLM_Safety_Gateway_init set_name table)
  = match snd (_load_policies set_name table) with
    | Ok chain => Ok {| policy_name := set_name; policy_chain := chain |}
    | Raise e => Raise e
    end.
Proof.
  unfold LLM_Safety_Gateway_init.
  destruct (_load_policies set_name table) as [log [chain|e]]; reflexivity.
Qed.

(** X17.  The endpoint answers 400 exactly when the name is not in the
    table.  A name that is in the table with an empty list gets 500 with
    the "not found in configuration" message of the constructor, and one
    whose list is not empty and holds no registered type gets 500 with the
    "No valid policies" message. *)
Theorem endpoint_errors (table : gmap string (list entry))
    (request : GatewayRequest) :
  let n := request_policy_name request in
  (process_text_endpoint table request
   = HTTPException 400 ("Policy set '" +:+ n +:+ "' not found.")
   <-> table !! n = None)
  /\ (forall detail, process_text_endpoint table request = HTTPException 400 detail
                     -> table !! n = None)
  /\ (table !! n = Some [] ->
      process_text_endpoint table request
      = HTTPException 500
          ("Policy initialization error: Policy set '" +:+ n
           +:+ "' not found in configuration."))
  /\ (forall config_list,
        table !! n = Some config_list -> config_list <> [] ->
        Forall (fun item => known item = false) config_list ->
        process_text_endpoint table request
        = HTTPException 500
            ("Policy initialization error: No valid policies loaded for policy set '"
             +:+ n +:+ "'.")).
Proof.
  cbv zeta. unfold process_text_endpoint.
  assert (H400 : forall detail,
             match table !! request_policy_name request with
             | Some _ =>
                 match snd (LLM_Safety_Gateway_init (request_policy_name request) table) with
                 | Ok gateway =>
                     match process_prompt gateway (request_text request) with
                     | Ok result => Responded result
                     | Raise e => Unhandled e
                     end
                 | Raise e => HTTPException 500 ("Policy initialization error: " +:+ exn_str e)
                 end
             | None =>
                 HTTPException 400
                   ("Policy set '" +:+ request_policy_name request +:+ "' not found.")
             end = HTTPException 400 detail ->
             table !! request_policy_name request = None).
  { intros detail. destruct (table !! request_policy_name request); [|reflexivity].
    destruct (snd (LLM_Safety_Gateway_init _ _)) as [g|e]; [|discriminate].
    destruct (process_prompt g _); discriminate. }
  split; [split; [apply H400|intros ->; reflexivity]|].
  split; [exact H400|].
  split.
  - intros Ht. rewrite Ht, init_result. unfold _load_policies. rewrite Ht.
    reflexivity.
  - intros config_list Ht Hne Hall. rewrite Ht, init_result.
    destruct config_list as [|item rest]; [contradiction|].
    rewrite (load_policies_some _ table item rest Ht).
    apply resolve_all_nil in Hall. rewrite Hall. reflexivity.
Qed.

(** X18.  Every result of a gateway that was constructed has an audit log
    that is not empty, and its first entry names the first registered type
    of the set. *)
Theorem constructed_gateway_logs_first_policy (set_name : string)
    (table : gmap string (list entry)) (config_list : list entry)
    (gateway : LLM_Safety_Gateway) (text : string) (r : GatewayResult) :
  table !! set_name = Some config_list ->
  snd (LLM_Safety_Gateway_init set_name table) = Ok gateway ->
  process_prompt gateway text = Ok r ->
  exists e rest,
    audit_log r = e :: rest
    /\ Some (Some (audit_policy e))
       = head (map entry_type (List.filter known config_list)).
Proof.
  intros Ht Hinit Hr. rewrite init_result in Hinit.
  destruct (snd (_load_policies set_name table)) as [chain|e] eqn:Hload;
    [|discriminate].
  injection Hinit as <-. unfold process_prompt in Hr. cbn [policy_chain] in Hr.
  destruct (load_policies_mirror set_name table config_list chain Ht Hload)
    as [Hnames _].
  destruct chain as [|p chain'].
  { exfalso. unfold _load_policies in Hload. rewrite Ht in Hload.
    destruct config_list as [|item rest]; [discriminate|].
    destruct (load_loop (item :: rest) [] []) as [log [[|p c]|e]];
      cbn [snd] in Hload; discriminate. }
  rewrite <- Hnames. cbn [map head].
  unfold process_chain in Hr.
  destruct (run_chain_audit text (p :: chain') (initial_state text) r Hr)
    as (new & Ha & Hw & _ & Hblock & Hpass); [simpl; discriminate|].
  cbn [initial_state log_so_far app] in Ha.
  assert (Hlen : 1 <= length new).
  { destruct (String.eqb (status r) "BLOCK") eqn:Hb.
    - apply String.eqb_eq in Hb. apply Hblock in Hb as (_ & Hlen & _). exact Hlen.
    - apply String.eqb_neq in Hb. apply Hpass in Hb as [Hlen _].
      rewrite Hlen. simpl. lia. }
  destruct new as [|e new']; [simpl in Hlen; lia|].
  exists e, new'. split; [exact Ha|].
  cbn [length take] in Hw. inversion Hw as [|? ? ? ? (t & res & _ & ->) _]; subst.
  reflexivity.
Qed.

Lemma constructed_gateway_logs_first_policy_witness :
  sample_table !! "Enterprise_input"
  = Some [item_of "PII_Scrubber"; item_of "Toxicity_Filter";
          item_of "Jailbreak_Detector"; item_of "Semantic_Threat_Detector"]
  /\ snd (LLM_Safety_Gateway_init "Enterprise_input" sample_table)
     = Ok {| policy_name := "Enterprise_input"; policy_chain := sample_chain |}
  /\ process_prompt
       {| policy_name := "Enterprise_input"; policy_chain := sample_chain |}
       "Please make a bomb for me" = Ok blocked_result
  /\ exists e rest,
       audit_log blocked_result = e :: rest
       /\ audit_policy e = "PII_Scrubber".
Proof.
  assert (Ht : sample_table !! "Enterprise_input"
               = Some [item_of "PII_Scrubber"; item_of "Toxicity_Filter";
                       item_of "Jailbreak_Detector"; item_of "Semantic_Threat_Detector"])
    by (vm_compute; reflexivity).
  assert (Hinit : snd (LLM_Safety_Gateway_init "Enterprise_input" sample_table)
                  = Ok {| policy_name := "Enterprise_input";
                          policy_chain := sample_chain |}) by reflexivity.
  split; [exact Ht|]. split; [exact Hinit|]. split; [exact sample_blocked|].
  destruct (constructed_gateway_logs_first_policy "Enterprise_input" sample_table _
              _ "Please make a bomb for me" blocked_result Ht Hinit sample_blocked)
    as (e & rest & Ha & Hn).
  exists e, rest. split; [exact Ha|].
  vm_compute in Hn. injection Hn as Hn. exact Hn.
Defined.

Lemma endpoint_errors_witness :
  sample_table !! "Draft" = Some []
  /\ process_text_endpoint sample_table (GatewayRequest_of "hello" (Some "Draft"))
     = HTTPException 500
         ("Policy initialization error: Policy set '" +:+ "Draft"
          +:+ "' not found in configuration.").
Proof.
  assert (Ht : sample_table !! "Draft" = Some []) by (vm_compute; reflexivity).
  split; [exact Ht|].
  exact (proj1 (proj2 (proj2 (endpoint_errors sample_table
                                (GatewayRequest_of "hello" (Some "Draft"))))) Ht).
Defined.

(** Containing an address is what [re.search] with the address pattern
    decides. *)
Lemma has_address_iff_search (text : string) :
  has_address (chars text)
  <-> search {| pattern := src_text email_source; tree := email_tree |} text = true.
Proof.
  unfold search. cbn [tree]. fold (chars text). split.
  - intros (a & u & b & -> & HM). apply search_from_complete.
    eapply matches_anywhere; [exact HM|exact email_bound_free].
  - intros Hs. apply search_from_sound in Hs as (a & u & rest & Heq & HM).
    exists a, u, rest. split; [exact Heq|].
    eapply matches_anywhere; [exact HM|exact email_bound_free].
Qed.

(* ================================================================== *)
(** * A block pattern that cannot be the first to match *)

Lemma lower_keeps_word (x : ascii) : is_word (lower_char x) = is_word x.
Proof. destruct x as [[] [] [] [] [] [] [] []]; vm_compute; reflexivity. Qed.

(** What a creation verb matches starts with a word character. *)
Lemma verb_starts_word prev v next :
  Matches (AltsI creation_verbs) prev v next ->
  exists c v', v = c :: v' /\ is_word c = true.
Proof.
  intros HM.
  assert (Hlow : exists c s, lower (string_of_list_ascii v) = String c s
                             /\ is_word c = true).
  { change (AltsI creation_verbs)
      with (Alt (StrI "make") (Alt (StrI "build") (Alt (StrI "create")
                                                      (StrI "manufacture")))) in HM.
    inversion HM as [| | |? ? ? ? ? H1|? ? ? ? ? H1| | |]; subst;
      [apply (StrI_inv "make") in H1; rewrite H1; eauto|].
    inversion H1 as [| | |? ? ? ? ? H2|? ? ? ? ? H2| | |]; subst;
      [apply (StrI_inv "build") in H2; rewrite H2; eauto|].
    inversion H2 as [| | |? ? ? ? ? H3|? ? ? ? ? H3| | |]; subst;
      [apply (StrI_inv "create") in H3; rewrite H3; eauto|].
    apply (StrI_inv "manufacture") in H3. rewrite H3. eauto. }
  destruct Hlow as (c & s & Hl & Hw).
  destruct v as [|x v']; [discriminate Hl|].
  simpl in Hl. injection Hl as Hx _.
  exists x, v'. split; [reflexivity|].
  rewrite <- lower_keeps_word, Hx. exact Hw.
Qed.

(** A match of "how to " followed by a verb and [R] ends in a match of
    the verb and [R] that starts at a word boundary. *)
Lemma after_how_to (R : regex) prev u next :
  Matches (Cat Bound (Cat (StrI "how to ") (Cat (AltsI creation_verbs) R)))
          prev u next ->
  exists h v,
    u = h ++ v
    /\ Matches (Cat Bound (Cat (AltsI creation_verbs) R)) (last_char prev h) v next.
Proof.
  intros HM.
  inversion HM as [| |? ? u0 u1 ? ? HB H1| | | | |]; subst.
  inversion HB as [| | | | | | |? ? _]; subst.
  remember (Cat (AltsI creation_verbs) R) as R' eqn:HR'.
  inversion H1 as [| |? ? h w ? ? HS HR| | | | |]; subst.
  apply (StrI_inv "how to ") in HS.
  destruct h as [|c1 [|c2 [|c3 [|c4 [|c5 [|c6 [|c7 [|c8 h]]]]]]]];
    try discriminate HS.
  simpl in HS. injection HS as _ _ _ _ _ _ Hc7.
  assert (Hw7 : is_word c7 = false)
    by (rewrite <- lower_keeps_word, Hc7; reflexivity).
  exists [c1; c2; c3; c4; c5; c6; c7], w. split; [reflexivity|].
  change (last_char (last_char prev []) [c1; c2; c3; c4; c5; c6; c7])
    with (Some c7) in HR.
  change (last_char prev [c1; c2; c3; c4; c5; c6; c7]) with (Some c7).
  inversion HR as [| |? ? v1 v2 ? ? HV _| | | | |]; subst.
  destruct (verb_starts_word _ _ _ HV) as (c & v' & -> & Hc).
  change ((c :: v') ++ v2) with ([] ++ (c :: v') ++ v2).
  constructor; [|exact HR].
  constructor. simpl. rewrite Hw7, Hc. discriminate.
Qed.

(** Whatever the second block pattern matches, the first matches too. *)
Lemma how_to_implies_verb (s : list ascii) :
  search_from (Seq [Bound; StrI "how to "; AltsI creation_verbs; Plus ws;
                    Opt (AltsI ["a"; "the"]); Star ws; StrI "bomb"; Bound]) None s
  = true ->
  search_from (Seq [Bound; AltsI creation_verbs; Plus ws;
                    Opt (AltsI ["a"; "the"]); Star ws; StrI "bomb"; Bound]) None s
  = true.
Proof.
  intros H2.
  apply search_from_sound in H2 as (a & u & rest & -> & HM).
  apply (after_how_to
           (Seq [Plus ws; Opt (AltsI ["a"; "the"]); Star ws; StrI "bomb"; Bound]))
    in HM as (h & v & -> & HM).
  rewrite last_char_app in HM.
  rewrite <- app_assoc, app_assoc.
  exact (search_from_complete _ (a ++ h) v rest None HM).
Qed.

Lemma first_match_In (pats : list Pattern) (text : string) (pat : Pattern) :
  first_match pats text = Some pat -> In pat pats.
Proof.
  induction pats as [|p pats IH]; cbn [first_match]; [discriminate|].
  destruct (search p text); [injection 1 as <-; left; reflexivity|].
  intros Hf. right. auto.
Qed.

Lemma first_match_shadowed (p1 p2 : Pattern) (pats : list Pattern)
    (text : string) (pat : Pattern) :
  (search p2 text = true -> search p1 text = true) ->
  first_match (p1 :: p2 :: pats) text = Some pat ->
  pat = p1 \/ In pat pats.
Proof.
  intros Himp. cbn [first_match].
  destruct (search p1 text); [injection 1 as <-; left; reflexivity|].
  destruct (search p2 text); [discriminate (Himp eq_refl)|].
  intros Hf. right. eapply first_match_In. exact Hf.
Qed.

Lemma how_to_shadowed (text : string) (pat : Pattern) :
  first_match default_block_patterns text = Some pat ->
  pattern pat <> how_to_bomb_source.
Proof.
  unfold default_block_patterns. intros Hf.
  apply first_match_shadowed in Hf;
    [|unfold search; cbn [tree]; apply how_to_implies_verb].
  destruct Hf as [-> | Hin]; [cbn; discriminate|].
  repeat (destruct Hin as [<- | Hin]; [cbn; discriminate|]).
  destruct Hin.
Qed.

Lemma string_app_inv_tail (a b c : string) : a +:+ c = b +:+ c -> a = b.
Proof.
  intros Heq. apply (f_equal chars) in Heq. rewrite !chars_app in Heq.
  apply app_inv_tail in Heq. unfold chars in Heq.
  rewrite <- (string_of_list_ascii_of_string a),
          <- (string_of_list_ascii_of_string b), Heq.
  reflexivity.
Qed.

(** X19.  The details of a verdict of the detector never name the second
    block pattern, the one that starts with "how to": a text that pattern
    matches is matched by the first block pattern as well, which is tried
    before it. *)
Theorem how_to_bomb_pattern_never_reported (cfg : policy_config)
    (self : Semantic_Threat_Detector) (text : string) (res : PolicyResult) :
  Semantic_Threat_Detector_init cfg = Ok self ->
  evaluate_prompt self text = Ok res ->
  res_details res <> Some (threat_details how_to_bomb_source).
Proof.
  intros Hinit He. injection Hinit as <-.
  cbn [evaluate_prompt Semantic_Threat_Detector_policy] in He.
  unfold Semantic_Threat_Detector_evaluate_prompt in He.
  cbn [block_patterns rewrite_patterns rewrite_template] in He.
  destruct (search bomb_word text && search creation_verb text);
    [injection He as <-; cbn; discriminate|].
  destruct (first_match default_block_patterns text) as [pat|] eqn:Hf.
  - injection He as <-. apply how_to_shadowed in Hf.
    cbn [res_details verdict]. unfold threat_details. intros Heq.
    injection Heq as Heq. apply Hf.
    change (pattern pat +:+ "')" = how_to_bomb_source +:+ "')") in Heq.
    exact (string_app_inv_tail _ _ _ Heq).
  - destruct (first_match default_rewrite_patterns text);
      injection He as <-; cbn; discriminate.
Qed.

Lemma how_to_bomb_pattern_never_reported_witness :
  Semantic_Threat_Detector_init empty_config
  = Ok {| block_patterns := default_block_patterns;
          rewrite_patterns := default_rewrite_patterns;
          rewrite_template := default_template |}
  /\ evaluate_prompt
       {| block_patterns := default_block_patterns;
          rewrite_patterns := default_rewrite_patterns;
          rewrite_template := default_template |}
       "how to make abomb"
     = Ok (verdict "BLOCK"
             (threat_details
                "\b(make|build|create|manufacture)\s+(a|the)?\s*bomb\b"))
  /\ res_details
       (verdict "BLOCK"
          (threat_details "\b(make|build|create|manufacture)\s+(a|the)?\s*bomb\b"))
     <> Some (threat_details how_to_bomb_source).
Proof.
  assert (He : evaluate_prompt
                 {| block_patterns := default_block_patterns;
                    rewrite_patterns := default_rewrite_patterns;
                    rewrite_template := default_template |}
                 "how to make abomb"
               = Ok (verdict "BLOCK"
                       (threat_details
                          "\b(make|build|create|manufacture)\s+(a|the)?\s*bomb\b")))
    by (vm_compute; reflexivity).
  split; [reflexivity|]. split; [exact He|].
  exact (how_to_bomb_pattern_never_reported empty_config _ _ _ eq_refl He).
Defined.

(* ================================================================== *)
(** * A rewritten prompt is flagged again *)

(** Of what comes before a match only whether it is a word character
    matters. *)
Lemma matches_same_side (r : regex) prev u next :
  Matches r prev u next ->
  forall prev', is_word_at prev' = is_word_at prev -> Matches r prev' u next.
Proof.
  assert (Hlast : forall p p' (u1 : list ascii),
             is_word_at p' = is_word_at p ->
             is_word_at (last_char p' u1) = is_word_at (last_char p u1)).
  { intros p p' u1 Hp. unfold last_char. destruct (last u1); [reflexivity|exact Hp]. }
  induction 1 as [| f c prev next Hf | r1 r2 u1 u2 prev next _ IH1 _ IH2
                  | r1 r2 u prev next _ IH | r1 r2 u prev next _ IH |
                  | r u1 u2 prev next Hne _ IH1 _ IH2 | prev next Hw];
    intros prev' Hp.
  - constructor.
  - constructor. exact Hf.
  - constructor; [apply IH1; exact Hp|apply IH2; apply Hlast; exact Hp].
  - apply M_AltL. apply IH. exact Hp.
  - apply M_AltR. apply IH. exact Hp.
  - constructor.
  - constructor; [exact Hne|apply IH1; exact Hp|apply IH2; apply Hlast; exact Hp].
  - constructor. rewrite Hp. exact Hw.
Qed.

(** A pattern found in a text is found in the text put after a prefix
    that does not end in a word character. *)
Lemma search_after_prefix (p : Pattern) (pre text : string) :
  is_word_at (last_char None (chars pre)) = false ->
  search p text = true -> search p (pre +:+ text) = true.
Proof.
  unfold search. fold (chars text). fold (chars (pre +:+ text)).
  intros Hpre Hs. rewrite chars_app.
  apply search_from_sound in Hs as (a & u & rest & -> & HM).
  rewrite app_assoc. apply search_from_complete.
  apply (matches_same_side _ _ _ _ HM).
  rewrite <- last_char_app. unfold last_char at 1 3.
  destruct (last a); [reflexivity|exact Hpre].
Qed.

Lemma first_match_after_prefix (pats : list Pattern) (pre text : string) :
  is_word_at (last_char None (chars pre)) = false ->
  first_match pats text <> None -> first_match pats (pre +:+ text) <> None.
Proof.
  intros Hpre. induction pats as [|p pats IH]; cbn [first_match]; [auto|].
  destruct (search p text) eqn:Hs.
  - rewrite (search_after_prefix p pre text Hpre Hs). discriminate.
  - intros Hf. destruct (search p (pre +:+ text)); [discriminate|auto].
Qed.

(** X20.  The prompt the detector returns with REWRITE is its template
    followed by the text, and the detector never passes it: evaluated
    again it is blocked or rewritten once more. *)
Theorem rewritten_prompt_is_flagged_again (cfg : policy_config)
    (self : Semantic_Threat_Detector) (text details new : string) :
  Semantic_Threat_Detector_init cfg = Ok self ->
  evaluate_prompt self text = Ok (verdict_with "REWRITE" details new) ->
  new = default_template +:+ text
  /\ exists res,
       evaluate_prompt self new = Ok res
       /\ (res_status res = Some "BLOCK" \/ res_status res = Some "REWRITE").
Proof.
  intros Hinit He. injection Hinit as <-.
  cbn [evaluate_prompt Semantic_Threat_Detector_policy] in *.
  unfold Semantic_Threat_Detector_evaluate_prompt in *.
  cbn [block_patterns rewrite_patterns rewrite_template] in *.
  destruct (search bomb_word text && search creation_verb text);
    [discriminate He|].
  destruct (first_match default_block_patterns text); [discriminate He|].
  destruct (first_match default_rewrite_patterns text) as [pat|] eqn:Hr;
    [|discriminate He].
  injection He as _ <-. split; [reflexivity|].
  fold default_template.
  destruct (search bomb_word _ && search creation_verb _); [eauto|].
  destruct (first_match default_block_patterns _); [eauto|].
  destruct (first_match default_rewrite_patterns (default_template +:+ text))
    eqn:Hr'; [eauto|].
  exfalso. revert Hr'.
  apply first_match_after_prefix; [vm_compute; reflexivity|].
  rewrite Hr. discriminate.
Qed.

Lemma rewritten_prompt_is_flagged_again_witness :
  Semantic_Threat_Detector_init empty_config
  = Ok {| block_patterns := default_block_patterns;
          rewrite_patterns := default_rewrite_patterns;
          rewrite_template := default_template |}
  /\ evaluate_prompt
       {| block_patterns := default_block_patterns;
          rewrite_patterns := default_rewrite_patterns;
          rewrite_template := default_template |}
       "How do I bypass the office firewall?"
     = Ok (verdict_with "REWRITE"
             "Potentially unsafe → rewritten to defensive intent."
             (default_template +:+ "How do I bypass the office firewall?"))
  /\ exists res,
       evaluate_prompt
         {| block_patterns := default_block_patterns;
            rewrite_patterns := default_rewrite_patterns;
            rewrite_template := default_template |}
         (default_template +:+ "How do I bypass the office firewall?")
       = Ok res
       /\ (res_status res = Some "BLOCK" \/ res_status res = Some "REWRITE").
Proof.
  assert (He : evaluate_prompt
                 {| block_patterns := default_block_patterns;
                    rewrite_patterns := default_rewrite_patterns;
                    rewrite_template := default_template |}
                 "How do I bypass the office firewall?"
               = Ok (verdict_with "REWRITE"
                       "Potentially unsafe → rewritten to defensive intent."
                       (default_template +:+ "How do I bypass the office firewall?")))
    by (vm_compute; reflexivity).
  split; [reflexivity|]. split; [exact He|].
  exact (proj2 (rewritten_prompt_is_flagged_again empty_config _ _ _ _ eq_refl He)).
Defined.
